(** * Tako.JobSystem: a fork-join job scheduler

    Shallow embedding of the C++ module [Tako.JobSystem] (classes [Job],
    [JobQueue] and [JobSystem]) and proofs about its scheduling, completion
    and reclamation code.

    The embedding follows one thread through the code.  The state holds the
    process-wide statics (queues, pool, thread count), the thread-locals of
    the executing thread (running job, thread index, free list, delete list)
    and the memory that holds [Job] records.  Every operation with an effect
    that another thread can observe (atomic counter operations, queue pushes
    and pops, condition-variable notifications and waits, the pool mutex) and
    every functor call and reclamation appends an event to a trace, so that
    "before" and "after" in the code can be stated. *)

From stdpp Require Import gmap list.
From Stdlib Require Import ZArith Lia.

Local Open Scope Z_scope.

(** ** Machine integers *)

(** [std::atomic<int>]: 32-bit two's complement; atomic arithmetic wraps. *)
Definition wrap_int (x : Z) : Z := (x + 2 ^ 31) mod 2 ^ 32 - 2 ^ 31.

(** [unsigned int]: arithmetic modulo 2^32. *)
Definition wrap_uint (x : Z) : Z := x mod 2 ^ 32.

(** [size_t] on the 64-bit targets of the engine: arithmetic modulo 2^64. *)
Definition wrap_size_t (x : Z) : Z := x mod 2 ^ 64.

(** [sizeof(Job)] on a 64-bit target: two pointers, a [bool] padded to the
    alignment of the [int] that follows it, the atomic [int], and a [size_t];
    the flexible array member [m_functorData] adds nothing. *)
Definition sizeof_Job : Z := 32.

(** Block size of the pool built in the constructor of [JobSystem]:
    [m_allocator(malloc(16384 * 128), 16384 * 128, 128)]. *)
Definition blockSize : Z := 128.

(** ** Functors

    A job's functor is client code.  What it can do to the scheduler it does
    through the public static interface, so a functor is modelled by the size
    of its [JobFunctor<Functor>] object and the sequence of scheduler calls
    its body makes. *)

Inductive Functor : Type :=
| Fn (size : Z) (body : list Call)
with Call : Type :=
| CallSchedule (f : Functor)
| CallScheduleDetached (f : Functor)
| CallScheduleForThread (thread : Z) (f : Functor)
| CallContinuation (f : Functor)
| CallStop.

(** [sizeof(JobFunctor<Functor>)] *)
Definition sizeof_JobFunctor (f : Functor) : Z :=
  match f with Fn size _ => size end.

Definition functor_body (f : Functor) : list Call :=
  match f with Fn _ body => body end.

(** ** Data model *)

(** A non-null [Job*]; [option ptr] is a pointer that may be null. *)
Abbreviation ptr := positive (only parsing).

(** [class Job].  [m_functorData] holds the functor constructed in the inline
    storage, if any. *)
Record Job : Type := mkJob {
  m_parent : option ptr;
  m_continuation : option ptr;
  m_functorActive : bool;
  m_jobsLeft : Z;
  m_functorSize : Z;
  m_functorData : option Functor
}.

Definition set_parent (p : option ptr) (J : Job) : Job :=
  mkJob p (m_continuation J) (m_functorActive J) (m_jobsLeft J)
        (m_functorSize J) (m_functorData J).

Definition set_continuation (k : option ptr) (J : Job) : Job :=
  mkJob (m_parent J) k (m_functorActive J) (m_jobsLeft J)
        (m_functorSize J) (m_functorData J).

Definition set_jobsLeft (n : Z) (J : Job) : Job :=
  mkJob (m_parent J) (m_continuation J) (m_functorActive J) n
        (m_functorSize J) (m_functorData J).

Definition set_functorData (d : option Functor) (J : Job) : Job :=
  mkJob (m_parent J) (m_continuation J) (m_functorActive J) (m_jobsLeft J)
        (m_functorSize J) d.

(** ** Records and blocks

    Every record lies in a block of the pool, and the pool is one array
    ([malloc(16384 * 128)], blocks of 128 bytes): a [Job*] is the number of
    its block, and block [j + 1] starts where block [j] ends.  The header
    of a record takes [sizeof(Job)] bytes; [m_functorData] is the flexible
    array member behind it, and [m_functorSize] is the number of bytes the
    constructor was told it holds, which for every record the code builds
    is the rest of the block.  An object of [size] bytes constructed in
    [m_functorData] that is larger than that reaches into the blocks that
    follow; [overrun j capacity size] lists them. *)
Definition overrun (j : ptr) (capacity size : Z) : list positive :=
  map (fun i => (j + Z.to_pos i)%positive)
      (seqZ 1 ((size - capacity + (blockSize - 1)) / blockSize)).

(** The functor object of the record [X] in block [x] reaches into block
    [b]. *)
Definition reaches (x : ptr) (X : Job) (b : ptr) : bool :=
  match m_functorData X with
  | Some f =>
      m_functorActive X &&
      existsb (Pos.eqb b)
              (overrun x (m_functorSize X) (sizeof_JobFunctor f))
  | None => false
  end.

(** Memory after an object has been constructed over the blocks [bs]: the
    records that were there are overwritten, their lifetime has ended. *)
Definition drop_blocks (bs : list positive) (h : gmap positive Job)
  : gmap positive Job :=
  foldr delete h bs.

(** Memory after a [Job] has been constructed at the start of block [b]:
    a functor object of another record that reaches into [b] is overwritten
    there; its owner keeps its header and has no functor object any more. *)
Definition overwrite_block (b : ptr) (h : gmap positive Job)
  : gmap positive Job :=
  map_imap (fun x X =>
              Some (if reaches x X b then set_functorData None X else X)) h.

Inductive QueueId : Type :=
| Local (i : Z)     (* m_localQueues[i] *)
| Global (i : Z).   (* m_globalQueues[i] *)

Inductive Cache : Type := FreeList | DeleteList.

Inductive Event : Type :=
| EvFetchSub (j : ptr) (prev : Z)        (* j->m_jobsLeft.fetch_sub(1) returned prev *)
| EvIncrement (j : ptr)                  (* j->m_jobsLeft++ *)
| EvPush (q : QueueId) (j : ptr)         (* JobQueue::Push *)
| EvPop (q : QueueId) (r : option ptr)   (* JobQueue::Pop and its result *)
| EvNotifyAll                            (* m_cv.notify_all() *)
| EvWaitFor (microseconds : Z)           (* m_cv.wait_for *)
| EvLockAlloc                            (* std::lock_guard lk(m_allocMutex) *)
| EvUnlockAlloc                          (* the guard's destructor *)
| EvPoolAllocate (r : option ptr)        (* g_allocator->Allocate() *)
| EvPoolDeallocate (j : ptr)             (* g_allocator->Deallocate(j) *)
| EvInvoke (j : ptr)                     (* Job::operator() of j entered *)
| EvReturn (j : ptr)                     (* Job::operator() of j returned *)
| EvRecycle (j : ptr) (c : Cache).       (* DeallocateJob(j) put j on a list *)

Record State : Type := mkState {
  heap : gmap positive Job;           (* memory that holds Job records *)
  g_allocator : list positive;        (* free blocks of the pool *)
  m_localQueues : list (list positive);
  m_globalQueues : list (list positive);
  m_threadCount : Z;
  m_stop : bool;
  m_runningJob : option ptr;          (* thread_local *)
  m_threadIndex : Z;                  (* thread_local *)
  m_freeJobList : option ptr;         (* thread_local *)
  m_freeJobListCount : Z;             (* thread_local *)
  m_deleteJobList : option ptr;       (* thread_local *)
  m_deleteJobListCount : Z;           (* thread_local *)
  trace : list Event
}.

Definition with_heap (h : gmap positive Job) (s : State) : State :=
  mkState h (g_allocator s) (m_localQueues s) (m_globalQueues s)
    (m_threadCount s) (m_stop s) (m_runningJob s) (m_threadIndex s)
    (m_freeJobList s) (m_freeJobListCount s) (m_deleteJobList s)
    (m_deleteJobListCount s) (trace s).

Definition with_pool (p : list positive) (s : State) : State :=
  mkState (heap s) p (m_localQueues s) (m_globalQueues s)
    (m_threadCount s) (m_stop s) (m_runningJob s) (m_threadIndex s)
    (m_freeJobList s) (m_freeJobListCount s) (m_deleteJobList s)
    (m_deleteJobListCount s) (trace s).

Definition with_localQueues (q : list (list positive)) (s : State) : State :=
  mkState (heap s) (g_allocator s) q (m_globalQueues s)
    (m_threadCount s) (m_stop s) (m_runningJob s) (m_threadIndex s)
    (m_freeJobList s) (m_freeJobListCount s) (m_deleteJobList s)
    (m_deleteJobListCount s) (trace s).

Definition with_globalQueues (q : list (list positive)) (s : State) : State :=
  mkState (heap s) (g_allocator s) (m_localQueues s) q
    (m_threadCount s) (m_stop s) (m_runningJob s) (m_threadIndex s)
    (m_freeJobList s) (m_freeJobListCount s) (m_deleteJobList s)
    (m_deleteJobListCount s) (trace s).

Definition with_stop (b : bool) (s : State) : State :=
  mkState (heap s) (g_allocator s) (m_localQueues s) (m_globalQueues s)
    (m_threadCount s) b (m_runningJob s) (m_threadIndex s)
    (m_freeJobList s) (m_freeJobListCount s) (m_deleteJobList s)
    (m_deleteJobListCount s) (trace s).

Definition with_runningJob (r : option ptr) (s : State) : State :=
  mkState (heap s) (g_allocator s) (m_localQueues s) (m_globalQueues s)
    (m_threadCount s) (m_stop s) r (m_threadIndex s)
    (m_freeJobList s) (m_freeJobListCount s) (m_deleteJobList s)
    (m_deleteJobListCount s) (trace s).

Definition with_threadIndex (i : Z) (s : State) : State :=
  mkState (heap s) (g_allocator s) (m_localQueues s) (m_globalQueues s)
    (m_threadCount s) (m_stop s) (m_runningJob s) i
    (m_freeJobList s) (m_freeJobListCount s) (m_deleteJobList s)
    (m_deleteJobListCount s) (trace s).

Definition with_freeList (l : option ptr) (n : Z) (s : State) : State :=
  mkState (heap s) (g_allocator s) (m_localQueues s) (m_globalQueues s)
    (m_threadCount s) (m_stop s) (m_runningJob s) (m_threadIndex s)
    l n (m_deleteJobList s) (m_deleteJobListCount s) (trace s).

Definition with_deleteList (l : option ptr) (n : Z) (s : State) : State :=
  mkState (heap s) (g_allocator s) (m_localQueues s) (m_globalQueues s)
    (m_threadCount s) (m_stop s) (m_runningJob s) (m_threadIndex s)
    (m_freeJobList s) (m_freeJobListCount s) l n (trace s).

Definition with_trace (t : list Event) (s : State) : State :=
  mkState (heap s) (g_allocator s) (m_localQueues s) (m_globalQueues s)
    (m_threadCount s) (m_stop s) (m_runningJob s) (m_threadIndex s)
    (m_freeJobList s) (m_freeJobListCount s) (m_deleteJobList s)
    (m_deleteJobListCount s) t.

(** ** Outcomes and the state monad of the embedding *)

Inductive Outcome (A : Type) : Type :=
| Ok (a : A)
| AssertFailed     (* an ASSERT tripped: fatal *)
| Undefined        (* undefined behaviour: null or dangling pointer, index out of range *)
| OutOfFuel.       (* the model ran out of loop iterations *)

Arguments Ok {A} a.
Arguments AssertFailed {A}.
Arguments Undefined {A}.
Arguments OutOfFuel {A}.

Definition M (A : Type) : Type := State -> Outcome (A * State).

Definition ret {A : Type} (a : A) : M A := fun s => Ok (a, s).

Definition bind {A B : Type} (m : M A) (k : A -> M B) : M B :=
  fun s =>
    match m s with
    | Ok (a, s') => k a s'
    | AssertFailed => AssertFailed
    | Undefined => Undefined
    | OutOfFuel => OutOfFuel
    end.

Notation "'do' x <- m ; k" := (bind m (fun x => k))
  (at level 10, x name, m at level 100, k at level 200).
Notation "m ;; k" := (bind m (fun _ => k))
  (at level 100, k at level 200, right associativity).

Definition undefined {A : Type} : M A := fun _ => Undefined.
Definition out_of_fuel {A : Type} : M A := fun _ => OutOfFuel.

Definition get : M State := fun s => Ok (s, s).
Definition modify (f : State -> State) : M unit := fun s => Ok (tt, f s).

Definition emit (e : Event) : M unit :=
  modify (fun s => with_trace (trace s ++ [e]) s).

(** Modelled from the spec: the [ASSERT] macro comes from [Utility.hpp], which
    is not among the sources; the spec's error table calls a failed assertion
    fatal. *)
Definition ASSERT (b : bool) : M unit :=
  fun s => if b then Ok (tt, s) else AssertFailed.

(** Reading and writing a [Job] through a pointer. *)
Definition load (j : ptr) : M Job :=
  fun s => match heap s !! j with
           | Some J => Ok (J, s)
           | None => Undefined
           end.

Definition store (j : ptr) (J : Job) : M unit :=
  modify (fun s => with_heap (<[j := J]> (heap s)) s).

Definition update (j : ptr) (f : Job -> Job) : M unit :=
  do J <- load j; store j (f J).

(** ** class Job *)

(** [Job::Reset] *)
Definition Job_Reset (J : Job) : Job :=
  let data := if m_functorActive J then None else m_functorData J in
  mkJob None None false 1 (m_functorSize J) data.

(** [Job::Job(size_t functorSize)]: the default member initialisers, then
    [Reset()]. *)
Definition Job_new (functorSize : Z) : Job :=
  Job_Reset (mkJob None None false 1 functorSize None).

(** [Job::SetFunctor], what it leaves in the record: the active functor, if
    any, is destroyed and the new one constructed in [m_functorData]. *)
Definition Job_SetFunctor (f : Functor) (J : Job) : Job :=
  mkJob (m_parent J) (m_continuation J) true (m_jobsLeft J)
        (m_functorSize J) (Some f).

Definition Reset (j : ptr) : M unit := update j Job_Reset.

(** [Job::SetFunctor] through a pointer.  The placement new does not compare
    the size of the functor with [m_functorSize]: a functor that is larger
    is constructed all the same and overwrites the blocks it reaches. *)
Definition SetFunctor (j : ptr) (f : Functor) : M unit :=
  do J <- load j;
  modify (fun s =>
    with_heap (drop_blocks (overrun j (m_functorSize J) (sizeof_JobFunctor f))
                           (heap s)) s) ;;
  store j (Job_SetFunctor f J).

(** [j->m_jobsLeft.fetch_sub(1)] *)
Definition fetch_sub (j : ptr) : M Z :=
  do J <- load j;
  store j (set_jobsLeft (wrap_int (m_jobsLeft J - 1)) J) ;;
  emit (EvFetchSub j (m_jobsLeft J)) ;;
  ret (m_jobsLeft J).

(** [j->m_jobsLeft++] *)
Definition increment (j : ptr) : M unit :=
  do J <- load j;
  store j (set_jobsLeft (wrap_int (m_jobsLeft J + 1)) J) ;;
  emit (EvIncrement j).

(** ** class JobQueue

    [Push] and [Pop] take the queue's spin lock, which a single thread always
    finds free; the lock leaves no trace here. *)

Definition queues (q : QueueId) (s : State) : list (list positive) :=
  match q with
  | Local _ => m_localQueues s
  | Global _ => m_globalQueues s
  end.

Definition queue_index (q : QueueId) : Z :=
  match q with Local i => i | Global i => i end.

Definition with_queues (q : QueueId) (qs : list (list positive)) (s : State)
  : State :=
  match q with
  | Local _ => with_localQueues qs s
  | Global _ => with_globalQueues qs s
  end.

(** The deque behind [m_localQueues[i]] or [m_globalQueues[i]]; indexing a
    vector out of range is undefined. *)
Definition queue_at (q : QueueId) : M (list positive) :=
  fun s =>
    if (0 <=? queue_index q) then
      match queues q s !! Z.to_nat (queue_index q) with
      | Some d => Ok (d, s)
      | None => Undefined
      end
    else Undefined.

Definition set_queue (q : QueueId) (d : list positive) : M unit :=
  modify (fun s =>
    with_queues q (<[Z.to_nat (queue_index q) := d]> (queues q s)) s).

(** [JobQueue::Push] *)
Definition Push (q : QueueId) (j : ptr) : M unit :=
  do d <- queue_at q;
  set_queue q (d ++ [j]) ;;
  emit (EvPush q j).

(** [JobQueue::Pop] *)
Definition Pop (q : QueueId) : M (option ptr) :=
  do d <- queue_at q;
  match d with
  | [] => emit (EvPop q None) ;; ret None
  | j :: d' => set_queue q d' ;; emit (EvPop q (Some j)) ;; ret (Some j)
  end.

(** ** The pool *)

(** Modelled from the spec: [Allocators::PoolAllocator] is imported from a
    module that is not among the sources.  The spec describes a fixed-block
    allocator whose allocation returns an uninitialised block; here it is the
    list of its free blocks, [Allocate] takes the first one and returns null
    when there is none.  What the allocator keeps inside a free block is not
    known from the sources: an object that reaches into a free block leaves
    this list as it is. *)
Definition Pool_Allocate : M (option ptr) :=
  do s <- get;
  match g_allocator s with
  | [] => emit (EvPoolAllocate None) ;; ret None
  | b :: rest =>
      modify (with_pool rest) ;; emit (EvPoolAllocate (Some b)) ;; ret (Some b)
  end.

(** Modelled from the spec: [PoolAllocator::Deallocate] gives the block back
    to the pool's free blocks. *)
Definition Pool_Deallocate (j : ptr) : M unit :=
  modify (fun s => with_pool (j :: g_allocator s) s) ;;
  emit (EvPoolDeallocate j).

(** ** class JobSystem: allocation and reclamation *)

(** The search loop of [AllocateJob]:
    [while (job && job->m_functorSize < functorSize) { prevJob = job; job = job->m_parent; }]
    It returns [(prevJob, job)]. *)
Fixpoint find_fit (fuel : nat) (functorSize : Z)
    (prevJob job : option ptr) : M (option ptr * option ptr) :=
  match job with
  | None => ret (prevJob, None)
  | Some j =>
      do J <- load j;
      if m_functorSize J <? functorSize then
        match fuel with
        | O => out_of_fuel
        | S fuel' => find_fit fuel' functorSize (Some j) (m_parent J)
        end
      else ret (prevJob, Some j)
  end.

(** [JobSystem::AllocateJob] *)
Definition AllocateJob (fuel : nat) (func : Functor) : M ptr :=
  do s <- get;
  let functorSize := Z.max (sizeof_JobFunctor func) 24 in
  do found <- find_fit fuel functorSize None (m_freeJobList s);
  do job <-
    match found with
    | (prevJob, Some job) =>
        do J <- load job;
        match prevJob with
        | Some p => update p (set_parent (m_parent J))
        | None =>
            modify (fun s => with_freeList (m_parent J) (m_freeJobListCount s) s)
        end ;;
        update job (set_parent None) ;;
        modify (fun s =>
          with_freeList (m_freeJobList s)
                        (wrap_size_t (m_freeJobListCount s - 1)) s) ;;
        ret job
    | (_, None) =>
        emit EvLockAlloc ;;
        do p <- Pool_Allocate;
        emit EvUnlockAlloc ;;
        ASSERT (bool_decide (is_Some p)) ;;
        match p with
        | Some job =>
            modify (fun s => with_heap (overwrite_block job (heap s)) s) ;;
            store job (Job_new (wrap_size_t (blockSize - sizeof_Job))) ;;
            ret job
        | None => undefined
        end
    end;
  SetFunctor job func ;;
  ret job.

(** [JobSystem::DeallocateJob] *)
Definition DeallocateJob (job : ptr) : M unit :=
  Reset job ;;
  do s <- get;
  if 100 <=? m_freeJobListCount s then
    update job (set_parent (m_deleteJobList s)) ;;
    modify (fun s =>
      with_deleteList (Some job) (wrap_size_t (m_deleteJobListCount s + 1)) s) ;;
    emit (EvRecycle job DeleteList)
  else
    update job (set_parent (m_freeJobList s)) ;;
    modify (fun s =>
      with_freeList (Some job) (wrap_size_t (m_freeJobListCount s + 1)) s) ;;
    emit (EvRecycle job FreeList).

(** [JobSystem::DeleteOldJobs].  [std::destroy_at(job)] ends the record's
    lifetime and [Deallocate] returns its block, so the record leaves the
    memory. *)
Fixpoint DeleteOldJobs_loop (fuel : nat) : M unit :=
  do s <- get;
  match m_deleteJobList s with
  | None => ret tt
  | Some job =>
      match fuel with
      | O => out_of_fuel
      | S fuel' =>
          do J <- load job;
          modify (fun s => with_deleteList (m_parent J) (m_deleteJobListCount s) s) ;;
          modify (fun s => with_heap (delete job (heap s)) s) ;;
          Pool_Deallocate job ;;
          DeleteOldJobs_loop fuel'
      end
  end.

Definition DeleteOldJobs (fuel : nat) : M unit :=
  emit EvLockAlloc ;;
  DeleteOldJobs_loop fuel ;;
  modify (fun s => with_deleteList (m_deleteJobList s) 0 s) ;;
  emit EvUnlockAlloc.

(** ** class JobSystem: scheduling *)

Definition is_null (p : option ptr) : bool :=
  match p with None => true | Some _ => false end.

(** [JobSystem::ScheduleRaw] *)
Definition ScheduleRaw (queue : QueueId) (job : ptr) (detached : bool)
  : M ptr :=
  do s <- get;
  match m_runningJob s with
  | Some running =>
      do J <- load job;
      if is_null (m_parent J) && negb detached then
        increment running ;;
        update job (set_parent (Some running))
      else ret tt
  | None => ret tt
  end ;;
  Push queue job ;;
  emit EvNotifyAll ;;
  ret job.

(** [JobSystem::Schedule], the overload that takes a [Job] pointer *)
Definition Schedule (job : ptr) : M ptr :=
  do s <- get;
  ScheduleRaw (Global (m_threadIndex s)) job false.

(** [JobSystem::Schedule], the overload that takes a functor *)
Definition ScheduleFunctor (fuel : nat) (func : Functor) : M ptr :=
  do allocatedJob <- AllocateJob fuel func;
  Schedule allocatedJob.

(** [JobSystem::ScheduleDetached] *)
Definition ScheduleDetached (fuel : nat) (func : Functor) : M ptr :=
  do allocatedJob <- AllocateJob fuel func;
  do s <- get;
  ScheduleRaw (Global (m_threadIndex s)) allocatedJob true.

(** [JobSystem::ScheduleForThread], the overload that takes a [Job] pointer *)
Definition ScheduleForThread (thread : Z) (job : ptr) : M ptr :=
  ScheduleRaw (Local thread) job false.

(** [JobSystem::ScheduleForThread], the overload that takes a functor *)
Definition ScheduleForThreadFunctor (fuel : nat) (thread : Z) (func : Functor)
  : M ptr :=
  do allocatedJob <- AllocateJob fuel func;
  ScheduleForThread thread allocatedJob.

(** [JobSystem::Continuation]: the right-hand side of the assignment is
    evaluated first, then [m_runningJob] is dereferenced. *)
Definition Continuation (fuel : nat) (func : Functor) : M unit :=
  do k <- AllocateJob fuel func;
  do s <- get;
  match m_runningJob s with
  | Some running => update running (set_continuation (Some k))
  | None => undefined
  end.

(** [JobSystem::Stop] *)
Definition Stop : M unit :=
  modify (with_stop true) ;;
  emit EvNotifyAll.

(** [JobSystem::WaitFor] *)
Definition WaitFor : M unit := emit (EvWaitFor 1000).

(** ** Running a job *)

Definition run_call (fuel : nat) (c : Call) : M unit :=
  match c with
  | CallSchedule f => ScheduleFunctor fuel f ;; ret tt
  | CallScheduleDetached f => ScheduleDetached fuel f ;; ret tt
  | CallScheduleForThread t f => ScheduleForThreadFunctor fuel t f ;; ret tt
  | CallContinuation f => Continuation fuel f
  | CallStop => Stop
  end.

Fixpoint run_calls (fuel : nat) (cs : list Call) : M unit :=
  match cs with
  | [] => ret tt
  | c :: cs' => run_call fuel c ;; run_calls fuel cs'
  end.

(** [Job::operator()]: calls the functor held in [m_functorData]. *)
Definition invoke (fuel : nat) (j : ptr) : M unit :=
  do J <- load j;
  match m_functorData J with
  | None => undefined
  | Some f =>
      emit (EvInvoke j) ;;
      run_calls fuel (functor_body f) ;;
      emit (EvReturn j)
  end.

(** ** The completion protocol *)

(** [JobSystem::OnJobDone].  Each use of [job->m_parent] and
    [job->m_continuation] reads the record again, as the code does. *)
Fixpoint OnJobDone (fuel : nat) (job : ptr) : M unit :=
  match fuel with
  | O => out_of_fuel
  | S fuel' =>
      do left <- fetch_sub job;
      if left =? 1 then
        do J <- load job;
        match m_continuation J with
        | Some k =>
            match m_parent J with
            | Some p =>
                increment p ;;
                do J1 <- load job;
                match m_continuation J1 with
                | Some k1 => update k1 (set_parent (m_parent J1))
                | None => undefined
                end
            | None => ret tt
            end ;;
            do J2 <- load job;
            match m_continuation J2 with
            | Some k2 => Schedule k2 ;; ret tt
            | None => undefined
            end
        | None => ret tt
        end ;;
        do J3 <- load job;
        match m_parent J3 with
        | Some p => OnJobDone fuel' p
        | None => ret tt
        end ;;
        DeallocateJob job
      else ret tt
  end.

(** [JobSystem::ExecuteJob] *)
Definition ExecuteJob (fuel : nat) (job : ptr) : M unit :=
  invoke fuel job ;;
  modify (with_runningJob None) ;;
  OnJobDone fuel job.

(** ** The worker *)

(** The stealing loop of [Work]:
    [for (unsigned int i = 0; job == nullptr && i < m_threadCount; i++)
       job = m_globalQueues[(i + m_threadIndex) % m_threadCount].Pop();]
    [remaining] counts the iterations left before [i] reaches
    [m_threadCount]. *)
Fixpoint steal (remaining : nat) (i : Z) : M (option ptr) :=
  match remaining with
  | O => ret None
  | S remaining' =>
      do s <- get;
      do job <- Pop (Global (wrap_uint (i + m_threadIndex s) mod m_threadCount s));
      match job with
      | Some _ => ret job
      | None => steal remaining' (wrap_uint (i + 1))
      end
  end.

(** The first three lines of [Work]: the pop of the own local queue and,
    when it gave nothing, the stealing loop. *)
Definition Work_select : M (option ptr) :=
  do s <- get;
  do local <- Pop (Local (m_threadIndex s));
  match local with
  | Some _ => ret local
  | None => steal (Z.to_nat (m_threadCount s)) 0
  end.

(** [JobSystem::Work] *)
Definition Work (fuel : nat) : M bool :=
  do job <- Work_select;
  modify (with_runningJob job) ;;
  match job with
  | Some j => ExecuteJob fuel j ;; ret true
  | None =>
      do s <- get;
      match m_deleteJobList s with
      | Some _ => DeleteOldJobs fuel ;; ret false
      | None => ret true
      end
  end.

(** The body of the loop of [WorkerThread]: [if (Work()) { WaitFor(); }] *)
Definition WorkerThread_body (fuel : nat) : M unit :=
  do worked <- Work fuel;
  if worked then WaitFor else ret tt.

(** [JobSystem::WorkerThread]: [iterations] bounds the iterations of
    [while (!m_stop)]. *)
Fixpoint WorkerThread_loop (fuel : nat) (iterations : nat) : M unit :=
  do s <- get;
  if m_stop s then ret tt
  else
    match iterations with
    | O => out_of_fuel
    | S iterations' =>
        WorkerThread_body fuel ;;
        WorkerThread_loop fuel iterations'
    end.

Definition WorkerThread (fuel : nat) (threadIndex : Z) : M unit :=
  modify (with_threadIndex threadIndex) ;;
  WorkerThread_loop fuel fuel.

(** ** RunJob *)

(** [while (job->m_jobsLeft > 1) { Work(); WaitFor(); }] *)
Fixpoint RunJob_wait (fuel : nat) (iterations : nat) (job : ptr) : M unit :=
  do J <- load job;
  if 1 <? m_jobsLeft J then
    match iterations with
    | O => out_of_fuel
    | S iterations' =>
        Work fuel ;;
        WaitFor ;;
        RunJob_wait fuel iterations' job
    end
  else ret tt.

(** The outer loop of [RunJob]: [while (job) { ... job = cont; }] *)
Fixpoint RunJob_loop (fuel : nat) (chain : nat) (job : ptr) : M unit :=
  match chain with
  | O => out_of_fuel
  | S chain' =>
      modify (with_runningJob (Some job)) ;;
      invoke fuel job ;;
      modify (with_runningJob None) ;;
      do J <- load job;
      let cont := m_continuation J in
      RunJob_wait fuel fuel job ;;
      update job (set_continuation None) ;;
      OnJobDone fuel job ;;
      match cont with
      | Some k => RunJob_loop fuel chain' k
      | None => ret tt
      end
  end.

(** [JobSystem::RunJob] *)
Definition RunJob (fuel : nat) (func : Functor) : M unit :=
  do s <- get;
  ASSERT (is_null (m_runningJob s)) ;;
  do job <- AllocateJob fuel func;
  RunJob_loop fuel fuel job.


(** ** class JobSystem: start-up *)

(** [JobSystem::JoinAsWorker] *)
Definition JoinAsWorker (fuel : nat) : M unit := WorkerThread fuel 0.

(** What [Init] leaves: the threads it started, by the index each passes to
    [WorkerThread], and the state; or the [std::length_error] that
    [m_workers.resize] throws when it is handed a negative [int]; or the end
    it takes when storage runs out: [std::bad_alloc] from a vector that
    cannot get its storage, or [std::terminate] when the deque of a new
    queue cannot get its own inside the [noexcept] constructor of
    [JobQueue].  The state left then depends on which allocation failed and
    is not described. *)
Inductive InitResult : Type :=
| Started (workers : list Z) (s : State)
| LengthError (s : State)
| OutOfMemory.

(** A [std::vector<JobQueue>] holding [qs], with room for [capacity]
    elements, after [reserve(n)] and [n] calls of [emplace_back()].  A vector
    that outgrows its capacity moves to new storage and copy-constructs its
    elements there, and the copy constructor of [JobQueue] copies nothing:
    every queue the vector held is then empty.  With [reserve] allocating
    what it is asked for, the vector outgrows its capacity exactly when
    the final size exceeds the capacity it came with. *)
Definition grow_queues (capacity : Z) (qs : list (list positive)) (n : Z)
  : list (list positive) :=
  let size := Z.of_nat (length qs) in
  (if size + n <=? Z.max capacity size then qs
   else replicate (length qs) []) ++
  replicate (Z.to_nat n) [].

(** [JobSystem::Init], for the value [std::thread::hardware_concurrency()]
    returned, the capacities the two static queue vectors have on entry, and
    [memory], the number of threads for which the allocator can supply the
    queues and the worker slots.  [workerTarget] is an [int] computed from
    an [unsigned int].  With a count of 0 nothing is allocated:
    [reserve(0)] asks for no storage, the loop makes no queue, and
    [m_workers.resize] throws before it allocates. *)
Definition Init (hardware_concurrency : Z)
    (capacity_local capacity_global : Z) (memory : Z) (s : State)
  : InitResult :=
  let threadCount := wrap_uint hardware_concurrency in
  if (0 <? threadCount) && (memory <? threadCount) then OutOfMemory else
  let s1 := with_threadIndex 0 s in
  let s2 :=
    mkState (heap s1) (g_allocator s1)
      (grow_queues capacity_local (m_localQueues s1) threadCount)
      (grow_queues capacity_global (m_globalQueues s1) threadCount)
      threadCount (m_stop s1) (m_runningJob s1) (m_threadIndex s1)
      (m_freeJobList s1) (m_freeJobListCount s1) (m_deleteJobList s1)
      (m_deleteJobListCount s1) (trace s1) in
  let workerTarget := wrap_int (wrap_uint (threadCount - 1)) in
  if workerTarget <? 0 then LengthError s2
  else Started (map (fun i => wrap_uint (wrap_int (wrap_uint (i + 1))))
                    (seqZ 0 workerTarget)) s2.

(** ** class Audio

    [Audio::Play] talks to OpenAL only.  What it does is the list of calls it
    makes, given the state [alGetSourcei] reports for each source. *)

Inductive ALCall : Type :=
| AlGetSourceState (source : Z)           (* alGetSourcei(source, AL_SOURCE_STATE, &state) *)
| AlSourceBuffer (source : Z) (buffer : Z) (* alSourcei(source, AL_BUFFER, buffer) *)
| AlSourcePlay (source : Z)               (* alSourcePlay(source) *)
| LogNoSource.                            (* LOG("No source available!") *)

Section Audio.

(** Modelled from the spec: the value of [AL_PLAYING] comes from the
    OpenAL headers, which are not among the sources; it is a parameter. *)
Variable AL_PLAYING : Z.

(** The state [alGetSourcei] writes for each source. *)
Variable source_state : Z -> Z.

(** [Audio::Play]: the loop over [m_sources], then the log line. *)
Fixpoint Audio_Play (m_sources : list Z) (clip_buffer : Z) : list ALCall :=
  match m_sources with
  | [] => [LogNoSource]
  | source :: rest =>
      AlGetSourceState source ::
      if source_state source =? AL_PLAYING then Audio_Play rest clip_buffer
      else [AlSourceBuffer source clip_buffer; AlSourcePlay source]
  end.

End Audio.
(** * Auxiliary definitions for the statements *)

(** The queue [q] exists and holds [d]. *)
Definition queue_is (q : QueueId) (d : list positive) (s : State) : Prop :=
  0 <= queue_index q /\ queues q s !! Z.to_nat (queue_index q) = Some d.

(** The state after [Push q j] on a queue that holds [d]. *)
Definition pushed (q : QueueId) (d : list positive) (j : ptr) (s : State)
  : State :=
  with_trace (trace s ++ [EvPush q j])
    (with_queues q (<[Z.to_nat (queue_index q) := d ++ [j]]> (queues q s)) s).

(** ** States used by the examples *)

Definition job0 : Job := mkJob None None true 1 96 (Some (Fn 24 [])).

Definition two_jobs_running : State :=
  mkState {[1%positive := job0; 2%positive := job0]}
          [] [[]] [[]] 1 false (Some 1%positive) 0 None 0 None 0 [].


(** ** The intrusive lists

    [chain h head l]: starting at [head] and following [m_parent], the records
    [l] are linked in this order up to a null link, and each of them is in the
    state [Job::Reset] leaves (no continuation, counter 1, no functor).  This
    is the shape of the free list and of the delete list, on which [m_parent]
    is the link. *)
Fixpoint chain (h : gmap positive Job) (head : option ptr) (l : list positive)
  : Prop :=
  match l with
  | [] => head = None
  | j :: l' =>
      head = Some j /\
      exists J, h !! j = Some J /\
                m_continuation J = None /\ m_jobsLeft J = 1 /\
                m_functorActive J = false /\
                chain h (m_parent J) l'
  end.

(** Every functor object in memory fits the storage of its record: none
    reaches into another block. *)
Definition functors_fit (h : gmap positive Job) : Prop :=
  forall x X f, h !! x = Some X -> m_functorData X = Some f ->
                sizeof_JobFunctor f <= m_functorSize X.

(** Two records agree on every field of the header. *)
Definition same_header (X' X : Job) : Prop :=
  m_parent X' = m_parent X /\ m_continuation X' = m_continuation X /\
  m_functorActive X' = m_functorActive X /\ m_jobsLeft X' = m_jobsLeft X /\
  m_functorSize X' = m_functorSize X.

(** The job a fresh or reused record holds right after [AllocateJob]. *)
Definition allocated (size : Z) (func : Functor) : Job :=
  mkJob None None true 1 size (Some func).

Definition reset_job : Job := mkJob None None false 1 96 None.

(** One reset record on the free list, two free blocks in the pool. *)
Definition one_free_job : State :=
  mkState {[5%positive := reset_job]} [6%positive; 7%positive]
          [[]] [[]] 1 false None 0 (Some 5%positive) 1 None 0 [].

(** A scheduler with [n] workers, no job yet, and the given free blocks. *)
Definition init_state (n : nat) (blocks : list positive) : State :=
  mkState ∅ blocks (replicate n []) (replicate n []) (Z.of_nat n) false
          None 0 None 0 None 0 [].

(** Job 1 is running; one reset record (5) is on the free list. *)
Definition running_with_free_job : State :=
  mkState {[1%positive := job0; 5%positive := reset_job]}
          [6%positive; 7%positive]
          [[]] [[]] 1 false (Some 1%positive) 0 (Some 5%positive) 1 None 0 [].

(** The parent and continuation pointers of the record at [j]. *)
Definition links (h : gmap positive Job) (j : ptr)
  : option (option ptr * option ptr) :=
  (fun J => (m_parent J, m_continuation J)) <$> h !! j.

(** The state right after [job->m_jobsLeft.fetch_sub(1)] on a record [J]. *)
Definition after_fetch_sub (job : ptr) (J : Job) (s : State) : State :=
  with_trace (trace s ++ [EvFetchSub job (m_jobsLeft J)])
    (with_heap (<[job := set_jobsLeft (wrap_int (m_jobsLeft J - 1)) J]> (heap s)) s).


(** The state [DeallocateJob job] leaves when [job] points to [J]. *)
Definition recycled (job : ptr) (J : Job) (s : State) : State :=
  if 100 <=? m_freeJobListCount s then
    with_trace (trace s ++ [EvRecycle job DeleteList])
      (with_deleteList (Some job) (wrap_size_t (m_deleteJobListCount s + 1))
         (with_heap
            (<[job := set_parent (m_deleteJobList s) (Job_Reset J)]> (heap s)) s))
  else
    with_trace (trace s ++ [EvRecycle job FreeList])
      (with_freeList (Some job) (wrap_size_t (m_freeJobListCount s + 1))
         (with_heap
            (<[job := set_parent (m_freeJobList s) (Job_Reset J)]> (heap s)) s)).

(** The record [j] has been reset and put on a list: its functor is
    destroyed, its counter is 1, it has no continuation, and it is the head
    of the free list or of the delete list. *)
Definition reset_and_recycled (j : ptr) (s : State) : Prop :=
  (exists X, heap s !! j = Some X /\ m_functorActive X = false /\
             m_jobsLeft X = 1 /\ m_continuation X = None) /\
  (m_freeJobList s = Some j \/ m_deleteJobList s = Some j).

(** ** Traces

    [emits P m]: whenever [m] returns, it has appended to the trace, and every
    event it appended satisfies [P]. *)
Definition emits {A : Type} (P : Event -> Prop) (m : M A) : Prop :=
  forall s a s', m s = Ok (a, s') ->
    exists evs, trace s' = trace s ++ evs /\ Forall P evs.

(** What a submission can append. *)
Definition schedule_event (e : Event) : Prop :=
  match e with
  | EvIncrement _ | EvPush _ _ | EvNotifyAll => True
  | _ => False
  end.

(** What a functor body can append: allocations and submissions. *)
Definition client_event (e : Event) : Prop :=
  match e with
  | EvLockAlloc | EvUnlockAlloc | EvPoolAllocate _
  | EvIncrement _ | EvPush _ _ | EvNotifyAll => True
  | _ => False
  end.

(** What the completion protocol can append. *)
Definition completion_event (e : Event) : Prop :=
  match e with
  | EvFetchSub _ _ | EvIncrement _ | EvPush _ _ | EvNotifyAll
  | EvRecycle _ _ => True
  | _ => False
  end.

(** What running one job, functor and completion, can append. *)
Definition execute_event (e : Event) : Prop :=
  match e with
  | EvInvoke _ | EvReturn _ => True
  | _ => client_event e \/ completion_event e
  end.

Definition is_invoke (e : Event) : Prop :=
  match e with EvInvoke _ => True | _ => False end.

Definition is_pool_deallocate (e : Event) : Prop :=
  match e with EvPoolDeallocate _ => True | _ => False end.

(** A pop that found a job. *)
Definition is_successful_pop (e : Event) : Prop :=
  match e with EvPop _ (Some _) => True | _ => False end.

(** ** Job selection *)

(** The global queue the stealing loop looks at in iteration [i]. *)
Definition probe (s : State) (i : Z) : Z :=
  wrap_uint (i + m_threadIndex s) mod m_threadCount s.

(** The order the spec gives for the global queues:
    [(threadIndex + i) mod N] for [i = 0 .. N-1]. *)
Definition round_robin (threadIndex N : Z) : list Z :=
  map (fun i => (threadIndex + i) mod N) (seqZ 0 N).

(** The state after a pop that took the head of queue [q], leaving [d]. *)
Definition popped (q : QueueId) (d : list positive) (j : ptr) (s : State)
  : State :=
  with_trace (trace s ++ [EvPop q (Some j)])
    (with_queues q (<[Z.to_nat (queue_index q) := d]> (queues q s)) s).

(** The state after [n] pops that found queues empty. *)
Definition probed (evs : list Event) (s : State) : State :=
  with_trace (trace s ++ evs) s.

(** The worker's view is well formed: [Init] made one local and one global
    queue per thread, and the thread index is below the thread count, which
    fits the arithmetic of [unsigned int] with room for the index sum. *)
Definition worker_ok (s : State) : Prop :=
  0 <= m_threadIndex s < m_threadCount s /\
  m_threadCount s <= 2 ^ 31 /\
  length (m_localQueues s) = Z.to_nat (m_threadCount s) /\
  length (m_globalQueues s) = Z.to_nat (m_threadCount s).

(** Three workers seen from worker 1: its local queue and its own global
    queue are empty, job 7 waits in global queue 0 and job 8 in global
    queue 2. *)
Definition three_workers : State :=
  mkState {[7%positive := job0; 8%positive := job0]} []
          [[]; []; []] [[7%positive]; []; [8%positive]]
          3 false None 1 None 0 None 0 [].

Definition is_pop (e : Event) : Prop :=
  match e with EvPop _ _ => True | _ => False end.

(** What [DeleteOldJobs] can append. *)
Definition drain_event (e : Event) : Prop :=
  match e with
  | EvLockAlloc | EvUnlockAlloc | EvPoolDeallocate _ => True
  | _ => False
  end.

(** Everything but queues and trace is the same in both states. *)
Definition same_but_queues (s s' : State) : Prop :=
  heap s' = heap s /\ g_allocator s' = g_allocator s /\
  m_threadCount s' = m_threadCount s /\ m_stop s' = m_stop s /\
  m_runningJob s' = m_runningJob s /\ m_threadIndex s' = m_threadIndex s /\
  m_freeJobList s' = m_freeJobList s /\
  m_freeJobListCount s' = m_freeJobListCount s /\
  m_deleteJobList s' = m_deleteJobList s /\
  m_deleteJobListCount s' = m_deleteJobListCount s.

(** One worker, nothing queued, nothing to delete. *)
Definition idle : State :=
  mkState ∅ [] [[]] [[]] 1 false None 0 None 0 None 0 [].

(** One worker, nothing queued, one reset record on the delete list. *)
Definition housekeeping : State :=
  mkState {[5%positive := reset_job]} [] [[]] [[]] 1 false None 0
          None 100 (Some 5%positive) 1 [].

(** One worker with job 1 in its local queue. *)
Definition one_job_queued : State :=
  mkState {[1%positive := job0]} [] [[1%positive]] [[]] 1 false None 0
          None 0 None 0 [].




(** A functor that does nothing, and one that sets it as continuation. *)
Definition fnB : Functor := Fn 24 [].
Definition fnA : Functor := Fn 24 [CallContinuation fnB].

(** One worker with job 1, whose functor is [fnA], in its local queue. *)
Definition job_with_continuation_queued : State :=
  mkState {[1%positive := mkJob None None true 1 96 (Some fnA)]}
          [2%positive; 3%positive] [[1%positive]] [[]]
          1 false None 0 None 0 None 0 [].


(** The body of the worker loop, started in [s], waits on the condition
    variable. *)
Definition waits (fuel : nat) (s : State) : Prop :=
  exists s2, WorkerThread_body fuel s = Ok (tt, s2) /\
             EvWaitFor 1000 ∈ drop (length (trace s)) (trace s2).

Definition obtains_job (s : State) : Prop :=
  exists j s1, Work_select s = Ok (Some j, s1).

(** The wait rule in the spec's words: the loop waits exactly when [Work]
    executed a job or did housekeeping, not when it was idle. *)
Definition spec_wait_rule (fuel : nat) (s : State) : Prop :=
  waits fuel s <-> (obtains_job s \/ m_deleteJobList s <> None).

(** * Auxiliary definitions for further properties *)

(** Pushing a list of jobs, one [Push] each, and popping [n] times. *)
Fixpoint push_all (q : QueueId) (l : list positive) : M unit :=
  match l with
  | [] => ret tt
  | j :: l' => Push q j ;; push_all q l'
  end.

Fixpoint pop_n (q : QueueId) (n : nat) : M (list (option ptr)) :=
  match n with
  | O => ret []
  | S n' => do r <- Pop q; do rs <- pop_n q n'; ret (r :: rs)
  end.

(** [keeps R m]: whenever [m] returns, the state before and the state after
    are related by [R]. *)
Definition keeps {A : Type} (R : State -> State -> Prop) (m : M A) : Prop :=
  forall s a s', m s = Ok (a, s') -> R s s'.

(** The worker's frame: thread index, thread count and the number of queues
    stay, and a stop request stays. *)
Definition same_frame (s s' : State) : Prop :=
  m_threadIndex s' = m_threadIndex s /\
  m_threadCount s' = m_threadCount s /\
  length (m_localQueues s') = length (m_localQueues s) /\
  length (m_globalQueues s') = length (m_globalQueues s) /\
  (m_stop s = true -> m_stop s' = true).

Definition same_runningJob (s s' : State) : Prop :=
  m_runningJob s' = m_runningJob s.

(** The free list is well formed and its counter, a [size_t], is its
    length. *)
Definition free_list_is (l : list positive) (s : State) : Prop :=
  chain (heap s) (m_freeJobList s) l /\
  m_freeJobListCount s = Z.of_nat (length l) /\
  m_freeJobListCount s < 2 ^ 64.

(** The first record of [l] whose capacity is at least [n]. *)
Fixpoint first_fit (h : gmap positive Job) (n : Z) (l : list positive)
  : option ptr :=
  match l with
  | [] => None
  | j :: l' =>
      match h !! j with
      | Some J => if m_functorSize J <? n then first_fit h n l' else Some j
      | None => None
      end
  end.

(** [l] without its first occurrence of [j]. *)
Fixpoint remove_first (j : ptr) (l : list positive) : list positive :=
  match l with
  | [] => []
  | x :: l' => if Pos.eqb x j then l' else x :: remove_first j l'
  end.

(** Two queued jobs for worker 1 of three, one in its local queue. *)
Definition affinity_state : State :=
  mkState {[7%positive := job0; 8%positive := job0]} []
          [[]; [8%positive]; []] [[7%positive]; []; []]
          3 false None 0 None 0 None 0 [].

Definition same_queues (s s' : State) : Prop :=
  m_localQueues s' = m_localQueues s /\ m_globalQueues s' = m_globalQueues s.

(** An event that is not a pop of another worker's local queue. *)
Definition own_local_pop (threadIndex : Z) (e : Event) : Prop :=
  match e with
  | EvPop (Local t) _ => t = threadIndex
  | _ => True
  end.

(** The record at [x] is too small for a functor of [n] bytes. *)
Definition too_small (h : gmap positive Job) (n : Z) (x : ptr) : Prop :=
  exists X, h !! x = Some X /\ m_functorSize X < n.

(** The memory after [AllocateJob] has unlinked [j], whose link was [next],
    from behind the record [prev] (none when [j] was the head). *)
Definition unlinked (h : gmap positive Job) (prev : option ptr)
    (next : option ptr) : gmap positive Job :=
  match prev with
  | Some p =>
      match h !! p with
      | Some P => <[p := set_parent next P]> h
      | None => h
      end
  | None => h
  end.

(** Three reset records on the free list: 5 (capacity 32), 6 (capacity 96)
    and 7 (capacity 96), and one free block in the pool. *)
Definition three_free_jobs : State :=
  mkState {[5%positive := mkJob (Some 6%positive) None false 1 32 None;
            6%positive := mkJob (Some 7%positive) None false 1 96 None;
            7%positive := mkJob None None false 1 96 None]}
          [9%positive] [[]] [[]] 1 false None 0 (Some 5%positive) 3 None 0 [].

(** [finishing h j l top]: the record [j] and its ancestors [l], in the
    order of the parent links, each have a counter of 1 and no continuation;
    [top] is the parent of the last of them. *)
Fixpoint finishing (h : gmap positive Job) (j : ptr) (l : list positive)
    (top : option ptr) {struct l} : Prop :=
  exists J, h !! j = Some J /\ m_jobsLeft J = 1 /\ m_continuation J = None /\
    match l with
    | [] => m_parent J = top
    | p :: l' => m_parent J = Some p /\ finishing h p l' top
    end.

(** The record [top], if there is one, is none of [finished] and its
    counter is not 1: it waits for more than this completion. *)
Definition top_waits (h : gmap positive Job) (finished : list positive)
    (top : option ptr) : Prop :=
  match top with
  | None => True
  | Some t => (t ∉ finished) /\ exists T, h !! t = Some T /\ m_jobsLeft T <> 1
  end.

(** The decrement a completion makes on [top]. *)
Definition decrement_of (h : gmap positive Job) (top : option ptr)
  : list Event :=
  match top with
  | Some t =>
      match h !! t with
      | Some T => [EvFetchSub t (m_jobsLeft T)]
      | None => []
      end
  | None => []
  end.

Definition recycles (x : ptr) (e : Event) : Prop :=
  exists c, e = EvRecycle x c.

(** Job 3 is the only child of job 2, which is the only child left of
    job 1; job 1 has two more children outstanding.  All functors have
    returned. *)
Definition three_generations : State :=
  mkState {[1%positive := mkJob None None true 3 96 (Some (Fn 24 []));
            2%positive := mkJob (Some 1%positive) None true 1 96 (Some (Fn 24 []));
            3%positive := mkJob (Some 2%positive) None true 1 96 (Some (Fn 24 []))]}
          [] [[]] [[]] 1 false None 0 None 0 None 0 [].

(** One worker, nothing queued: record 5 is on the delete list and record 6
    on the free list. *)
Definition delete_pending : State :=
  mkState {[5%positive := reset_job; 6%positive := reset_job]} []
          [[]] [[]] 1 false None 0 (Some 6%positive) 1 (Some 5%positive) 1 [].

(** One worker; block 1 of the pool is free, block 2 holds a job that waits
    in the worker's global queue, block 3 is free. *)
Definition two_blocks_one_job : State :=
  mkState {[2%positive := job0]} [1%positive; 3%positive] [[]] [[2%positive]]
          1 false None 0 None 0 None 0 [].
(** * Proofs *)

(** ** Stepping through monadic code *)

Lemma bind_Ok {A B : Type} (m : M A) (k : A -> M B) (s s' : State) (a : A) :
  m s = Ok (a, s') -> bind m k s = k a s'.
Proof. intros H. unfold bind. now rewrite H. Qed.

Lemma bind_inv {A B : Type} (m : M A) (k : A -> M B) (s s2 : State) (b : B) :
  bind m k s = Ok (b, s2) ->
  exists a s1, m s = Ok (a, s1) /\ k a s1 = Ok (b, s2).
Proof.
  unfold bind. destruct (m s) as [[a s1]| | |]; try discriminate.
  intros H. exists a, s1. split; [reflexivity | exact H].
Qed.

Lemma load_Ok (j : ptr) (J : Job) (s : State) :
  heap s !! j = Some J -> load j s = Ok (J, s).
Proof. intros H. unfold load. now rewrite H. Qed.

Lemma load_inv (j : ptr) (J : Job) (s s' : State) :
  load j s = Ok (J, s') -> s' = s /\ heap s !! j = Some J.
Proof.
  unfold load. destruct (heap s !! j) as [J0|]; [|discriminate].
  intros [= -> ->]. split; reflexivity.
Qed.

Lemma update_Ok (j : ptr) (f : Job -> Job) (J : Job) (s : State) :
  heap s !! j = Some J ->
  update j f s = Ok (tt, with_heap (<[j := f J]> (heap s)) s).
Proof. intros H. unfold update. rewrite (bind_Ok _ _ _ _ _ (load_Ok _ _ _ H)). reflexivity. Qed.

Lemma fetch_sub_Ok (j : ptr) (J : Job) (s : State) :
  heap s !! j = Some J ->
  fetch_sub j s = Ok (m_jobsLeft J, after_fetch_sub j J s).
Proof. intros H. unfold fetch_sub. rewrite (bind_Ok _ _ _ _ _ (load_Ok _ _ _ H)). reflexivity. Qed.

Lemma increment_Ok (j : ptr) (J : Job) (s : State) :
  heap s !! j = Some J ->
  increment j s =
    Ok (tt,
        with_trace (trace s ++ [EvIncrement j])
          (with_heap (<[j := set_jobsLeft (wrap_int (m_jobsLeft J + 1)) J]> (heap s)) s)).
Proof. intros H. unfold increment. rewrite (bind_Ok _ _ _ _ _ (load_Ok _ _ _ H)). reflexivity. Qed.

Lemma queue_at_Ok (q : QueueId) (d : list positive) (s : State) :
  queue_is q d s -> queue_at q s = Ok (d, s).
Proof.
  intros [H0 H]. unfold queue_at.
  destruct (Z.leb_spec 0 (queue_index q)) as [_|Hlt]; [|lia].
  now rewrite H.
Qed.

Lemma Push_Ok (q : QueueId) (d : list positive) (j : ptr) (s : State) :
  queue_is q d s -> Push q j s = Ok (tt, pushed q d j s).
Proof.
  intros H. unfold Push. rewrite (bind_Ok _ _ _ _ _ (queue_at_Ok _ _ _ H)).
  destruct q; reflexivity.
Qed.

Lemma bind_assoc {A B C : Type} (m : M A) (f : A -> M B) (g : B -> M C) (s : State) :
  bind (bind m f) g s = bind m (fun x => bind (f x) g) s.
Proof. unfold bind. destruct (m s) as [[a s1]| | |]; reflexivity. Qed.

Lemma bind_ret {A B : Type} (a : A) (k : A -> M B) (s : State) :
  bind (ret a) k s = k a s.
Proof. reflexivity. Qed.

Lemma bind_get {B : Type} (k : State -> M B) (s : State) :
  bind get k s = k s s.
Proof. reflexivity. Qed.

Lemma bind_modify {B : Type} (f : State -> State) (k : unit -> M B) (s : State) :
  bind (modify f) k s = k tt (f s).
Proof. reflexivity. Qed.

Lemma bind_emit {B : Type} (e : Event) (k : unit -> M B) (s : State) :
  bind (emit e) k s = k tt (with_trace (trace s ++ [e]) s).
Proof. reflexivity. Qed.

Ltac proj :=
  cbn [heap g_allocator m_localQueues m_globalQueues m_threadCount m_stop
       m_runningJob m_threadIndex m_freeJobList m_freeJobListCount
       m_deleteJobList m_deleteJobListCount trace
       with_heap with_pool with_localQueues with_globalQueues with_stop
       with_runningJob with_threadIndex with_freeList with_deleteList
       with_trace with_queues queues queue_index pushed
       m_parent m_continuation m_functorActive m_jobsLeft m_functorSize
       m_functorData set_parent set_continuation set_jobsLeft fst snd] in *.

Ltac mnorm :=
  repeat first
    [ rewrite bind_assoc | rewrite bind_ret | rewrite bind_get
    | rewrite bind_modify | rewrite bind_emit ];
  proj.

Ltac mstep lem := erewrite bind_Ok; [ | apply lem; proj; eauto ]; mnorm.

Ltac mnorm_in H := revert H; mnorm; intros H.

Lemma bind_cong {A B : Type} (m : M A) (k k' : A -> M B) (s : State) :
  (forall a s', m s = Ok (a, s') -> k a s' = k' a s') ->
  bind m k s = bind m k' s.
Proof.
  intros H. unfold bind. destruct (m s) as [[a s']| | |]; auto.
Qed.

Lemma queue_at_inv (q : QueueId) (d : list positive) (s s' : State) :
  queue_at q s = Ok (d, s') -> s' = s /\ queue_is q d s.
Proof.
  unfold queue_at, queue_is.
  destruct (Z.leb_spec 0 (queue_index q)); [|discriminate].
  destruct (queues q s !! Z.to_nat (queue_index q)); [|discriminate].
  intros [= <- <-]. auto.
Qed.

Ltac heap_lookup :=
  proj;
  repeat first
    [ rewrite lookup_insert_eq | rewrite lookup_insert_ne by congruence ];
  try reflexivity; eauto.

Ltac mstep' lem := erewrite bind_Ok; [ | apply lem; heap_lookup ]; mnorm.

(** ** Queues *)

Lemma queue_is_pushed (q : QueueId) (d : list positive) (j : ptr) (s : State) :
  queue_is q d s -> queue_is q (d ++ [j]) (pushed q d j s).
Proof.
  intros [H0 Hd]. split; [exact H0|].
  destruct q; proj; apply list_lookup_insert_eq; eapply lookup_lt_Some, Hd.
Qed.

Lemma queue_is_popped (q : QueueId) (d : list positive) (j : ptr) (s : State) :
  queue_is q (j :: d) s -> queue_is q d (popped q d j s).
Proof.
  intros [H0 Hd]. split; [exact H0|]. unfold popped.
  destruct q; proj; apply list_lookup_insert_eq; eapply lookup_lt_Some, Hd.
Qed.

Lemma queue_is_same_queues (q : QueueId) (d : list positive) (s s' : State) :
  same_queues s s' -> queue_is q d s -> queue_is q d s'.
Proof.
  intros [Hl Hg] [H0 Hd]. split; [exact H0|].
  destruct q; cbn [queues] in *; congruence.
Qed.

Lemma wrap_int_small (x : Z) : - 2 ^ 31 <= x < 2 ^ 31 -> wrap_int x = x.
Proof.
  intros H. unfold wrap_int. rewrite Z.mod_small; lia.
Qed.

(** ** Schedule *)

(** [Schedule] of a job without parent while a job is running. *)
Lemma Schedule_under_running_job
    (job running : ptr) (J A : Job) (d : list positive) (s : State) :
  m_runningJob s = Some running ->
  heap s !! job = Some J ->
  m_parent J = None ->
  heap s !! running = Some A ->
  queue_is (Global (m_threadIndex s)) d s ->
  exists s',
    Schedule job s = Ok (job, s') /\
    (exists J', heap s' !! job = Some J' /\ m_parent J' = Some running) /\
    (exists A', heap s' !! running = Some A' /\
                m_jobsLeft A' = wrap_int (m_jobsLeft A + 1)) /\
    queue_is (Global (m_threadIndex s)) (d ++ [job]) s' /\
    trace s' = trace s ++
      [EvIncrement running; EvPush (Global (m_threadIndex s)) job; EvNotifyAll].
Proof.
  intros Hrun HJ Hpar HA Hq.
  unfold Schedule, ScheduleRaw. mnorm. rewrite Hrun. mnorm.
  mstep load_Ok. rewrite Hpar. cbn [is_null negb andb]. mnorm.
  mstep increment_Ok.
  set (A1 := set_jobsLeft (wrap_int (m_jobsLeft A + 1)) A).
  assert (HJ1 : exists J1, <[running := A1]> (heap s) !! job = Some J1)
    by (rewrite lookup_insert; case_decide; eauto).
  destruct HJ1 as [J1 HJ1].
  mstep update_Ok.
  mstep Push_Ok.
  eexists; split; [reflexivity|]. proj.
  split; [|split; [|split]].
  - rewrite lookup_insert_eq. eauto.
  - rewrite lookup_insert. case_decide as Heq.
    + subst job. rewrite lookup_insert_eq in HJ1. injection HJ1 as <-.
      eexists; split; [reflexivity|]. reflexivity.
    + rewrite lookup_insert_eq. eexists; split; [reflexivity|]. reflexivity.
  - destruct Hq as [H0 Hd]. split; [exact H0|]. proj.
    apply list_lookup_insert_eq. eapply lookup_lt_Some, Hd.
  - now rewrite <- !app_assoc.
Qed.

(** ** Records and blocks *)

Lemma overrun_fits (j : ptr) (capacity size : Z) :
  size <= capacity -> overrun j capacity size = [].
Proof.
  intros H. unfold overrun.
  assert (Hk : (size - capacity + (blockSize - 1)) / blockSize <= 0).
  { unfold blockSize. apply Z.lt_succ_r. apply Z.div_lt_upper_bound; lia. }
  unfold seqZ. replace (Z.to_nat _) with O by lia. reflexivity.
Qed.

Lemma overrun_above (j b : ptr) (capacity size : Z) :
  b ∈ overrun j capacity size -> (j < b)%positive.
Proof.
  unfold overrun. intros H. apply list_elem_of_fmap in H as (i & -> & _). lia.
Qed.

Lemma lookup_drop_blocks (bs : list positive) (h : gmap positive Job) (x : ptr) :
  drop_blocks bs h !! x = if bool_decide (x ∈ bs) then None else h !! x.
Proof.
  induction bs as [|b bs IH]; cbn [drop_blocks foldr].
  - rewrite bool_decide_eq_false_2; [reflexivity | apply not_elem_of_nil].
  - fold (drop_blocks bs h). destruct (decide (b = x)) as [->|Hne].
    + rewrite lookup_delete_eq, bool_decide_eq_true_2; [reflexivity | left].
    + rewrite lookup_delete_ne by exact Hne. rewrite IH.
      destruct (decide (x ∈ bs)) as [Hin|Hnin].
      * rewrite !bool_decide_eq_true_2; [reflexivity | now right | exact Hin].
      * rewrite !bool_decide_eq_false_2; [reflexivity | | exact Hnin].
        intros Hin. apply elem_of_cons in Hin as [->|Hin]; contradiction.
Qed.

Lemma drop_blocks_nil (h : gmap positive Job) : drop_blocks [] h = h.
Proof. reflexivity. Qed.

Lemma lookup_overwrite_block (b x : ptr) (h : gmap positive Job) :
  overwrite_block b h !! x =
    (fun X => if reaches x X b then set_functorData None X else X) <$> h !! x.
Proof.
  unfold overwrite_block. rewrite map_lookup_imap.
  now destruct (h !! x).
Qed.

Lemma reaches_fits (x b : ptr) (X : Job) :
  (forall f, m_functorData X = Some f -> sizeof_JobFunctor f <= m_functorSize X) ->
  reaches x X b = false.
Proof.
  intros H. unfold reaches. destruct (m_functorData X) as [f|]; [|reflexivity].
  rewrite overrun_fits by (now apply H). apply andb_false_r.
Qed.

Lemma overwrite_block_fit (b : ptr) (h : gmap positive Job) :
  functors_fit h -> overwrite_block b h = h.
Proof.
  intros Hfit. apply map_eq. intros x. rewrite lookup_overwrite_block.
  destruct (h !! x) as [X|] eqn:HX; [|reflexivity]. cbn.
  rewrite reaches_fits; [reflexivity|]. intros f. now apply (Hfit x).
Qed.

(** Constructing a [Job] in a block changes no header. *)
Lemma overwrite_block_header (b x : ptr) (h : gmap positive Job) (X : Job) :
  h !! x = Some X ->
  exists X', overwrite_block b h !! x = Some X' /\
             m_parent X' = m_parent X /\
             m_continuation X' = m_continuation X /\
             m_functorActive X' = m_functorActive X /\
             m_jobsLeft X' = m_jobsLeft X /\
             m_functorSize X' = m_functorSize X.
Proof.
  intros HX. rewrite lookup_overwrite_block, HX. cbn.
  eexists. split; [reflexivity|]. now destruct (reaches x X b).
Qed.

Lemma SetFunctor_Ok (j : ptr) (f : Functor) (J : Job) (s : State) :
  heap s !! j = Some J ->
  SetFunctor j f s =
    Ok (tt, with_heap
              (<[j := Job_SetFunctor f J]>
                 (drop_blocks (overrun j (m_functorSize J) (sizeof_JobFunctor f))
                              (heap s))) s).
Proof.
  intros H. unfold SetFunctor.
  rewrite (bind_Ok _ _ _ _ _ (load_Ok _ _ _ H)). reflexivity.
Qed.

(** A functor that fits is constructed within its record. *)
Lemma SetFunctor_fits (j : ptr) (f : Functor) (J : Job) (s : State) :
  heap s !! j = Some J ->
  sizeof_JobFunctor f <= m_functorSize J ->
  SetFunctor j f s = Ok (tt, with_heap (<[j := Job_SetFunctor f J]> (heap s)) s).
Proof.
  intros H Hfit. rewrite (SetFunctor_Ok _ _ _ _ H).
  now rewrite overrun_fits by exact Hfit.
Qed.

(** ** AllocateJob *)

Lemma chain_lookup (h : gmap positive Job) (l : list positive) (head : option ptr) (j : ptr) :
  chain h head l -> j ∈ l ->
  exists J, h !! j = Some J /\ m_continuation J = None /\ m_jobsLeft J = 1 /\
            m_functorActive J = false.
Proof.
  revert head. induction l as [|x l IH]; intros head Hc Hin.
  - inversion Hin.
  - destruct Hc as (-> & J & HJ & Hk & Hn & Ha & Hrest).
    apply elem_of_cons in Hin as [->|Hin].
    + exists J. auto.
    + eapply IH; eauto.
Qed.

(** The search loop reads only: it returns a record of the list that is big
    enough, or null, and as [prevJob] null or a record of the list. *)
Lemma find_fit_spec (fuel : nat) (n : Z) (s : State) (l : list positive) :
  forall (head prev : option ptr) (p jo : option ptr) (s' : State),
  chain (heap s) head l ->
  find_fit fuel n prev head s = Ok ((p, jo), s') ->
  s' = s /\
  (p = prev \/ exists x, p = Some x /\ x ∈ l) /\
  match jo with
  | Some j => j ∈ l
  | None => True
  end.
Proof.
  revert l. induction fuel as [|fuel IH]; intros l head prev p jo s' Hc Hf.
  - destruct l as [|x l]; simpl in Hc.
    + subst head. injection Hf as <- <- <-. auto.
    + destruct Hc as (-> & J & HJ & _). simpl in Hf.
      rewrite (bind_Ok _ _ _ _ _ (load_Ok _ _ _ HJ)) in Hf.
      destruct (m_functorSize J <? n); [discriminate|].
      injection Hf as <- <- <-. split; [reflexivity|]. split; [auto|]. left.
  - destruct l as [|x l]; simpl in Hc.
    + subst head. injection Hf as <- <- <-. auto.
    + destruct Hc as (-> & J & HJ & _ & _ & _ & Hrest). simpl in Hf.
      rewrite (bind_Ok _ _ _ _ _ (load_Ok _ _ _ HJ)) in Hf.
      destruct (m_functorSize J <? n).
      * destruct (IH l _ _ _ _ _ Hrest Hf) as (-> & Hp & Hj).
        split; [reflexivity|]. split.
        -- right. destruct Hp as [->|(y & -> & Hy)].
           ++ exists x. split; [reflexivity | left].
           ++ exists y. split; [reflexivity | now right].
        -- destruct jo; [now right | exact I].
      * injection Hf as <- <- <-. split; [reflexivity|]. split; [auto|]. left.
Qed.

(** With fuel for every record of the list the search loop ends. *)
Lemma find_fit_total (n : Z) (s : State) (l : list positive) :
  forall (fuel : nat) (head prev : option ptr),
  chain (heap s) head l ->
  (length l <= fuel)%nat ->
  exists r, find_fit fuel n prev head s = Ok (r, s).
Proof.
  induction l as [|x l IH]; intros fuel head prev Hc Hlen; simpl in Hc.
  - subst head. destruct fuel; eexists; reflexivity.
  - destruct Hc as (-> & J & HJ & _ & _ & _ & Hrest).
    destruct fuel as [|fuel]; [simpl in Hlen; lia|].
    simpl. rewrite (bind_Ok _ _ _ _ _ (load_Ok _ _ _ HJ)).
    destruct (m_functorSize J <? n).
    + apply IH; [exact Hrest | simpl in Hlen; lia].
    + eexists; reflexivity.
Qed.

Lemma Pool_Allocate_cons (b : positive) (rest : list positive) (s : State) :
  g_allocator s = b :: rest ->
  Pool_Allocate s =
    Ok (Some b, with_trace (trace s ++ [EvPoolAllocate (Some b)]) (with_pool rest s)).
Proof. intros H. unfold Pool_Allocate. mnorm. rewrite H. mnorm. reflexivity. Qed.

Lemma Pool_Allocate_nil (s : State) :
  g_allocator s = [] ->
  Pool_Allocate s =
    Ok (None, with_trace (trace s ++ [EvPoolAllocate None]) s).
Proof. intros H. unfold Pool_Allocate. mnorm. rewrite H. mnorm. reflexivity. Qed.

(** The record the search loop stops at is big enough. *)
Lemma find_fit_fits (fuel : nat) (n : Z) (s : State) (l : list positive) :
  forall (head prev : option ptr) (p : option ptr) (j : ptr) (s' : State),
  chain (heap s) head l ->
  find_fit fuel n prev head s = Ok ((p, Some j), s') ->
  exists J, heap s !! j = Some J /\ n <= m_functorSize J.
Proof.
  revert l. induction fuel as [|fuel IH]; intros l head prev p j s' Hc Hf.
  - destruct l as [|x l]; simpl in Hc.
    + subst head. discriminate Hf.
    + destruct Hc as (-> & J & HJ & _). simpl in Hf.
      rewrite (bind_Ok _ _ _ _ _ (load_Ok _ _ _ HJ)) in Hf.
      destruct (Z.ltb_spec (m_functorSize J) n); [discriminate|].
      injection Hf as _ <- _. eauto.
  - destruct l as [|x l]; simpl in Hc.
    + subst head. discriminate Hf.
    + destruct Hc as (-> & J & HJ & _ & _ & _ & Hrest). simpl in Hf.
      rewrite (bind_Ok _ _ _ _ _ (load_Ok _ _ _ HJ)) in Hf.
      destruct (Z.ltb_spec (m_functorSize J) n).
      * eapply IH; eauto.
      * injection Hf as _ <- _. eauto.
Qed.

(** The two paths of [AllocateJob], as a relation between the state before
    and the job and state after.  Other records keep their place when the
    functor fits a block and no functor already in memory reaches out of
    its record. *)
Lemma AllocateJob_inv (fuel : nat) (func : Functor) (s s' : State) (job : ptr)
    (l : list positive) :
  chain (heap s) (m_freeJobList s) l ->
  AllocateJob fuel func s = Ok (job, s') ->
  (exists size, heap s' !! job = Some (allocated size func)) /\
  (job ∈ l \/ exists rest, g_allocator s = job :: rest) /\
  (sizeof_JobFunctor func <= blockSize - sizeof_Job ->
   forall x X, x <> job -> x ∉ l -> heap s !! x = Some X ->
     exists X', heap s' !! x = Some X' /\ same_header X' X /\
                (functors_fit (heap s) -> X' = X)) /\
  (trace s' = trace s \/
   trace s' = trace s ++ [EvLockAlloc; EvPoolAllocate (Some job); EvUnlockAlloc]) /\
  m_runningJob s' = m_runningJob s /\
  m_threadIndex s' = m_threadIndex s /\
  m_localQueues s' = m_localQueues s /\
  m_globalQueues s' = m_globalQueues s /\
  m_threadCount s' = m_threadCount s /\
  m_stop s' = m_stop s.
Proof.
  intros Hc. unfold AllocateJob. mnorm.
  destruct (find_fit fuel (Z.max (sizeof_JobFunctor func) 24) None
              (m_freeJobList s) s) as [[[p jo] s1]| | |] eqn:Hf;
    try (unfold bind; rewrite Hf; discriminate).
  rewrite (bind_Ok _ _ _ _ _ Hf).
  destruct (find_fit_spec _ _ _ _ _ _ _ _ _ Hc Hf) as (-> & Hp & Hj).
  destruct jo as [j|].
  - (* a record of the free list is reused *)
    destruct (chain_lookup _ _ _ _ Hc Hj) as (J & HJ & Hk & Hn & Ha).
    destruct (find_fit_fits _ _ _ _ _ _ _ _ _ Hc Hf) as (J' & HJ' & Hsize).
    assert (J' = J) as -> by congruence.
    assert (Hfits : sizeof_JobFunctor func <= m_functorSize J) by lia.
    mnorm. mstep load_Ok.
    destruct Hp as [->|(x & -> & Hx)].
    + mnorm.
      mstep update_Ok.
      erewrite bind_Ok; [|apply SetFunctor_fits; [apply lookup_insert_eq | exact Hfits]].
      intros [= <- <-]. proj. rewrite lookup_insert_eq.
      split; [|split; [|split; [|split]]].
      * exists (m_functorSize J). unfold allocated, Job_SetFunctor. proj.
        now rewrite Hk, Hn.
      * now left.
      * intros _ x X Hne _ HX. exists X.
        rewrite !lookup_insert_ne by congruence.
        split; [exact HX|]. split; [repeat split | reflexivity].
      * now left.
      * repeat split; reflexivity.
    + destruct (chain_lookup _ _ _ _ Hc Hx) as (X & HX & HXk & HXn & _).
      mstep update_Ok.
      assert (HJ1 : exists J1,
                 <[x := set_parent (m_parent J) X]> (heap s) !! j = Some J1 /\
                 m_continuation J1 = None /\ m_jobsLeft J1 = 1 /\
                 m_functorSize J1 = m_functorSize J).
      { rewrite lookup_insert. case_decide as Heq.
        - subst x. rewrite HJ in HX. injection HX as <-.
          eexists; split; [reflexivity|]. proj. auto.
        - exists J. auto. }
      destruct HJ1 as (J1 & HJ1 & Hk1 & Hn1 & Hs1).
      mstep update_Ok.
      erewrite bind_Ok;
        [|apply SetFunctor_fits; [apply lookup_insert_eq | proj; lia]].
      intros [= <- <-]. proj. rewrite lookup_insert_eq.
      split; [|split; [|split; [|split]]].
      * exists (m_functorSize J1). unfold allocated, Job_SetFunctor. proj.
        now rewrite Hk1, Hn1.
      * now left.
      * intros _ y Y Hne Hnl HY. exists Y.
        rewrite !lookup_insert_ne by congruence.
        split; [exact HY|]. split; [repeat split | reflexivity].
      * now left.
      * repeat split; reflexivity.
  - (* a block of the pool is taken *)
    mnorm. destruct (g_allocator s) as [|b rest] eqn:Hpool.
    + erewrite bind_Ok; [|apply Pool_Allocate_nil; proj; exact Hpool].
      mnorm. unfold bind, ASSERT. simpl. discriminate.
    + erewrite bind_Ok; [|apply Pool_Allocate_cons; proj; exact Hpool].
      mnorm. unfold ASSERT at 1. unfold bind at 1. simpl bool_decide.
      cbv iota beta. unfold store. mnorm.
      erewrite bind_Ok; [|apply SetFunctor_Ok; proj; apply lookup_insert_eq].
      mnorm.
      intros [= <- <-]. proj. rewrite lookup_insert_eq.
      split; [|split; [|split; [|split]]].
      * eexists. reflexivity.
      * right. eauto.
      * intros Hfit x X Hne _ HX.
        unfold Job_new, Job_Reset. proj.
        rewrite overrun_fits by exact Hfit. rewrite drop_blocks_nil.
        rewrite !lookup_insert_ne by congruence.
        destruct (overwrite_block_header b x (heap s) X HX)
          as (X' & HX' & H1 & H2 & H3 & H4 & H5).
        exists X'. split; [exact HX'|]. split; [repeat split; assumption|].
        intros Hall. rewrite overwrite_block_fit in HX' by exact Hall. congruence.
      * right. now rewrite <- !app_assoc.
      * repeat split; reflexivity.
Qed.

Lemma AllocateJob_total (fuel : nat) (func : Functor) (s : State)
    (l : list positive) :
  chain (heap s) (m_freeJobList s) l ->
  (length l <= fuel)%nat ->
  g_allocator s <> [] ->
  exists job s', AllocateJob fuel func s = Ok (job, s').
Proof.
  intros Hc Hlen Hpool. unfold AllocateJob. mnorm.
  destruct (find_fit_total (Z.max (sizeof_JobFunctor func) 24) s l fuel
              (m_freeJobList s) None Hc Hlen) as [[p jo] Hf].
  rewrite (bind_Ok _ _ _ _ _ Hf).
  destruct (find_fit_spec _ _ _ _ _ _ _ _ _ Hc Hf) as (_ & Hp & Hj).
  destruct jo as [j|].
  - destruct (chain_lookup _ _ _ _ Hc Hj) as (J & HJ & _).
    mnorm. mstep load_Ok.
    destruct Hp as [->|(x & -> & Hx)].
    + mnorm. mstep update_Ok.
      erewrite bind_Ok; [|apply SetFunctor_Ok; proj; apply lookup_insert_eq].
      eauto.
    + destruct (chain_lookup _ _ _ _ Hc Hx) as (X & HX & _).
      mstep update_Ok.
      assert (HJ1 : exists J1,
                 <[x := set_parent (m_parent J) X]> (heap s) !! j = Some J1)
        by (rewrite lookup_insert; case_decide; eauto).
      destruct HJ1 as (J1 & HJ1).
      mstep update_Ok.
      erewrite bind_Ok; [|apply SetFunctor_Ok; proj; apply lookup_insert_eq].
      eauto.
  - mnorm. destruct (g_allocator s) as [|b rest] eqn:Hb; [congruence|].
    erewrite bind_Ok; [|apply Pool_Allocate_cons; proj; exact Hb].
    mnorm. unfold ASSERT at 1. unfold bind at 1. simpl bool_decide.
    cbv iota beta. unfold store. mnorm.
    erewrite bind_Ok; [|apply SetFunctor_Ok; proj; apply lookup_insert_eq].
    eauto.
Qed.

(** C10: the job [AllocateJob] returns, reused from the free list or built
    in a fresh block of the pool, has no parent, no continuation, counter 1
    and the supplied functor active in its storage; and with fuel for the
    free list and a free block in the pool [AllocateJob] does return. *)
Theorem AllocateJob_returns_clean_job (fuel : nat) (func : Functor)
    (s : State) (l : list positive) :
  chain (heap s) (m_freeJobList s) l ->
  (forall job s',
      AllocateJob fuel func s = Ok (job, s') ->
      (job ∈ l \/ exists rest, g_allocator s = job :: rest) /\
      exists size,
        heap s' !! job =
          Some {| m_parent := None; m_continuation := None;
                  m_functorActive := true; m_jobsLeft := 1;
                  m_functorSize := size; m_functorData := Some func |}) /\
  ((length l <= fuel)%nat -> g_allocator s <> [] ->
   exists job s', AllocateJob fuel func s = Ok (job, s')).
Proof.
  intros Hc. split.
  - intros job s' H.
    destruct (AllocateJob_inv _ _ _ _ _ _ Hc H) as (Hclean & Hfrom & _).
    split; [exact Hfrom | exact Hclean].
  - intros Hlen Hpool. eapply AllocateJob_total; eauto.
Qed.

Lemma AllocateJob_returns_clean_job_witness :
  exists job s',
    AllocateJob 1 (Fn 24 []) one_free_job = Ok (job, s') /\
    exists size, heap s' !! job = Some (allocated size (Fn 24 [])).
Proof.
  assert (Hc : chain (heap one_free_job) (m_freeJobList one_free_job) [5%positive]).
  { simpl. split; [reflexivity|]. exists reset_job. repeat split; reflexivity. }
  destruct (AllocateJob_returns_clean_job 1 (Fn 24 []) one_free_job _ Hc)
    as [Hclean Htotal].
  destruct Htotal as (job & s' & Hrun); [simpl; lia | discriminate |].
  exists job, s'. split; [exact Hrun|].
  exact (proj2 (Hclean job s' Hrun)).
Defined.

(** ** What the operations append to the trace *)

Lemma emits_weaken {A : Type} (P Q : Event -> Prop) (m : M A) :
  (forall e, P e -> Q e) -> emits P m -> emits Q m.
Proof.
  intros HPQ Hm s a s' H. destruct (Hm s a s' H) as (evs & Ht & Hall).
  exists evs. split; [exact Ht|]. eapply Forall_impl; eauto.
Qed.

Lemma emits_ret {A : Type} (P : Event -> Prop) (a : A) : emits P (ret a).
Proof.
  intros s a' s' [= <- <-]. exists []. split; [now rewrite app_nil_r | constructor].
Qed.

Lemma emits_bind {A B : Type} (P : Event -> Prop) (m : M A) (k : A -> M B) :
  emits P m -> (forall a, emits P (k a)) -> emits P (bind m k).
Proof.
  intros Hm Hk s b s2 H. apply bind_inv in H as (a & s1 & H1 & H2).
  destruct (Hm _ _ _ H1) as (e1 & Ht1 & Ha1).
  destruct (Hk a _ _ _ H2) as (e2 & Ht2 & Ha2).
  exists (e1 ++ e2). split.
  - now rewrite Ht2, Ht1, app_assoc.
  - now apply Forall_app.
Qed.

Lemma emits_same_trace {A : Type} (P : Event -> Prop) (m : M A) :
  (forall s a s', m s = Ok (a, s') -> trace s' = trace s) -> emits P m.
Proof.
  intros Hm s a s' H. exists []. split; [|constructor].
  rewrite app_nil_r. eauto.
Qed.

Lemma emits_emit (P : Event -> Prop) (e : Event) : P e -> emits P (emit e).
Proof.
  intros He s a s' [= <- <-]. exists [e]. split; [reflexivity|].
  now constructor.
Qed.

Lemma emits_get (P : Event -> Prop) : emits P get.
Proof. apply emits_same_trace. now intros s a s' [= <- <-]. Qed.

Lemma emits_undefined {A : Type} (P : Event -> Prop) : emits P (@undefined A).
Proof. intros s a s' H. discriminate H. Qed.

Lemma emits_out_of_fuel {A : Type} (P : Event -> Prop) : emits P (@out_of_fuel A).
Proof. intros s a s' H. discriminate H. Qed.

Lemma emits_ASSERT (P : Event -> Prop) (b : bool) : emits P (ASSERT b).
Proof.
  apply emits_same_trace. unfold ASSERT. intros s a s'.
  destruct b; [|discriminate]. now intros [= <- <-].
Qed.

Lemma emits_load (P : Event -> Prop) (j : ptr) : emits P (load j).
Proof.
  apply emits_same_trace. intros s a s' H. now apply load_inv in H as [-> _].
Qed.

Lemma emits_store (P : Event -> Prop) (j : ptr) (J : Job) : emits P (store j J).
Proof. apply emits_same_trace. now intros s a s' [= <- <-]. Qed.

Lemma emits_update (P : Event -> Prop) (j : ptr) (f : Job -> Job) :
  emits P (update j f).
Proof.
  unfold update. apply emits_bind; [apply emits_load|].
  intros J. apply emits_store.
Qed.

Lemma emits_queue_at (P : Event -> Prop) (q : QueueId) : emits P (queue_at q).
Proof.
  apply emits_same_trace. intros s a s' H.
  now apply queue_at_inv in H as [-> _].
Qed.

Lemma emits_set_queue (P : Event -> Prop) (q : QueueId) (d : list positive) :
  emits P (set_queue q d).
Proof.
  apply emits_same_trace. intros s a s' [= <- <-]. now destruct q.
Qed.

(** State changes that leave the trace alone. *)
Lemma emits_with_pool P p : emits P (modify (with_pool p)).
Proof. apply emits_same_trace. now intros s a s' [= <- <-]. Qed.

Lemma emits_with_stop P b : emits P (modify (with_stop b)).
Proof. apply emits_same_trace. now intros s a s' [= <- <-]. Qed.

Lemma emits_with_runningJob P r : emits P (modify (with_runningJob r)).
Proof. apply emits_same_trace. now intros s a s' [= <- <-]. Qed.

Lemma emits_with_threadIndex P i : emits P (modify (with_threadIndex i)).
Proof. apply emits_same_trace. now intros s a s' [= <- <-]. Qed.

Lemma emits_modify_freeList P (l : State -> option ptr) (n : State -> Z) :
  emits P (modify (fun s => with_freeList (l s) (n s) s)).
Proof. apply emits_same_trace. now intros s a s' [= <- <-]. Qed.

Lemma emits_modify_deleteList P (l : State -> option ptr) (n : State -> Z) :
  emits P (modify (fun s => with_deleteList (l s) (n s) s)).
Proof. apply emits_same_trace. now intros s a s' [= <- <-]. Qed.

Lemma emits_modify_heap P (h : State -> gmap positive Job) :
  emits P (modify (fun s => with_heap (h s) s)).
Proof. apply emits_same_trace. now intros s a s' [= <- <-]. Qed.

Lemma emits_modify_pool P (p : State -> list positive) :
  emits P (modify (fun s => with_pool (p s) s)).
Proof. apply emits_same_trace. now intros s a s' [= <- <-]. Qed.

(** Proves [emits P m] for straight-line code, leaving [P e] for each event
    [e] the code emits to [tac]. *)
Ltac emits_step tac :=
  first
    [ apply emits_bind; [|intros ?]
    | apply emits_ret | apply emits_get | apply emits_undefined
    | apply emits_out_of_fuel | apply emits_ASSERT
    | apply emits_load | apply emits_store | apply emits_update
    | apply emits_queue_at | apply emits_set_queue
    | apply emits_with_pool | apply emits_with_stop
    | apply emits_with_runningJob | apply emits_with_threadIndex
    | apply emits_modify_freeList | apply emits_modify_deleteList
    | apply emits_modify_heap | apply emits_modify_pool
    | apply emits_emit; tac
    | match goal with
      | |- emits _ (match ?x with _ => _ end) => destruct x
      end ].

Ltac emits_auto tac := repeat emits_step tac.

Lemma emits_fetch_sub (j : ptr) : emits completion_event (fetch_sub j).
Proof. unfold fetch_sub. emits_auto ltac:(exact I). Qed.

Lemma emits_increment (P : Event -> Prop) (j : ptr) :
  P (EvIncrement j) -> emits P (increment j).
Proof. intros H. unfold increment. emits_auto ltac:(exact H). Qed.

Lemma emits_Push (P : Event -> Prop) (q : QueueId) (j : ptr) :
  P (EvPush q j) -> emits P (Push q j).
Proof. intros H. unfold Push. emits_auto ltac:(exact H). Qed.

Lemma emits_ScheduleRaw (P : Event -> Prop) (q : QueueId) (j : ptr) (b : bool) :
  (forall e, schedule_event e -> P e) -> emits P (ScheduleRaw q j b).
Proof.
  intros H. unfold ScheduleRaw.
  emits_auto ltac:(apply H; exact I).
Qed.

Lemma emits_Schedule (P : Event -> Prop) (j : ptr) :
  (forall e, schedule_event e -> P e) -> emits P (Schedule j).
Proof.
  intros H. unfold Schedule. apply emits_bind; [apply emits_get|].
  intros s. now apply emits_ScheduleRaw.
Qed.

Lemma emits_find_fit (P : Event -> Prop) (fuel : nat) (n : Z) :
  forall prev job, emits P (find_fit fuel n prev job).
Proof.
  induction fuel as [|fuel IH]; intros prev job; simpl;
    emits_auto ltac:(idtac). apply IH.
Qed.

Lemma emits_Pool_Allocate (P : Event -> Prop) :
  (forall e, client_event e -> P e) -> emits P Pool_Allocate.
Proof.
  intros H. unfold Pool_Allocate. emits_auto ltac:(apply H; exact I).
Qed.

Lemma emits_AllocateJob (P : Event -> Prop) (fuel : nat) (f : Functor) :
  (forall e, client_event e -> P e) -> emits P (AllocateJob fuel f).
Proof.
  intros H. unfold AllocateJob, SetFunctor.
  apply emits_bind; [apply emits_get|]. intros s.
  apply emits_bind; [apply emits_find_fit|]. intros [prev [job|]].
  - emits_auto ltac:(apply H; exact I).
  - emits_auto ltac:(apply H; exact I).
Qed.

Lemma emits_run_call (P : Event -> Prop) (fuel : nat) (c : Call) :
  (forall e, client_event e -> P e) -> emits P (run_call fuel c).
Proof.
  intros H.
  assert (H' : forall e, schedule_event e -> P e)
    by (intros e He; apply H; destruct e; simpl in *; tauto).
  destruct c; cbn [run_call].
  - unfold ScheduleFunctor.
    apply emits_bind; [|intros ?; apply emits_ret].
    apply emits_bind; [now apply emits_AllocateJob|].
    intros j. now apply emits_Schedule.
  - unfold ScheduleDetached.
    apply emits_bind; [|intros ?; apply emits_ret].
    apply emits_bind; [now apply emits_AllocateJob|].
    intros j. apply emits_bind; [apply emits_get|].
    intros s. now apply emits_ScheduleRaw.
  - unfold ScheduleForThreadFunctor, ScheduleForThread.
    apply emits_bind; [|intros ?; apply emits_ret].
    apply emits_bind; [now apply emits_AllocateJob|].
    intros j. now apply emits_ScheduleRaw.
  - unfold Continuation.
    apply emits_bind; [now apply emits_AllocateJob|].
    intros j. emits_auto ltac:(idtac).
  - unfold Stop. emits_auto ltac:(apply H; exact I).
Qed.

Lemma emits_run_calls (P : Event -> Prop) (fuel : nat) (cs : list Call) :
  (forall e, client_event e -> P e) -> emits P (run_calls fuel cs).
Proof.
  intros H. induction cs as [|c cs IH]; cbn [run_calls].
  - apply emits_ret.
  - apply emits_bind; [now apply emits_run_call | intros _; exact IH].
Qed.

Lemma emits_DeallocateJob (j : ptr) : emits completion_event (DeallocateJob j).
Proof. unfold DeallocateJob, Reset. emits_auto ltac:(exact I). Qed.

(** The completion protocol appends completion events only: it calls no
    functor, takes no job from a queue and returns nothing to the pool. *)
Lemma emits_OnJobDone (fuel : nat) :
  forall job, emits completion_event (OnJobDone fuel job).
Proof.
  induction fuel as [|fuel IH]; intros job; cbn [OnJobDone].
  - apply emits_out_of_fuel.
  - apply emits_bind; [apply emits_fetch_sub|]. intros left.
    destruct (left =? 1); [|apply emits_ret].
    apply emits_bind; [apply emits_load|]. intros J.
    apply emits_bind.
    { destruct (m_continuation J) as [k|]; [|apply emits_ret].
      apply emits_bind.
      - destruct (m_parent J) as [p|]; [|apply emits_ret].
        apply emits_bind; [apply emits_increment; exact I|]. intros _.
        emits_auto ltac:(idtac).
      - intros _. apply emits_bind; [apply emits_load|]. intros J2.
        destruct (m_continuation J2) as [k2|]; [|apply emits_undefined].
        apply emits_bind; [|intros ?; apply emits_ret].
        apply emits_Schedule. intros e. destruct e; simpl; tauto. }
    intros _. apply emits_bind; [apply emits_load|]. intros J3.
    apply emits_bind.
    { destruct (m_parent J3) as [p|]; [apply IH | apply emits_ret]. }
    intros _. apply emits_DeallocateJob.
Qed.

Lemma emits_invoke (fuel : nat) (j : ptr) : emits execute_event (invoke fuel j).
Proof.
  unfold invoke. apply emits_bind; [apply emits_load|]. intros J.
  destruct (m_functorData J) as [f|]; [|apply emits_undefined].
  apply emits_bind; [apply emits_emit; exact I|]. intros _.
  apply emits_bind; [|intros _; apply emits_emit; exact I].
  apply emits_run_calls. intros e He. destruct e; simpl in *; tauto.
Qed.

Lemma emits_ExecuteJob (fuel : nat) (j : ptr) :
  emits execute_event (ExecuteJob fuel j).
Proof.
  unfold ExecuteJob.
  apply emits_bind; [apply emits_invoke|]. intros _.
  apply emits_bind; [apply emits_with_runningJob|]. intros _.
  eapply emits_weaken; [|apply emits_OnJobDone].
  intros e He. destruct e; simpl in *; tauto.
Qed.

Lemma emits_Pop (P : Event -> Prop) (q : QueueId) :
  (forall r, P (EvPop q r)) -> emits P (Pop q).
Proof. intros H. unfold Pop. emits_auto ltac:(apply H). Qed.


(** ** What the operations leave alone

    For a reflexive and transitive relation [R] on states that does not look
    at the fields an operation writes, the operation keeps [R]. *)

Section Keeps.

Variable R : State -> State -> Prop.
Hypothesis R_refl : forall s, R s s.
Hypothesis R_trans : forall s1 s2 s3, R s1 s2 -> R s2 s3 -> R s1 s3.

Hypothesis R_heap : forall h s, R s (with_heap h s).
Hypothesis R_trace : forall t s, R s (with_trace t s).
Hypothesis R_pool : forall p s, R s (with_pool p s).
Hypothesis R_freeList : forall l n s, R s (with_freeList l n s).
Hypothesis R_deleteList : forall l n s, R s (with_deleteList l n s).
Hypothesis R_queue :
  forall q d s, R s (with_queues q (<[Z.to_nat (queue_index q) := d]> (queues q s)) s).
Hypothesis R_stop : forall s, R s (with_stop true s).
Hypothesis R_runningJob : forall r s, R s (with_runningJob r s).

Lemma keeps_ret {A : Type} (a : A) : keeps R (ret a).
Proof. intros s a' s' [= <- <-]. apply R_refl. Qed.

Lemma keeps_bind {A B : Type} (m : M A) (k : A -> M B) :
  keeps R m -> (forall a, keeps R (k a)) -> keeps R (bind m k).
Proof.
  intros Hm Hk s b s2 H. apply bind_inv in H as (a & s1 & H1 & H2).
  eapply R_trans; [eapply Hm | eapply Hk]; eauto.
Qed.

Lemma keeps_get : keeps R get.
Proof. intros s a s' [= <- <-]. apply R_refl. Qed.

Lemma keeps_undefined {A : Type} : keeps R (@undefined A).
Proof. intros s a s' H. discriminate H. Qed.

Lemma keeps_out_of_fuel {A : Type} : keeps R (@out_of_fuel A).
Proof. intros s a s' H. discriminate H. Qed.

Lemma keeps_ASSERT (b : bool) : keeps R (ASSERT b).
Proof.
  unfold ASSERT. intros s a s'. destruct b; [|discriminate].
  intros [= <- <-]. apply R_refl.
Qed.

Lemma keeps_load (j : ptr) : keeps R (load j).
Proof. intros s a s' H. apply load_inv in H as [-> _]. apply R_refl. Qed.

Lemma keeps_store (j : ptr) (J : Job) : keeps R (store j J).
Proof. intros s a s' [= <- <-]. apply R_heap. Qed.

Lemma keeps_emit (e : Event) : keeps R (emit e).
Proof. intros s a s' [= <- <-]. apply R_trace. Qed.

Lemma keeps_queue_at (q : QueueId) : keeps R (queue_at q).
Proof. intros s a s' H. apply queue_at_inv in H as [-> _]. apply R_refl. Qed.

Lemma keeps_set_queue (q : QueueId) (d : list positive) : keeps R (set_queue q d).
Proof. intros s a s' [= <- <-]. apply R_queue. Qed.

Lemma keeps_modify_pool (p : State -> list positive) :
  keeps R (modify (fun s => with_pool (p s) s)).
Proof. intros s a s' [= <- <-]. apply R_pool. Qed.

Lemma keeps_with_pool (p : list positive) : keeps R (modify (with_pool p)).
Proof. intros s a s' [= <- <-]. apply R_pool. Qed.

Lemma keeps_modify_heap (h : State -> gmap positive Job) :
  keeps R (modify (fun s => with_heap (h s) s)).
Proof. intros s a s' [= <- <-]. apply R_heap. Qed.

Lemma keeps_modify_freeList (l : State -> option ptr) (n : State -> Z) :
  keeps R (modify (fun s => with_freeList (l s) (n s) s)).
Proof. intros s a s' [= <- <-]. apply R_freeList. Qed.

Lemma keeps_modify_deleteList (l : State -> option ptr) (n : State -> Z) :
  keeps R (modify (fun s => with_deleteList (l s) (n s) s)).
Proof. intros s a s' [= <- <-]. apply R_deleteList. Qed.

Lemma keeps_with_stop : keeps R (modify (with_stop true)).
Proof. intros s a s' [= <- <-]. apply R_stop. Qed.

Lemma keeps_with_runningJob (r : option ptr) :
  keeps R (modify (with_runningJob r)).
Proof. intros s a s' [= <- <-]. apply R_runningJob. Qed.

Ltac keeps_step :=
  first
    [ apply keeps_bind; [|intros ?]
    | apply keeps_ret | apply keeps_get | apply keeps_undefined
    | apply keeps_out_of_fuel | apply keeps_ASSERT
    | apply keeps_load | apply keeps_store | apply keeps_emit
    | apply keeps_queue_at | apply keeps_set_queue
    | apply keeps_with_pool | apply keeps_modify_pool
    | apply keeps_modify_heap
    | apply keeps_modify_freeList | apply keeps_modify_deleteList
    | apply keeps_with_stop
    | match goal with
      | |- keeps _ (match ?x with _ => _ end) => destruct x
      end ].

Ltac keeps_auto := repeat keeps_step.

Lemma keeps_update (j : ptr) (f : Job -> Job) : keeps R (update j f).
Proof. unfold update. keeps_auto. Qed.

Lemma keeps_fetch_sub (j : ptr) : keeps R (fetch_sub j).
Proof. unfold fetch_sub. keeps_auto. Qed.

Lemma keeps_increment (j : ptr) : keeps R (increment j).
Proof. unfold increment. keeps_auto. Qed.

Lemma keeps_Push (q : QueueId) (j : ptr) : keeps R (Push q j).
Proof. unfold Push. keeps_auto. Qed.

Lemma keeps_Pop (q : QueueId) : keeps R (Pop q).
Proof. unfold Pop. keeps_auto. Qed.

Lemma keeps_find_fit (fuel : nat) (n : Z) :
  forall prev job, keeps R (find_fit fuel n prev job).
Proof.
  induction fuel as [|fuel IH]; intros prev job; cbn [find_fit].
  - keeps_auto.
  - destruct job as [j|]; [|apply keeps_ret].
    apply keeps_bind; [apply keeps_load|]. intros J.
    destruct (m_functorSize J <? n); [apply IH | apply keeps_ret].
Qed.

Lemma keeps_SetFunctor (j : ptr) (f : Functor) : keeps R (SetFunctor j f).
Proof.
  unfold SetFunctor.
  apply keeps_bind; [apply keeps_load|]. intros J.
  apply keeps_bind; [apply keeps_modify_heap | intros _; apply keeps_store].
Qed.

Lemma keeps_AllocateJob (fuel : nat) (f : Functor) : keeps R (AllocateJob fuel f).
Proof.
  unfold AllocateJob.
  apply keeps_bind; [apply keeps_get|]. intros s.
  apply keeps_bind; [apply keeps_find_fit|]. intros [prev [job|]].
  - apply keeps_bind; [|intros j; apply keeps_bind;
                         [apply keeps_SetFunctor | intros _; apply keeps_ret]].
    apply keeps_bind; [apply keeps_load|]. intros J.
    apply keeps_bind.
    { destruct prev; [apply keeps_update | apply keeps_modify_freeList]. }
    intros _. apply keeps_bind; [apply keeps_update|]. intros _.
    apply keeps_bind; [apply keeps_modify_freeList | intros _; apply keeps_ret].
  - apply keeps_bind; [|intros j; apply keeps_bind;
                         [apply keeps_SetFunctor | intros _; apply keeps_ret]].
    unfold Pool_Allocate. keeps_auto.
Qed.

Lemma keeps_DeallocateJob (j : ptr) : keeps R (DeallocateJob j).
Proof.
  unfold DeallocateJob, Reset.
  apply keeps_bind; [apply keeps_update|]. intros _.
  apply keeps_bind; [apply keeps_get|]. intros s.
  destruct (100 <=? m_freeJobListCount s).
  - apply keeps_bind; [apply keeps_update|]. intros _.
    apply keeps_bind; [apply keeps_modify_deleteList | intros _; apply keeps_emit].
  - apply keeps_bind; [apply keeps_update|]. intros _.
    apply keeps_bind; [apply keeps_modify_freeList | intros _; apply keeps_emit].
Qed.

Lemma keeps_DeleteOldJobs_loop (fuel : nat) : keeps R (DeleteOldJobs_loop fuel).
Proof.
  induction fuel as [|fuel IH]; cbn [DeleteOldJobs_loop].
  - keeps_auto.
  - apply keeps_bind; [apply keeps_get|]. intros s.
    destruct (m_deleteJobList s) as [p|]; [|apply keeps_ret].
    apply keeps_bind; [apply keeps_load|]. intros J.
    apply keeps_bind; [apply keeps_modify_deleteList|]. intros _.
    apply keeps_bind; [apply (keeps_modify_heap (fun s => delete p (heap s)))|].
    intros _. apply keeps_bind; [|intros _; exact IH].
    unfold Pool_Deallocate.
    apply keeps_bind; [apply (keeps_modify_pool (fun s => p :: g_allocator s))|].
    intros _. apply keeps_emit.
Qed.

Lemma keeps_DeleteOldJobs (fuel : nat) : keeps R (DeleteOldJobs fuel).
Proof.
  unfold DeleteOldJobs.
  apply keeps_bind; [apply keeps_emit|]. intros _.
  apply keeps_bind; [apply keeps_DeleteOldJobs_loop|]. intros _.
  apply keeps_bind; [apply keeps_modify_deleteList | intros _; apply keeps_emit].
Qed.

Lemma keeps_ScheduleRaw (q : QueueId) (j : ptr) (b : bool) :
  keeps R (ScheduleRaw q j b).
Proof.
  unfold ScheduleRaw.
  apply keeps_bind; [apply keeps_get|]. intros s.
  apply keeps_bind.
  { destruct (m_runningJob s) as [r|]; [|apply keeps_ret].
    apply keeps_bind; [apply keeps_load|]. intros J.
    destruct (is_null (m_parent J) && negb b); [|apply keeps_ret].
    apply keeps_bind; [apply keeps_increment | intros _; apply keeps_update]. }
  intros _. apply keeps_bind; [apply keeps_Push|]. intros _.
  apply keeps_bind; [apply keeps_emit | intros _; apply keeps_ret].
Qed.

Lemma keeps_Schedule (j : ptr) : keeps R (Schedule j).
Proof.
  unfold Schedule. apply keeps_bind; [apply keeps_get|].
  intros s. apply keeps_ScheduleRaw.
Qed.

Lemma keeps_ScheduleFunctor (fuel : nat) (f : Functor) :
  keeps R (ScheduleFunctor fuel f).
Proof.
  unfold ScheduleFunctor.
  apply keeps_bind; [apply keeps_AllocateJob | intros j; apply keeps_Schedule].
Qed.

Lemma keeps_ScheduleDetached (fuel : nat) (f : Functor) :
  keeps R (ScheduleDetached fuel f).
Proof.
  unfold ScheduleDetached.
  apply keeps_bind; [apply keeps_AllocateJob|]. intros j.
  apply keeps_bind; [apply keeps_get | intros s; apply keeps_ScheduleRaw].
Qed.

Lemma keeps_ScheduleForThreadFunctor (fuel : nat) (t : Z) (f : Functor) :
  keeps R (ScheduleForThreadFunctor fuel t f).
Proof.
  unfold ScheduleForThreadFunctor, ScheduleForThread.
  apply keeps_bind; [apply keeps_AllocateJob | intros j; apply keeps_ScheduleRaw].
Qed.

Lemma keeps_Continuation (fuel : nat) (f : Functor) :
  keeps R (Continuation fuel f).
Proof.
  unfold Continuation.
  apply keeps_bind; [apply keeps_AllocateJob|]. intros k.
  apply keeps_bind; [apply keeps_get|]. intros s.
  destruct (m_runningJob s); [apply keeps_update | apply keeps_undefined].
Qed.

Lemma keeps_Stop : keeps R Stop.
Proof.
  unfold Stop. apply keeps_bind; [apply keeps_with_stop | intros _; apply keeps_emit].
Qed.

Lemma keeps_run_calls (fuel : nat) (cs : list Call) : keeps R (run_calls fuel cs).
Proof.
  induction cs as [|c cs IH]; cbn [run_calls]; [apply keeps_ret|].
  apply keeps_bind; [|intros _; exact IH].
  destruct c; cbn [run_call].
  - apply keeps_bind; [apply keeps_ScheduleFunctor | intros _; apply keeps_ret].
  - apply keeps_bind; [apply keeps_ScheduleDetached | intros _; apply keeps_ret].
  - apply keeps_bind; [apply keeps_ScheduleForThreadFunctor | intros _; apply keeps_ret].
  - apply keeps_Continuation.
  - apply keeps_Stop.
Qed.

Lemma keeps_invoke (fuel : nat) (j : ptr) : keeps R (invoke fuel j).
Proof.
  unfold invoke. apply keeps_bind; [apply keeps_load|]. intros J.
  destruct (m_functorData J); [|apply keeps_undefined].
  apply keeps_bind; [apply keeps_emit|]. intros _.
  apply keeps_bind; [apply keeps_run_calls | intros _; apply keeps_emit].
Qed.

Lemma keeps_OnJobDone (fuel : nat) : forall j, keeps R (OnJobDone fuel j).
Proof.
  induction fuel as [|fuel IH]; intros j; cbn [OnJobDone].
  - apply keeps_out_of_fuel.
  - apply keeps_bind; [apply keeps_fetch_sub|]. intros left.
    destruct (left =? 1); [|apply keeps_ret].
    apply keeps_bind; [apply keeps_load|]. intros J.
    apply keeps_bind.
    { destruct (m_continuation J) as [k|]; [|apply keeps_ret].
      apply keeps_bind.
      - destruct (m_parent J) as [p|]; [|apply keeps_ret].
        apply keeps_bind; [apply keeps_increment|]. intros _.
        apply keeps_bind; [apply keeps_load|]. intros J1.
        destruct (m_continuation J1); [apply keeps_update | apply keeps_undefined].
      - intros _. apply keeps_bind; [apply keeps_load|]. intros J2.
        destruct (m_continuation J2); [|apply keeps_undefined].
        apply keeps_bind; [apply keeps_Schedule | intros _; apply keeps_ret]. }
    intros _. apply keeps_bind; [apply keeps_load|]. intros J3.
    apply keeps_bind; [|intros _; apply keeps_DeallocateJob].
    destruct (m_parent J3); [apply IH | apply keeps_ret].
Qed.

Lemma keeps_ExecuteJob (fuel : nat) (j : ptr) : keeps R (ExecuteJob fuel j).
Proof.
  unfold ExecuteJob.
  apply keeps_bind; [apply keeps_invoke|]. intros _.
  apply keeps_bind; [apply keeps_with_runningJob | intros _; apply keeps_OnJobDone].
Qed.

Lemma keeps_steal (remaining : nat) : forall i, keeps R (steal remaining i).
Proof.
  induction remaining as [|n IH]; intros i; cbn [steal]; [apply keeps_ret|].
  apply keeps_bind; [apply keeps_get|]. intros s.
  apply keeps_bind; [apply keeps_Pop|]. intros [j|]; [apply keeps_ret | apply IH].
Qed.

Lemma keeps_Work_select : keeps R Work_select.
Proof.
  unfold Work_select.
  apply keeps_bind; [apply keeps_get|]. intros s.
  apply keeps_bind; [apply keeps_Pop|]. intros [j|];
    [apply keeps_ret | apply keeps_steal].
Qed.

Lemma keeps_Work (fuel : nat) : keeps R (Work fuel).
Proof.
  unfold Work.
  apply keeps_bind; [apply keeps_Work_select|]. intros job.
  apply keeps_bind; [apply keeps_with_runningJob|]. intros _.
  destruct job as [j|].
  - apply keeps_bind; [apply keeps_ExecuteJob | intros _; apply keeps_ret].
  - apply keeps_bind; [apply keeps_get|]. intros s.
    destruct (m_deleteJobList s); [|apply keeps_ret].
    apply keeps_bind; [apply keeps_DeleteOldJobs | intros _; apply keeps_ret].
Qed.

Lemma keeps_WorkerThread_body (fuel : nat) : keeps R (WorkerThread_body fuel).
Proof.
  unfold WorkerThread_body, WaitFor.
  apply keeps_bind; [apply keeps_Work|]. intros [|];
    [apply keeps_emit | apply keeps_ret].
Qed.

Lemma keeps_WorkerThread_loop (fuel iterations : nat) :
  keeps R (WorkerThread_loop fuel iterations).
Proof.
  induction iterations as [|n IH]; cbn [WorkerThread_loop].
  - apply keeps_bind; [apply keeps_get|]. intros s.
    destruct (m_stop s); [apply keeps_ret | apply keeps_out_of_fuel].
  - apply keeps_bind; [apply keeps_get|]. intros s.
    destruct (m_stop s); [apply keeps_ret|].
    apply keeps_bind; [apply keeps_WorkerThread_body | intros _; exact IH].
Qed.

Lemma keeps_RunJob_wait (fuel : nat) (j : ptr) (iterations : nat) :
  keeps R (RunJob_wait fuel iterations j).
Proof.
  induction iterations as [|n IH]; cbn [RunJob_wait].
  - apply keeps_bind; [apply keeps_load|]. intros J.
    destruct (1 <? m_jobsLeft J); [apply keeps_out_of_fuel | apply keeps_ret].
  - apply keeps_bind; [apply keeps_load|]. intros J.
    destruct (1 <? m_jobsLeft J); [|apply keeps_ret].
    apply keeps_bind; [apply keeps_Work|]. intros _.
    apply keeps_bind; [apply keeps_emit | intros _; exact IH].
Qed.

Lemma keeps_RunJob_loop (fuel chain : nat) :
  forall j, keeps R (RunJob_loop fuel chain j).
Proof.
  induction chain as [|chain IH]; intros j; cbn [RunJob_loop].
  - apply keeps_out_of_fuel.
  - apply keeps_bind; [apply keeps_with_runningJob|]. intros _.
    apply keeps_bind; [apply keeps_invoke|]. intros _.
    apply keeps_bind; [apply keeps_with_runningJob|]. intros _.
    apply keeps_bind; [apply keeps_load|]. intros J.
    apply keeps_bind; [apply keeps_RunJob_wait|]. intros _.
    apply keeps_bind; [apply keeps_update|]. intros _.
    apply keeps_bind; [apply keeps_OnJobDone|]. intros _.
    destruct (m_continuation J); [apply IH | apply keeps_ret].
Qed.

Lemma keeps_RunJob (fuel : nat) (f : Functor) : keeps R (RunJob fuel f).
Proof.
  unfold RunJob.
  apply keeps_bind; [apply keeps_get|]. intros s.
  apply keeps_bind; [apply keeps_ASSERT|]. intros _.
  apply keeps_bind; [apply keeps_AllocateJob | intros j; apply keeps_RunJob_loop].
Qed.

End Keeps.

(** C2: with an ambient running job, [Schedule] of a job that has no parent
    sets the job's parent to the running job, increments the running job's
    [m_jobsLeft] before the push, pushes the job to the global queue of the
    current worker, notifies the condition variable and returns the job; the
    overload that takes a functor does the same with the job it allocates,
    for a functor that fits the storage of a block. *)
Theorem Schedule_parents_to_running
    (running : ptr) (A : Job) (d : list positive) (s : State) :
  m_runningJob s = Some running ->
  heap s !! running = Some A ->
  queue_is (Global (m_threadIndex s)) d s ->
  (forall job J,
      heap s !! job = Some J ->
      m_parent J = None ->
      exists s',
        Schedule job s = Ok (job, s') /\
        (exists J', heap s' !! job = Some J' /\ m_parent J' = Some running) /\
        (exists A', heap s' !! running = Some A' /\
                    m_jobsLeft A' = wrap_int (m_jobsLeft A + 1)) /\
        queue_is (Global (m_threadIndex s)) (d ++ [job]) s' /\
        trace s' = trace s ++
          [EvIncrement running; EvPush (Global (m_threadIndex s)) job;
           EvNotifyAll]) /\
  (forall fuel func l,
      sizeof_JobFunctor func <= blockSize - sizeof_Job ->
      chain (heap s) (m_freeJobList s) l ->
      (length l <= fuel)%nat ->
      g_allocator s <> [] ->
      running ∉ l ->
      running ∉ g_allocator s ->
      exists job s',
        ScheduleFunctor fuel func s = Ok (job, s') /\
        (exists J', heap s' !! job = Some J' /\ m_parent J' = Some running) /\
        (exists A', heap s' !! running = Some A' /\
                    m_jobsLeft A' = wrap_int (m_jobsLeft A + 1)) /\
        queue_is (Global (m_threadIndex s)) (d ++ [job]) s' /\
        exists allocation,
          trace s' = trace s ++ allocation ++
            [EvIncrement running; EvPush (Global (m_threadIndex s)) job;
             EvNotifyAll] /\
          (allocation = [] \/
           allocation = [EvLockAlloc; EvPoolAllocate (Some job); EvUnlockAlloc])).
Proof.
  intros Hrun HA Hq. split.
  - intros job J HJ Hpar. eapply Schedule_under_running_job; eauto.
  - intros fuel func l Hfit Hc Hlen Hpool Hnl Hnp.
    destruct (AllocateJob_total fuel func s l Hc Hlen Hpool) as (job & s1 & Hal).
    destruct (AllocateJob_inv _ _ _ _ _ _ Hc Hal)
      as ((size & Hjob) & Hfrom & Hframe & Htr & Hr1 & Ht1 & Hl1 & Hg1 & _).
    assert (Hne : running <> job).
    { intros ->. destruct Hfrom as [Hin|(rest & Hrest)]; [contradiction|].
      apply Hnp. rewrite Hrest. left. }
    assert (Hq1 : queue_is (Global (m_threadIndex s1)) d s1).
    { destruct Hq as [H0 Hd]. unfold queue_is. proj. now rewrite Ht1, Hg1. }
    destruct (Hframe Hfit running A Hne Hnl HA)
      as (A1 & HA1 & (_ & _ & _ & Hcount1 & _) & _).
    destruct (Schedule_under_running_job job running (allocated size func) A1 d s1)
      as (s' & Hs & Hparent & Hcount & Hq' & Ht');
      [ congruence | exact Hjob | reflexivity | exact HA1 | exact Hq1 | ].
    rewrite Hcount1 in Hcount.
    exists job, s'. unfold ScheduleFunctor.
    rewrite (bind_Ok _ _ _ _ _ Hal).
    split; [exact Hs|]. split; [exact Hparent|]. split; [exact Hcount|].
    rewrite Ht1 in Hq', Ht'. split; [exact Hq'|].
    destruct Htr as [Htr|Htr]; rewrite Htr in Ht'.
    + exists []. split; [exact Ht' | now left].
    + eexists. split; [|right; reflexivity]. now rewrite <- app_assoc in Ht'.
Qed.

Lemma Schedule_parents_to_running_witness :
  exists s',
    Schedule 2%positive two_jobs_running = Ok (2%positive, s') /\
    trace s' = [EvIncrement 1%positive; EvPush (Global 0) 2%positive; EvNotifyAll].
Proof.
  destruct (Schedule_parents_to_running 1%positive job0 [] two_jobs_running)
    as [Hjob _].
  - reflexivity.
  - reflexivity.
  - split; [simpl; lia | reflexivity].
  - destruct (Hjob 2%positive job0) as (s' & Hs & _ & _ & _ & Ht);
      [reflexivity | reflexivity |].
    exists s'. split; [exact Hs | exact Ht].
Defined.

(** ** ScheduleDetached *)

(** C9: [ScheduleDetached] returns a job whose parent is null and leaves the
    running job as it was (its [m_jobsLeft] included), also when there is a
    running job; like [Schedule] it pushes the job to the global queue of the
    current worker and then notifies the condition variable.  The running job
    is live: it is neither on the free list nor a free block of the pool.
    The functor fits the storage of a block, and so does every functor
    already in memory. *)
Theorem ScheduleDetached_never_parents (fuel : nat) (func : Functor)
    (s : State) (l : list positive) (running : ptr) (A : Job)
    (d : list positive) :
  sizeof_JobFunctor func <= blockSize - sizeof_Job ->
  functors_fit (heap s) ->
  chain (heap s) (m_freeJobList s) l ->
  (length l <= fuel)%nat ->
  g_allocator s <> [] ->
  m_runningJob s = Some running ->
  heap s !! running = Some A ->
  running ∉ l ->
  running ∉ g_allocator s ->
  queue_is (Global (m_threadIndex s)) d s ->
  exists job s',
    ScheduleDetached fuel func s = Ok (job, s') /\
    (exists J', heap s' !! job = Some J' /\ m_parent J' = None) /\
    heap s' !! running = Some A /\
    queue_is (Global (m_threadIndex s)) (d ++ [job]) s' /\
    exists allocation,
      trace s' = trace s ++ allocation ++
                 [EvPush (Global (m_threadIndex s)) job; EvNotifyAll] /\
      (allocation = [] \/
       allocation = [EvLockAlloc; EvPoolAllocate (Some job); EvUnlockAlloc]).
Proof.
  intros Hfit Hall Hc Hlen Hpool Hrun HA Hnl Hnp Hq.
  destruct (AllocateJob_total fuel func s l Hc Hlen Hpool) as (job & s1 & Hal).
  destruct (AllocateJob_inv _ _ _ _ _ _ Hc Hal)
    as ((size & Hjob) & Hfrom & Hframe & Htr & Hr1 & Ht1 & Hl1 & Hg1 & _).
  assert (Hne : running <> job).
  { intros ->. destruct Hfrom as [Hin|(rest & Hrest)]; [contradiction|].
    apply Hnp. rewrite Hrest. left. }
  exists job. unfold ScheduleDetached.
  rewrite (bind_Ok _ _ _ _ _ Hal). mnorm.
  unfold ScheduleRaw. mnorm. rewrite Hr1, Hrun. mnorm.
  destruct (Hframe Hfit running A Hne Hnl HA) as (A1 & HA1 & _ & HAeq).
  rewrite (HAeq Hall) in HA1.
  mstep load_Ok. cbn [negb andb]. rewrite andb_false_r. mnorm.
  assert (Hq1 : queue_is (Global (m_threadIndex s1)) d s1).
  { destruct Hq as [H0 Hd]. unfold queue_is. proj. now rewrite Ht1, Hg1. }
  mstep Push_Ok.
  eexists. split; [reflexivity|]. proj.
  split; [|split; [|split]].
  - rewrite Hjob. eexists. split; reflexivity.
  - exact HA1.
  - rewrite Ht1 in *. destruct Hq1 as [H0 Hd]. split; [exact H0|]. proj.
    apply list_lookup_insert_eq. eapply lookup_lt_Some, Hd.
  - rewrite Ht1. destruct Htr as [-> | ->].
    + exists []. split; [|now left]. now rewrite <- !app_assoc.
    + eexists. split; [|right; reflexivity]. now rewrite <- !app_assoc.
Qed.

Lemma ScheduleDetached_never_parents_witness :
  exists job s',
    ScheduleDetached 1 (Fn 24 []) running_with_free_job = Ok (job, s') /\
    (exists J', heap s' !! job = Some J' /\ m_parent J' = None) /\
    heap s' !! 1%positive = Some job0.
Proof.
  destruct (ScheduleDetached_never_parents 1 (Fn 24 []) running_with_free_job
              [5%positive] 1%positive job0 [])
    as (job & s' & Hrun & Hpar & Hamb & _).
  - vm_compute. discriminate.
  - intros x X f HX Hf. cbn [heap running_with_free_job] in HX.
    apply lookup_insert_Some in HX as [[<- <-] | [_ HX]].
    + injection Hf as <-. vm_compute. discriminate.
    + apply lookup_singleton_Some in HX as [<- <-]. discriminate Hf.
  - simpl. split; [reflexivity|]. exists reset_job. repeat split; reflexivity.
  - simpl. lia.
  - discriminate.
  - reflexivity.
  - reflexivity.
  - rewrite list_elem_of_In. simpl. intros [H|[]]. discriminate H.
  - rewrite list_elem_of_In. simpl. intros [H|[H|[]]]; discriminate H.
  - split; [simpl; lia | reflexivity].
  - exists job, s'. auto.
Defined.

(** ** Functors larger than the block's capacity *)

(** C5 (the code does not do what the claim says): a functor of 200 bytes
    does not fit the 96 bytes a 128-byte block leaves after the [Job] header;
    with an empty free list [AllocateJob] takes a block of the pool, records
    the capacity 96 and constructs the functor in the block all the same, and
    [Schedule] goes on to queue the job; no assertion fails. *)
Theorem AllocateJob_accepts_oversize_functor :
  wrap_size_t (blockSize - sizeof_Job) < sizeof_JobFunctor (Fn 200 []) /\
  (exists s',
     AllocateJob 0 (Fn 200 []) (init_state 1 [1%positive; 2%positive]) =
       Ok (1%positive, s') /\
     heap s' !! 1%positive =
       Some {| m_parent := None; m_continuation := None;
               m_functorActive := true; m_jobsLeft := 1;
               m_functorSize := 96; m_functorData := Some (Fn 200 []) |}) /\
  (exists s',
     ScheduleFunctor 0 (Fn 200 []) (init_state 1 [1%positive; 2%positive]) =
       Ok (1%positive, s') /\
     m_globalQueues s' = [[1%positive]]).
Proof.
  split; [vm_compute; reflexivity|].
  split; eexists; (split; [vm_compute; reflexivity|]); vm_compute; reflexivity.
Qed.

(** The free-list path of the same function does compare sizes: a reset
    record whose capacity is below the functor's size is passed over. *)
Lemma find_fit_skips_small_record (j : ptr) (J : Job) (n : Z) (s : State) :
  heap s !! j = Some J ->
  m_functorSize J < n ->
  m_parent J = None ->
  find_fit 1 n None (Some j) s = Ok ((Some j, None), s).
Proof.
  intros HJ Hsize Hp. simpl.
  rewrite (bind_Ok _ _ _ _ _ (load_Ok _ _ _ HJ)).
  destruct (Z.ltb_spec (m_functorSize J) n) as [_|Hge]; [|lia].
  now rewrite Hp.
Qed.

(** ** The completion protocol *)

Lemma links_Some (h : gmap positive Job) (j : ptr) (J : Job) :
  h !! j = Some J -> links h j = Some (m_parent J, m_continuation J).
Proof. intros H. unfold links. now rewrite H. Qed.

Lemma links_inv (h : gmap positive Job) (j : ptr) (p k : option ptr) :
  links h j = Some (p, k) ->
  exists J, h !! j = Some J /\ m_parent J = p /\ m_continuation J = k.
Proof.
  unfold links. destruct (h !! j) as [J|]; [|discriminate].
  intros [= <- <-]. eauto.
Qed.

Lemma increment_links (p job : ptr) (s s' : State) (a : unit) :
  increment p s = Ok (a, s') -> links (heap s') job = links (heap s) job.
Proof.
  unfold increment, load, store, emit, modify, bind.
  destruct (heap s !! p) as [P|] eqn:HP; [|discriminate].
  intros [= <- <-]. proj. unfold links.
  rewrite lookup_insert. case_decide as Heq; [|reflexivity].
  subst. now rewrite HP.
Qed.

Lemma update_links (k job : ptr) (f : Job -> Job) (s s' : State) (a : unit) :
  k <> job ->
  update k f s = Ok (a, s') -> links (heap s') job = links (heap s) job.
Proof.
  intros Hne. unfold update, load, store, modify, bind.
  destruct (heap s !! k) as [K|]; [|discriminate].
  intros [= <- <-]. proj. unfold links. now rewrite lookup_insert_ne.
Qed.

Lemma Push_heap (q : QueueId) (j : ptr) (s s' : State) (a : unit) :
  Push q j s = Ok (a, s') -> heap s' = heap s.
Proof.
  unfold Push. intros H. apply bind_inv in H as (d & s1 & Hq & H).
  apply queue_at_inv in Hq as [-> _].
  destruct q; injection H as <- <-; reflexivity.
Qed.

Lemma ScheduleRaw_links (q : QueueId) (k job r : ptr) (b : bool) (s s' : State) :
  k <> job ->
  ScheduleRaw q k b s = Ok (r, s') -> links (heap s') job = links (heap s) job.
Proof.
  intros Hne. unfold ScheduleRaw. mnorm.
  destruct (m_runningJob s) as [running|].
  - mnorm. intros H. apply bind_inv in H as (K & s1 & HK & H).
    apply load_inv in HK as [-> HK].
    destruct (is_null (m_parent K) && negb b).
    + mnorm_in H. apply bind_inv in H as ([] & s1 & Hi & H).
      mnorm_in H. apply bind_inv in H as ([] & s2 & Hu & H).
      mnorm_in H. apply bind_inv in H as ([] & s3 & Hp & H).
      mnorm_in H. injection H as _ <-. proj.
      rewrite (Push_heap _ _ _ _ _ Hp).
      rewrite (update_links _ _ _ _ _ _ Hne Hu).
      apply (increment_links _ _ _ _ _ Hi).
    + mnorm_in H. apply bind_inv in H as ([] & s3 & Hp & H).
      mnorm_in H. injection H as _ <-. proj. now rewrite (Push_heap _ _ _ _ _ Hp).
  - mnorm. intros H. apply bind_inv in H as ([] & s3 & Hp & H).
    mnorm_in H. injection H as _ <-. proj. now rewrite (Push_heap _ _ _ _ _ Hp).
Qed.

Lemma Schedule_links (k job r : ptr) (s s' : State) :
  k <> job ->
  Schedule k s = Ok (r, s') -> links (heap s') job = links (heap s) job.
Proof. intros Hne. unfold Schedule. mnorm. now apply ScheduleRaw_links. Qed.

(** ** Reclamation *)

Lemma DeallocateJob_Ok (job : ptr) (J : Job) (s : State) :
  heap s !! job = Some J ->
  DeallocateJob job s = Ok (tt, recycled job J s).
Proof.
  intros HJ. unfold DeallocateJob, Reset, recycled. mnorm.
  mstep update_Ok.
  destruct (100 <=? m_freeJobListCount s).
  - mstep update_Ok; [|apply lookup_insert_eq].
    now rewrite insert_insert_eq.
  - mstep update_Ok; [|apply lookup_insert_eq].
    now rewrite insert_insert_eq.
Qed.

Lemma chain_insert_fresh (h : gmap positive Job) (l : list positive)
    (head : option ptr) (j : ptr) (X : Job) :
  j ∉ l -> chain h head l -> chain (<[j := X]> h) head l.
Proof.
  revert head. induction l as [|x l IH]; intros head Hnl Hc; simpl in *.
  - exact Hc.
  - destruct Hc as (-> & J & HJ & Hk & Hn & Ha & Hrest).
    apply not_elem_of_cons in Hnl as [Hne Hnl].
    split; [reflexivity|]. exists J.
    rewrite lookup_insert_ne by congruence.
    split; [exact HJ|]. repeat (split; [assumption|]).
    now apply IH.
Qed.

Lemma chain_cons_reset (h : gmap positive Job) (l : list positive)
    (head : option ptr) (j : ptr) (J : Job) :
  j ∉ l -> chain h head l ->
  chain (<[j := set_parent head (Job_Reset J)]> h) (Some j) (j :: l).
Proof.
  intros Hnl Hc. simpl. split; [reflexivity|].
  eexists. rewrite lookup_insert_eq. split; [reflexivity|].
  proj. repeat split. cbn [Job_Reset m_parent set_parent].
  now apply chain_insert_fresh.
Qed.

Lemma chain_functional (h : gmap positive Job) (l1 : list positive) :
  forall head l2, chain h head l1 -> chain h head l2 -> l1 = l2.
Proof.
  induction l1 as [|x l1 IH]; intros head [|y l2] H1 H2; simpl in *.
  - reflexivity.
  - destruct H2 as [H2 _]. congruence.
  - destruct H1 as [H1 _]. congruence.
  - destruct H1 as (-> & J1 & HJ1 & _ & _ & _ & Hr1).
    destruct H2 as ([= <-] & J2 & HJ2 & _ & _ & _ & Hr2).
    rewrite HJ1 in HJ2. injection HJ2 as <-.
    f_equal. eapply IH; eauto.
Qed.

Lemma chain_suffix (h : gmap positive Job) (a : list positive) :
  forall head j b, chain h head (a ++ j :: b) -> chain h (Some j) (j :: b).
Proof.
  induction a as [|x a IH]; intros head j b Hc; simpl in Hc.
  - destruct Hc as (-> & Hc). simpl. auto.
  - destruct Hc as (-> & J & _ & _ & _ & _ & Hr). eapply IH; eauto.
Qed.

(** A list that ends in a null link has no record twice. *)
Lemma chain_NoDup (h : gmap positive Job) (l : list positive) :
  forall head, chain h head l -> NoDup l.
Proof.
  induction l as [|x l IH]; intros head Hc.
  - constructor.
  - pose proof Hc as Hc0.
    simpl in Hc. destruct Hc as (-> & J & HJ & _ & _ & _ & Hr).
    constructor; [|eapply IH; eauto].
    intros Hin. apply list_elem_of_split in Hin as (a & b & ->).
    pose proof (chain_suffix _ _ _ _ _ Hr) as Hs.
    pose proof (chain_functional _ _ _ _ Hc0 Hs) as Heq.
    apply (f_equal length) in Heq. simpl in Heq.
    rewrite length_app in Heq. simpl in Heq. lia.
Qed.

Lemma chain_delete_fresh (h : gmap positive Job) (l : list positive)
    (head : option ptr) (j : ptr) :
  j ∉ l -> chain h head l -> chain (delete j h) head l.
Proof.
  revert head. induction l as [|x l IH]; intros head Hnl Hc; simpl in *.
  - exact Hc.
  - destruct Hc as (-> & J & HJ & Hk & Hn & Ha & Hrest).
    apply not_elem_of_cons in Hnl as [Hne Hnl].
    split; [reflexivity|]. exists J.
    rewrite lookup_delete_ne by congruence.
    split; [exact HJ|]. repeat (split; [assumption|]).
    now apply IH.
Qed.

(** The loop of [DeleteOldJobs] returns every record of the delete list to
    the pool, in list order. *)
Lemma DeleteOldJobs_loop_Ok (l : list positive) :
  forall (fuel : nat) (s : State),
  chain (heap s) (m_deleteJobList s) l ->
  (length l <= fuel)%nat ->
  exists s',
    DeleteOldJobs_loop fuel s = Ok (tt, s') /\
    trace s' = trace s ++ map EvPoolDeallocate l /\
    m_deleteJobList s' = None /\
    g_allocator s' = rev l ++ g_allocator s /\
    (forall j, j ∈ l -> heap s' !! j = None) /\
    (forall j, j ∉ l -> heap s' !! j = heap s !! j) /\
    m_freeJobList s' = m_freeJobList s /\
    m_freeJobListCount s' = m_freeJobListCount s.
Proof.
  induction l as [|x l IH]; intros fuel s Hc Hlen.
  - simpl in Hc. exists s.
    split.
    { destruct fuel; simpl; mnorm; rewrite Hc; reflexivity. }
    simpl. rewrite app_nil_r. repeat split; auto.
    intros j Hj. inversion Hj.
  - pose proof (chain_NoDup _ _ _ Hc) as Hnd.
    apply NoDup_cons in Hnd as [Hnl _].
    simpl in Hc. destruct Hc as (Hhead & J & HJ & _ & _ & _ & Hr).
    destruct fuel as [|fuel]; [simpl in Hlen; lia|].
    cbn [DeleteOldJobs_loop]. mnorm. rewrite Hhead.
    mstep load_Ok. unfold Pool_Deallocate. mnorm.
    match goal with |- context [DeleteOldJobs_loop fuel ?st] => set (s2 := st) end.
    destruct (IH fuel s2) as (s' & Hrun & Ht & Hd & Hp & Hgone & Hkeep & Hf & Hfc).
    { unfold s2. proj. now apply chain_delete_fresh. }
    { simpl in Hlen. lia. }
    exists s'. split; [exact Hrun|].
    unfold s2 in Ht, Hp, Hkeep, Hf, Hfc. proj.
    split; [|split; [|split; [|split; [|split]]]].
    + rewrite Ht. cbn [map]. now rewrite <- app_assoc.
    + exact Hd.
    + rewrite Hp. cbn [rev]. now rewrite <- app_assoc.
    + intros j Hj. apply elem_of_cons in Hj as [->|Hj]; [|now apply Hgone].
      rewrite Hkeep by assumption. apply lookup_delete_eq.
    + intros j Hj. apply not_elem_of_cons in Hj as [Hne Hj].
      rewrite Hkeep by assumption. now apply lookup_delete_ne.
    + auto.
Qed.
(** ** The completion protocol along the parent line *)

Lemma OnJobDone_not_last (fuel : nat) (j : ptr) (J : Job) (s : State) :
  heap s !! j = Some J -> m_jobsLeft J <> 1 ->
  OnJobDone (S fuel) j s = Ok (tt, after_fetch_sub j J s).
Proof.
  intros HJ Hne. cbn [OnJobDone].
  rewrite (bind_Ok _ _ _ _ _ (fetch_sub_Ok _ _ _ HJ)).
  destruct (Z.eqb_spec (m_jobsLeft J) 1) as [Heq|_]; [contradiction|].
  reflexivity.
Qed.


Lemma heap_recycled (j : ptr) (J : Job) (s : State) :
  heap (recycled j J s)
  = <[j := set_parent (if 100 <=? m_freeJobListCount s
                       then m_deleteJobList s else m_freeJobList s)
                      (Job_Reset J)]> (heap s).
Proof. unfold recycled. now destruct (100 <=? m_freeJobListCount s). Qed.

Lemma trace_recycled (j : ptr) (J : Job) (s : State) :
  trace (recycled j J s)
  = trace s ++ [EvRecycle j (if 100 <=? m_freeJobListCount s
                             then DeleteList else FreeList)].
Proof. unfold recycled. now destruct (100 <=? m_freeJobListCount s). Qed.

Lemma queues_recycled (j : ptr) (J : Job) (s : State) :
  m_localQueues (recycled j J s) = m_localQueues s /\
  m_globalQueues (recycled j J s) = m_globalQueues s.
Proof. unfold recycled. now destruct (100 <=? m_freeJobListCount s). Qed.

(** One level of [OnJobDone] on a record whose counter is 1 and which has
    no continuation: the decrement, the completion of the parent, the
    recycling. *)
Lemma OnJobDone_finished (fuel : nat) (j : ptr) (J J2 : Job) (s s2 : State) :
  heap s !! j = Some J -> m_jobsLeft J = 1 -> m_continuation J = None ->
  match m_parent J with
  | Some p => OnJobDone fuel p (after_fetch_sub j J s) = Ok (tt, s2)
  | None => s2 = after_fetch_sub j J s
  end ->
  heap s2 !! j = Some J2 ->
  OnJobDone (S fuel) j s = Ok (tt, recycled j J2 s2).
Proof.
  intros HJ Hn Hk Hup HJ2. cbn [OnJobDone].
  rewrite (bind_Ok _ _ _ _ _ (fetch_sub_Ok _ _ _ HJ)).
  rewrite Hn. change (1 =? 1) with true. cbv iota.
  assert (Hl : load j (after_fetch_sub j J s)
               = Ok (set_jobsLeft (wrap_int (m_jobsLeft J - 1)) J,
                     after_fetch_sub j J s)).
  { apply load_Ok. unfold after_fetch_sub. proj. apply lookup_insert_eq. }
  mnorm. rewrite (bind_Ok _ _ _ _ _ Hl). proj. rewrite Hk. mnorm.
  rewrite (bind_Ok _ _ _ _ _ Hl). proj.
  destruct (m_parent J) as [p|].
  - rewrite (bind_Ok _ _ _ _ _ Hup). now apply DeallocateJob_Ok.
  - subst s2. mnorm. now apply DeallocateJob_Ok.
Qed.

Lemma finishing_insert (h : gmap positive Job) (l : list positive) :
  forall (j x : ptr) (X : Job) (top : option ptr),
  x ∉ j :: l -> finishing h j l top -> finishing (<[x := X]> h) j l top.
Proof.
  induction l as [|p l IH]; intros j x X top Hx (J & HJ & Hn & Hk & Hrest);
    apply not_elem_of_cons in Hx as [Hne Hx];
    exists J; (split; [rewrite lookup_insert_ne by congruence; exact HJ|]);
    split; [exact Hn | | exact Hn | ]; (split; [exact Hk|]).
  - exact Hrest.
  - destruct Hrest as [Hp Hrest]. split; [exact Hp|]. now apply IH.
Qed.

Lemma lists_recycled (j : ptr) (J : Job) (s : State) :
  m_freeJobList (recycled j J s) = Some j \/
  m_deleteJobList (recycled j J s) = Some j.
Proof.
  unfold recycled. destruct (100 <=? m_freeJobListCount s); [right|left];
    reflexivity.
Qed.

(** [OnJobDone] along a line of ancestors that this completion finishes:
    the decrements upwards, the decrement of the first ancestor that waits,
    the recycling downwards; the record the call was made for is recycled
    last and ends as the head of the free list or of the delete list. *)
Lemma OnJobDone_chain (fuel : nat) (j : ptr) (l : list positive)
    (top : option ptr) (s : State) :
  finishing (heap s) j l top ->
  NoDup (j :: l) ->
  top_waits (heap s) (j :: l) top ->
  (length l + 2 <= fuel)%nat ->
  exists s' evs,
    OnJobDone fuel j s = Ok (tt, s') /\
    trace s' = trace s ++ map (fun x => EvFetchSub x 1) (j :: l) ++
               decrement_of (heap s) top ++ evs /\
    Forall2 recycles (rev (j :: l)) evs /\
    (forall x, x ∉ j :: l -> top <> Some x -> heap s' !! x = heap s !! x) /\
    (forall x, x ∈ j :: l ->
       exists X, heap s' !! x = Some X /\ m_functorActive X = false /\
                 m_jobsLeft X = 1 /\ m_continuation X = None) /\
    (forall t T, top = Some t -> heap s !! t = Some T ->
       heap s' !! t = Some (set_jobsLeft (wrap_int (m_jobsLeft T - 1)) T)) /\
    m_localQueues s' = m_localQueues s /\
    m_globalQueues s' = m_globalQueues s /\
    (m_freeJobList s' = Some j \/ m_deleteJobList s' = Some j).
Proof.
  revert fuel j top s.
  induction l as [|p l IH]; intros fuel j top s (J & HJ & Hn & Hk & Hrest)
    Hnd Htop Hfuel.
  - (* [j] is the last record this completion finishes *)
    destruct fuel as [|[|fuel]]; [simpl in Hfuel; lia.. |].
    cbn [map rev app].
    destruct top as [t|].
    + destruct Htop as (Htj & T & HT & HTn).
      apply not_elem_of_cons in Htj as [Htj _].
      assert (HT1 : heap (after_fetch_sub j J s) !! t = Some T).
      { unfold after_fetch_sub. proj. now rewrite lookup_insert_ne by congruence. }
      pose proof (OnJobDone_not_last fuel t T _ HT1 HTn) as Hup.
      eexists. eexists. split.
      { apply (OnJobDone_finished (S fuel) j J
                 (set_jobsLeft (wrap_int (m_jobsLeft J - 1)) J) s
                 (after_fetch_sub t T (after_fetch_sub j J s)) HJ Hn Hk).
        - rewrite Hrest. exact Hup.
        - unfold after_fetch_sub. proj.
          rewrite lookup_insert_ne by congruence. apply lookup_insert_eq. }
      rewrite trace_recycled, heap_recycled. unfold after_fetch_sub. proj.
      cbn [decrement_of]. rewrite HT, Hn.
      split; [rewrite <- !app_assoc; reflexivity|].
      split; [repeat constructor; eexists; reflexivity|].
      split.
      { intros x Hx Hxt. apply not_elem_of_cons in Hx as [Hx _].
        rewrite !lookup_insert_ne by congruence. reflexivity. }
      split.
      { intros x Hx. apply list_elem_of_singleton in Hx. subst x.
        eexists. rewrite lookup_insert_eq. split; [reflexivity|].
        unfold Job_Reset. proj. auto. }
      split; [|split; [rewrite (proj1 (queues_recycled _ _ _)); reflexivity |
               split; [rewrite (proj2 (queues_recycled _ _ _)); reflexivity |
                       apply lists_recycled]]].
      intros t' T' [= <-] HT'. assert (T' = T) as -> by congruence.
      rewrite lookup_insert_ne by congruence. apply lookup_insert_eq.
    + eexists. eexists. split.
      { apply (OnJobDone_finished (S fuel) j J
                 (set_jobsLeft (wrap_int (m_jobsLeft J - 1)) J) s
                 (after_fetch_sub j J s) HJ Hn Hk).
        - rewrite Hrest. reflexivity.
        - unfold after_fetch_sub. proj. apply lookup_insert_eq. }
      rewrite trace_recycled, heap_recycled. unfold after_fetch_sub. proj.
      cbn [decrement_of app]. rewrite Hn.
      split; [rewrite <- !app_assoc; reflexivity|].
      split; [repeat constructor; eexists; reflexivity|].
      split.
      { intros x Hx _. apply not_elem_of_cons in Hx as [Hx _].
        rewrite !lookup_insert_ne by congruence. reflexivity. }
      split.
      { intros x Hx. apply list_elem_of_singleton in Hx. subst x.
        eexists. rewrite lookup_insert_eq. split; [reflexivity|].
        unfold Job_Reset. proj. auto. }
      split; [|split; [rewrite (proj1 (queues_recycled _ _ _)); reflexivity |
               split; [rewrite (proj2 (queues_recycled _ _ _)); reflexivity |
                       apply lists_recycled]]].
      intros t T [=].
  - (* the parent [p] is finished by this completion too *)
    destruct Hrest as [Hp Hrest].
    destruct fuel as [|fuel]; [simpl in Hfuel; lia|].
    pose proof Hnd as Hnd0.
    apply NoDup_cons in Hnd as [Hjl Hnd].
    set (s1 := after_fetch_sub j J s).
    assert (Hh1 : heap s1 = <[j := set_jobsLeft (wrap_int (m_jobsLeft J - 1)) J]> (heap s))
      by reflexivity.
    assert (Hfin1 : finishing (heap s1) p l top).
    { rewrite Hh1. apply finishing_insert; assumption. }
    assert (Htop1 : top_waits (heap s1) (p :: l) top).
    { destruct top as [t|]; [|exact I].
      destruct Htop as (Ht & T & HT & HTn).
      apply not_elem_of_cons in Ht as [Htj Ht].
      split; [exact Ht|]. exists T.
      rewrite Hh1, lookup_insert_ne by congruence. auto. }
    destruct (IH fuel p top s1 Hfin1 Hnd Htop1) as
      (s2 & evs & Hrun & Htr & Hev & Hframe & Hreset & Hdec & Hlq & Hgq & _);
      [simpl in Hfuel |- *; lia|].
    assert (Hjtop : top <> Some j).
    { intros ->. destruct Htop as (Ht & _). apply Ht. left. }
    assert (HJ2 : heap s2 !! j = Some (set_jobsLeft (wrap_int (m_jobsLeft J - 1)) J)).
    { rewrite (Hframe j Hjl Hjtop), Hh1. apply lookup_insert_eq. }
    eexists. eexists. split.
    { apply (OnJobDone_finished fuel j J
               (set_jobsLeft (wrap_int (m_jobsLeft J - 1)) J) s s2 HJ Hn Hk);
        [|exact HJ2].
      rewrite Hp. exact Hrun. }
    rewrite trace_recycled, heap_recycled, Htr.
    assert (Hdecr : decrement_of (heap s1) top = decrement_of (heap s) top).
    { destruct top as [t|]; [|reflexivity]. cbn [decrement_of].
      destruct Htop as (Ht & _). apply not_elem_of_cons in Ht as [Htj _].
      rewrite Hh1, lookup_insert_ne by congruence. reflexivity. }
    rewrite Hdecr. subst s1. unfold after_fetch_sub at 1. proj.
    split.
    { rewrite Hn. cbn [map]. rewrite <- !app_assoc. cbn [app].
      rewrite <- ?app_assoc. reflexivity. }
    split.
    { change (rev (j :: p :: l)) with (rev (p :: l) ++ [j]).
      apply Forall2_app; [exact Hev|]. repeat constructor. eexists. reflexivity. }
    split.
    { intros x Hx Hxt. apply not_elem_of_cons in Hx as [Hxj Hx].
      rewrite lookup_insert_ne by congruence.
      rewrite (Hframe x Hx Hxt), Hh1.
      now rewrite lookup_insert_ne by congruence. }
    split.
    { intros x Hx. apply elem_of_cons in Hx as [-> | Hx].
      - eexists. rewrite lookup_insert_eq. split; [reflexivity|].
        unfold Job_Reset. proj. auto.
      - assert (x <> j) by (intros ->; contradiction).
        rewrite lookup_insert_ne by congruence. now apply Hreset. }
    split.
    { intros t T -> HT. destruct Htop as (Ht & _).
      apply not_elem_of_cons in Ht as [Htj _].
      rewrite lookup_insert_ne by congruence. apply Hdec; [reflexivity|].
      rewrite Hh1, lookup_insert_ne by congruence. exact HT. }
    split; [rewrite (proj1 (queues_recycled _ _ _)), Hlq; reflexivity |
            split; [rewrite (proj2 (queues_recycled _ _ _)), Hgq; reflexivity |
                    apply lists_recycled]].
Qed.

(** ** The completion of a job that has a continuation *)









(** ** The completion protocol, one call *)



(** ** Job selection in Work *)

Lemma Pop_empty (q : QueueId) (s : State) :
  queue_is q [] s ->
  Pop q s = Ok (None, probed [EvPop q None] s).
Proof.
  intros H. unfold Pop. rewrite (bind_Ok _ _ _ _ _ (queue_at_Ok _ _ _ H)).
  reflexivity.
Qed.

Lemma Pop_head (q : QueueId) (j : ptr) (d : list positive) (s : State) :
  queue_is q (j :: d) s ->
  Pop q s = Ok (Some j, popped q d j s).
Proof.
  intros H. unfold Pop. rewrite (bind_Ok _ _ _ _ _ (queue_at_Ok _ _ _ H)).
  destruct q; reflexivity.
Qed.

Lemma probed_probed (e1 e2 : list Event) (s : State) :
  probed e2 (probed e1 s) = probed (e1 ++ e2) s.
Proof. unfold probed. proj. now rewrite app_assoc. Qed.

(** The stealing loop finds nothing in [k] queues and a job in the next. *)
Lemma steal_found (k : nat) :
  forall (remaining : nat) (i : Z) (s : State) (j : ptr) (d : list positive),
  (k < remaining)%nat ->
  0 <= i -> i + Z.of_nat k < 2 ^ 32 ->
  (forall x, i <= x < i + Z.of_nat k -> queue_is (Global (probe s x)) [] s) ->
  queue_is (Global (probe s (i + Z.of_nat k))) (j :: d) s ->
  steal remaining i s =
    Ok (Some j,
        popped (Global (probe s (i + Z.of_nat k))) d j
          (probed (map (fun x => EvPop (Global (probe s x)) None)
                       (seqZ i (Z.of_nat k))) s)).
Proof.
  induction k as [|k IH]; intros remaining i s j d Hk Hi Hb Hempty Hq.
  - destruct remaining as [|remaining]; [lia|].
    cbn [steal]. mnorm. fold (probe s i).
    replace (i + Z.of_nat 0) with i in * by lia.
    rewrite (bind_Ok _ _ _ _ _ (Pop_head _ _ _ _ Hq)).
    unfold ret. do 2 f_equal. unfold popped, probed. proj.
    destruct s; simpl. now rewrite app_nil_r.
  - destruct remaining as [|remaining]; [lia|].
    cbn [steal]. mnorm. fold (probe s i).
    rewrite (bind_Ok _ _ _ _ _ (Pop_empty _ _ (Hempty i ltac:(lia)))).
    unfold wrap_uint at 1. rewrite Z.mod_small by lia.
    set (s1 := probed [EvPop (Global (probe s i)) None] s).
    assert (Hprobe : forall x, probe s1 x = probe s x) by reflexivity.
    rewrite (IH remaining (i + 1) s1 j d); try lia.
    + rewrite !Hprobe. replace (i + 1 + Z.of_nat k) with (i + Z.of_nat (S k)) by lia.
      unfold s1. rewrite probed_probed. do 3 f_equal.
      replace (Z.of_nat (S k)) with (Z.succ (Z.of_nat k)) by lia.
      rewrite (seqZ_cons i) by lia. cbn [map app].
      replace (Z.succ i) with (i + 1) by lia.
      replace (Z.pred (Z.succ (Z.of_nat k))) with (Z.of_nat k) by lia.
      reflexivity.
    + intros x Hx. rewrite Hprobe. destruct (Hempty x ltac:(lia)) as [H0 H1].
      split; assumption.
    + rewrite Hprobe. replace (i + 1 + Z.of_nat k) with (i + Z.of_nat (S k)) by lia.
      destruct Hq as [H0 H1]. split; assumption.
Qed.

(** The stealing loop finds every queue empty. *)
Lemma steal_nothing (remaining : nat) :
  forall (i : Z) (s : State),
  0 <= i -> i + Z.of_nat remaining <= 2 ^ 32 ->
  (forall x, i <= x < i + Z.of_nat remaining ->
             queue_is (Global (probe s x)) [] s) ->
  steal remaining i s =
    Ok (None,
        probed (map (fun x => EvPop (Global (probe s x)) None)
                    (seqZ i (Z.of_nat remaining))) s).
Proof.
  induction remaining as [|n IH]; intros i s Hi Hb Hempty.
  - cbn [steal]. unfold ret, probed. cbn [Z.of_nat seqZ map].
    destruct s; simpl. now rewrite app_nil_r.
  - cbn [steal]. mnorm. fold (probe s i).
    rewrite (bind_Ok _ _ _ _ _ (Pop_empty _ _ (Hempty i ltac:(lia)))).
    destruct (Z.eq_dec (Z.of_nat n) 0) as [Hn0|Hn0].
    + assert (n = O) by lia. subst n. cbn [steal]. unfold ret.
      rewrite (seqZ_cons i) by lia. cbn [map Z.of_nat Z.pred Z.succ Pos.pred_double seqZ].
      reflexivity.
    + unfold wrap_uint at 1. rewrite Z.mod_small by lia.
      set (s1 := probed [EvPop (Global (probe s i)) None] s).
      assert (Hprobe : forall x, probe s1 x = probe s x) by reflexivity.
      rewrite (IH (i + 1) s1); try lia.
      * unfold s1. rewrite probed_probed. do 3 f_equal.
        replace (Z.of_nat (S n)) with (Z.succ (Z.of_nat n)) by lia.
        rewrite (seqZ_cons i) by lia. cbn [map app].
        replace (Z.succ i) with (i + 1) by lia.
        replace (Z.pred (Z.succ (Z.of_nat n))) with (Z.of_nat n) by lia.
        reflexivity.
      * intros x Hx. rewrite Hprobe. destruct (Hempty x ltac:(lia)) as [H0 H1].
        split; assumption.
Qed.

Lemma probe_round_robin (s : State) (x : Z) :
  worker_ok s -> 0 <= x < m_threadCount s ->
  probe s x = (m_threadIndex s + x) mod m_threadCount s.
Proof.
  intros (Ht & Hn & _) Hx. unfold probe, wrap_uint.
  rewrite (Z.mod_small (x + m_threadIndex s) (2 ^ 32)) by lia. f_equal. lia.
Qed.

Lemma round_robin_split (t N : Z) (pre post : list Z) (q : Z) :
  round_robin t N = pre ++ q :: post ->
  Z.of_nat (length pre) < N /\
  pre = map (fun i => (t + i) mod N) (seqZ 0 (Z.of_nat (length pre))) /\
  q = (t + Z.of_nat (length pre)) mod N.
Proof.
  intros H. unfold round_robin in H.
  assert (Hlen : Z.of_nat (length pre) < N).
  { apply (f_equal length) in H.
    rewrite length_map, length_seqZ, length_app in H. simpl in H. lia. }
  split; [exact Hlen|].
  assert (Hseq : seqZ 0 N =
            seqZ 0 (Z.of_nat (length pre)) ++
            seqZ (Z.of_nat (length pre)) (N - Z.of_nat (length pre))).
  { rewrite <- (seqZ_app 0) by lia. f_equal. lia. }
  rewrite Hseq, map_app in H.
  apply app_inj_1 in H as [H1 H2].
  - split; [now symmetry|].
    rewrite seqZ_cons in H2 by lia. cbn [map] in H2. now injection H2 as <- _.
  - rewrite length_map, length_seqZ. lia.
Qed.

Lemma round_robin_starts_at_own (t N : Z) :
  0 <= t < N -> round_robin t N !! 0%nat = Some t.
Proof.
  intros H. unfold round_robin. rewrite seqZ_cons by lia. cbn [map lookup list_lookup].
  f_equal. rewrite Z.add_0_r. apply Z.mod_small. lia.
Qed.

(** The job [Work] selects, case by case. *)
Lemma Work_select_cases (s : State) :
  worker_ok s ->
  round_robin (m_threadIndex s) (m_threadCount s) !! 0%nat
    = Some (m_threadIndex s) /\
  (forall j d,
      queue_is (Local (m_threadIndex s)) (j :: d) s ->
      Work_select s = Ok (Some j, popped (Local (m_threadIndex s)) d j s)) /\
  (forall pre q post j d,
      queue_is (Local (m_threadIndex s)) [] s ->
      round_robin (m_threadIndex s) (m_threadCount s) = pre ++ q :: post ->
      (forall x, x ∈ pre -> queue_is (Global x) [] s) ->
      queue_is (Global q) (j :: d) s ->
      Work_select s =
        Ok (Some j,
            popped (Global q) d j
              (probed (EvPop (Local (m_threadIndex s)) None ::
                       map (fun x => EvPop (Global x) None) pre) s))) /\
  (queue_is (Local (m_threadIndex s)) [] s ->
   (forall x, x ∈ round_robin (m_threadIndex s) (m_threadCount s) ->
              queue_is (Global x) [] s) ->
   Work_select s =
     Ok (None,
         probed (EvPop (Local (m_threadIndex s)) None ::
                 map (fun x => EvPop (Global x) None)
                     (round_robin (m_threadIndex s) (m_threadCount s))) s)) /\
  (forall fuel j s1,
      Work_select s = Ok (Some j, s1) ->
      Work fuel s =
        (ExecuteJob fuel j ;; ret true) (with_runningJob (Some j) s1)).
Proof.
  intros Hok. pose proof Hok as (Ht & Hn & Hll & Hlg).
  split; [now apply round_robin_starts_at_own|].
  split; [|split; [|split]].
  - intros j d Hq. unfold Work_select. mnorm.
    rewrite (bind_Ok _ _ _ _ _ (Pop_head _ _ _ _ Hq)). reflexivity.
  - intros pre q post j d Hl Hrr Hpre Hq.
    apply round_robin_split in Hrr as (Hk & Hpre_eq & Hq_eq).
    set (k := length pre) in *. clearbody k.
    unfold Work_select. mnorm.
    rewrite (bind_Ok _ _ _ _ _ (Pop_empty _ _ Hl)).
    set (s1 := probed [EvPop (Local (m_threadIndex s)) None] s).
    assert (Hprobe : forall x, 0 <= x < m_threadCount s ->
              probe s1 x = (m_threadIndex s + x) mod m_threadCount s).
    { intros x Hx. now apply (probe_round_robin s). }
    rewrite (steal_found k (Z.to_nat (m_threadCount s)) 0 s1 j d); try lia.
    + rewrite Z.add_0_l, Hprobe, <- Hq_eq by lia.
      unfold s1. rewrite probed_probed. do 3 f_equal. cbn [app]. f_equal.
      rewrite Hpre_eq, map_map. f_equal.
      apply map_ext_in. intros x Hx.
      apply list_elem_of_In, elem_of_seqZ in Hx.
      change (probe (probed [EvPop (Local (m_threadIndex s)) None] s) x)
        with (probe s1 x).
      now rewrite Hprobe by lia.
    + intros x Hx. rewrite Hprobe by lia.
      assert (Hin : (m_threadIndex s + x) mod m_threadCount s ∈ pre).
      { rewrite Hpre_eq. apply list_elem_of_In, in_map_iff. exists x.
        split; [reflexivity|]. apply list_elem_of_In, elem_of_seqZ. lia. }
      destruct (Hpre _ Hin) as [H0 H1]. split; assumption.
    + rewrite Z.add_0_l, Hprobe, <- Hq_eq by lia.
      destruct Hq as [H0 H1]. split; assumption.
  - intros Hl Hall. unfold Work_select. mnorm.
    rewrite (bind_Ok _ _ _ _ _ (Pop_empty _ _ Hl)).
    set (s1 := probed [EvPop (Local (m_threadIndex s)) None] s).
    assert (Hprobe : forall x, 0 <= x < m_threadCount s ->
              probe s1 x = (m_threadIndex s + x) mod m_threadCount s).
    { intros x Hx. now apply (probe_round_robin s). }
    rewrite (steal_nothing (Z.to_nat (m_threadCount s)) 0 s1); try lia.
    + unfold s1. rewrite probed_probed. do 3 f_equal. cbn [app]. f_equal.
      unfold round_robin. rewrite map_map, Z2Nat.id by lia.
      apply map_ext_in. intros x Hx.
      apply list_elem_of_In, elem_of_seqZ in Hx.
      change (probe (probed [EvPop (Local (m_threadIndex s)) None] s) x)
        with (probe s1 x).
      now rewrite Hprobe by lia.
    + intros x Hx. rewrite Hprobe by lia.
      assert (Hin : (m_threadIndex s + x) mod m_threadCount s
                    ∈ round_robin (m_threadIndex s) (m_threadCount s)).
      { apply list_elem_of_In, in_map_iff. exists x.
        split; [reflexivity|]. apply list_elem_of_In, elem_of_seqZ. lia. }
      destruct (Hall _ Hin) as [H0 H1]. split; assumption.
  - intros fuel j s1 Hsel. unfold Work.
    rewrite (bind_Ok _ _ _ _ _ Hsel). mnorm. reflexivity.
Qed.


(** ** What Work returns *)

Lemma Pop_inv (q : QueueId) (r : option ptr) (s s' : State) :
  Pop q s = Ok (r, s') ->
  same_but_queues s s' /\ trace s' = trace s ++ [EvPop q r].
Proof.
  unfold Pop. intros H. apply bind_inv in H as (d & s1 & Hq & H).
  apply queue_at_inv in Hq as [-> _].
  destruct d as [|j d].
  - injection H as <- <-. split; [|reflexivity]. repeat split.
  - destruct q; injection H as <- <-; (split; [|reflexivity]); repeat split.
Qed.

Lemma same_but_queues_trans (s1 s2 s3 : State) :
  same_but_queues s1 s2 -> same_but_queues s2 s3 -> same_but_queues s1 s3.
Proof.
  unfold same_but_queues. intros H1 H2.
  destruct H1 as (?&?&?&?&?&?&?&?&?&?), H2 as (?&?&?&?&?&?&?&?&?&?).
  repeat split; congruence.
Qed.

Lemma steal_inv (remaining : nat) :
  forall (i : Z) (r : option ptr) (s s' : State),
  steal remaining i s = Ok (r, s') ->
  same_but_queues s s' /\
  exists pops, trace s' = trace s ++ pops /\ Forall is_pop pops /\
               (r = None -> Forall (fun e => ~ is_successful_pop e) pops).
Proof.
  induction remaining as [|n IH]; intros i r s s' H; cbn [steal] in H.
  - injection H as <- <-. split; [repeat split|].
    exists []. rewrite app_nil_r. repeat split; constructor.
  - mnorm_in H. apply bind_inv in H as (job & s1 & Hp & H).
    apply Pop_inv in Hp as [Hsame Ht].
    destruct job as [j|].
    + injection H as <- <-. split; [exact Hsame|].
      eexists. split; [exact Ht|]. split; [repeat constructor|].
      intros Hr. discriminate Hr.
    + apply IH in H as (Hsame2 & pops & Ht2 & Hpops & Hnone).
      split; [eapply same_but_queues_trans; eauto|].
      exists (EvPop (Global (wrap_uint (i + m_threadIndex s) mod m_threadCount s)) None :: pops).
      split; [rewrite Ht2, Ht, <- app_assoc; reflexivity|].
      split; [constructor; [exact I | exact Hpops]|].
      intros Hr. constructor; [simpl; tauto | auto].
Qed.

Lemma Work_select_inv (r : option ptr) (s s' : State) :
  Work_select s = Ok (r, s') ->
  same_but_queues s s' /\
  exists pops, trace s' = trace s ++ pops /\ Forall is_pop pops /\
               (r = None -> Forall (fun e => ~ is_successful_pop e) pops).
Proof.
  unfold Work_select. mnorm. intros H.
  apply bind_inv in H as (loc & s1 & Hp & H).
  apply Pop_inv in Hp as [Hsame Ht].
  destruct loc as [j|].
  - injection H as <- <-. split; [exact Hsame|].
    eexists. split; [exact Ht|]. split; [repeat constructor|].
    intros Hr. discriminate Hr.
  - apply steal_inv in H as (Hsame2 & pops & Ht2 & Hpops & Hnone).
    split; [eapply same_but_queues_trans; eauto|].
    exists (EvPop (Local (m_threadIndex s)) None :: pops).
    split; [rewrite Ht2, Ht, <- app_assoc; reflexivity|].
    split; [constructor; [exact I | exact Hpops]|].
    intros Hr. constructor; [simpl; tauto | auto].
Qed.

(** The three ways through [Work]. *)
Lemma Work_inv (fuel : nat) (b : bool) (s s' : State) :
  Work fuel s = Ok (b, s') ->
  exists job s1,
    Work_select s = Ok (job, s1) /\
    match job with
    | Some j =>
        b = true /\
        ExecuteJob fuel j (with_runningJob (Some j) s1) = Ok (tt, s')
    | None =>
        match m_deleteJobList s with
        | Some _ =>
            b = false /\
            DeleteOldJobs fuel (with_runningJob None s1) = Ok (tt, s')
        | None => b = true /\ s' = with_runningJob None s1
        end
    end.
Proof.
  unfold Work. intros H. apply bind_inv in H as (job & s1 & Hsel & H).
  exists job, s1. split; [exact Hsel|].
  apply Work_select_inv in Hsel as ((_&_&_&_&_&_&_&_&Hdl&_) & _).
  mnorm_in H. destruct job as [j|].
  - apply bind_inv in H as ([] & s2 & He & H). injection H as <- <-. auto.
  - mnorm_in H. rewrite Hdl in H. destruct (m_deleteJobList s).
    + apply bind_inv in H as ([] & s2 & He & H). injection H as <- <-. auto.
    + injection H as <- <-. auto.
Qed.

Lemma emits_DeleteOldJobs_loop (fuel : nat) :
  emits drain_event (DeleteOldJobs_loop fuel).
Proof.
  induction fuel as [|fuel IH]; cbn [DeleteOldJobs_loop].
  - emits_auto ltac:(exact I).
  - apply emits_bind; [apply emits_get|]. intros s.
    destruct (m_deleteJobList s); [|apply emits_ret].
    apply emits_bind; [apply emits_load|]. intros J.
    apply emits_bind; [apply emits_modify_deleteList|]. intros _.
    apply emits_bind; [apply (emits_modify_heap _ (fun s => delete p (heap s)))|].
    intros _.
    apply emits_bind; [|intros _; exact IH].
    unfold Pool_Deallocate.
    apply emits_bind; [apply (emits_modify_pool _ (fun s => p :: g_allocator s))|].
    intros _. apply emits_emit. exact I.
Qed.

Lemma emits_DeleteOldJobs (fuel : nat) : emits drain_event (DeleteOldJobs fuel).
Proof.
  unfold DeleteOldJobs.
  apply emits_bind; [apply emits_emit; exact I|]. intros _.
  apply emits_bind; [apply emits_DeleteOldJobs_loop|]. intros _.
  apply emits_bind; [apply emits_modify_deleteList|]. intros _.
  apply emits_emit. exact I.
Qed.

Lemma WorkerThread_body_inv (fuel : nat) (s s2 : State) :
  WorkerThread_body fuel s = Ok (tt, s2) ->
  exists b s',
    Work fuel s = Ok (b, s') /\
    s2 = if b then with_trace (trace s' ++ [EvWaitFor 1000]) s' else s'.
Proof.
  unfold WorkerThread_body. intros H.
  apply bind_inv in H as (b & s' & Hw & H).
  exists b, s'. split; [exact Hw|].
  destruct b; now injection H as <-.
Qed.

(** A worker that finds every queue empty. *)
Lemma Work_select_nothing (s : State) :
  worker_ok s ->
  queue_is (Local (m_threadIndex s)) [] s ->
  (forall x, x ∈ round_robin (m_threadIndex s) (m_threadCount s) ->
             queue_is (Global x) [] s) ->
  Work_select s =
    Ok (None,
        probed (EvPop (Local (m_threadIndex s)) None ::
                map (fun x => EvPop (Global x) None)
                    (round_robin (m_threadIndex s) (m_threadCount s))) s).
Proof.
  intros Hok Hl Hg.
  destruct (Work_select_cases s Hok) as (_ & _ & _ & Hnone & _). auto.
Qed.

(** C7, as the code has it: [Work] returns [false] exactly when it obtained
    no job and the delete list was not empty, and [true] otherwise, so after
    executing a job and also when it was idle; the body of the worker loop
    waits on the condition variable, for at most 1000 microseconds, exactly
    when [Work] returned [true].  A worker that finds all queues empty gets
    [true] and waits when its delete list is empty, and gets [false] and
    does not wait when it had a delete list to drain. *)
Theorem Work_result_and_wait (fuel : nat) (s : State) :
  (forall b s',
      Work fuel s = Ok (b, s') ->
      exists job s1,
        Work_select s = Ok (job, s1) /\
        (b = false <-> job = None /\ m_deleteJobList s <> None)) /\
  (forall s2,
      WorkerThread_body fuel s = Ok (tt, s2) ->
      exists b s',
        Work fuel s = Ok (b, s') /\
        (b = true -> trace s2 = trace s' ++ [EvWaitFor 1000]) /\
        (b = false -> s2 = s')) /\
  (worker_ok s ->
   queue_is (Local (m_threadIndex s)) [] s ->
   (forall x, x ∈ round_robin (m_threadIndex s) (m_threadCount s) ->
              queue_is (Global x) [] s) ->
   (m_deleteJobList s = None ->
    exists s' s2,
      Work fuel s = Ok (true, s') /\
      WorkerThread_body fuel s = Ok (tt, s2) /\
      trace s2 = trace s' ++ [EvWaitFor 1000]) /\
   (forall dl,
      m_deleteJobList s <> None ->
      chain (heap s) (m_deleteJobList s) dl ->
      (length dl <= fuel)%nat ->
      exists s',
        Work fuel s = Ok (false, s') /\
        WorkerThread_body fuel s = Ok (tt, s') /\
        Forall (fun e => e <> EvWaitFor 1000) (drop (length (trace s)) (trace s')))).
Proof.
  split; [|split].
  - intros b s' H. apply Work_inv in H as (job & s1 & Hsel & H).
    exists job, s1. split; [exact Hsel|].
    destruct job as [j|].
    + destruct H as [-> _]. split; [discriminate|]. intros [H _]. discriminate H.
    + destruct (m_deleteJobList s) as [x|].
      * destruct H as [-> _]. split; [|reflexivity]. intros _.
        split; [reflexivity | discriminate].
      * destruct H as [-> _]. split; [discriminate|]. intros [_ H]. contradiction.
  - intros s2 H. apply WorkerThread_body_inv in H as (b & s' & Hw & ->).
    exists b, s'. split; [exact Hw|]. split; intros ->; reflexivity.
  - intros Hok Hl Hg. pose proof (Work_select_nothing s Hok Hl Hg) as Hsel.
    split.
    + intros Hdl.
      assert (HW : exists s', Work fuel s = Ok (true, s')).
      { unfold Work. rewrite (bind_Ok _ _ _ _ _ Hsel). mnorm.
        unfold probed. proj. rewrite Hdl. eexists. reflexivity. }
      destruct HW as (s' & HW). exists s'. eexists.
      split; [exact HW|]. unfold WorkerThread_body.
      rewrite (bind_Ok _ _ _ _ _ HW). split; reflexivity.
    + intros dl Hne Hc Hlen.
      set (pops := EvPop (Local (m_threadIndex s)) None ::
                   map (fun x => EvPop (Global x) None)
                     (round_robin (m_threadIndex s) (m_threadCount s))) in *.
      set (s1 := with_trace ((trace s ++ pops) ++ [EvLockAlloc])
                   (with_runningJob None (with_trace (trace s ++ pops) s))).
      destruct (DeleteOldJobs_loop_Ok dl fuel s1 Hc Hlen)
        as (s3 & Hloop & Ht3 & _).
      assert (HW : exists s', Work fuel s = Ok (false, s') /\
                trace s' = trace s ++ pops ++ [EvLockAlloc] ++
                           map EvPoolDeallocate dl ++ [EvUnlockAlloc]).
      { unfold Work. rewrite (bind_Ok _ _ _ _ _ Hsel). mnorm.
        unfold probed. proj.
        destruct (m_deleteJobList s) as [x|] eqn:Hx; [|contradiction].
        unfold DeleteOldJobs. mnorm. fold s1.
        rewrite (bind_Ok _ _ _ _ _ Hloop). mnorm.
        eexists. split; [reflexivity|]. proj. rewrite Ht3. unfold s1. proj.
        now rewrite <- !app_assoc. }
      destruct HW as (s' & HW & Ht). exists s'.
      split; [exact HW|]. unfold WorkerThread_body.
      rewrite (bind_Ok _ _ _ _ _ HW). split; [reflexivity|].
      rewrite Ht, drop_app_length.
      apply Forall_app. split.
      * unfold pops. constructor; [discriminate|].
        apply Forall_forall. intros e He.
        apply list_elem_of_In, in_map_iff in He as (y & <- & _). discriminate.
      * constructor; [discriminate|]. apply Forall_app. split.
        -- apply Forall_forall. intros e He.
           apply list_elem_of_In, in_map_iff in He as (y & <- & _). discriminate.
        -- constructor; [discriminate | constructor].
Qed.

Lemma Work_result_and_wait_witness :
  exists s' s2,
    Work 0 idle = Ok (true, s') /\
    WorkerThread_body 0 idle = Ok (tt, s2) /\
    trace s2 = trace s' ++ [EvWaitFor 1000].
Proof.
  destruct (Work_result_and_wait 0 idle) as (_ & _ & Hforward).
  destruct Hforward as [Hidle _].
  - unfold worker_ok. simpl. repeat split; first [lia | reflexivity].
  - split; [simpl; lia | reflexivity].
  - intros x Hx. apply list_elem_of_In in Hx. destruct Hx as [<-|[]].
    split; [vm_compute; discriminate | reflexivity].
  - apply Hidle. reflexivity.
Defined.

(** C7 as the spec words it fails: [Work] gives the same answer, [true], when
    it executed a job and when it was idle, and the loop body waits when the
    worker was idle and does not wait after a drain of the delete list. *)
Lemma Work_idle_true_and_waits :
  (exists s', Work 1 one_job_queued = Ok (true, s') /\
              trace s' = [EvPop (Local 0) (Some 1%positive);
                          EvInvoke 1%positive; EvReturn 1%positive;
                          EvFetchSub 1%positive 1;
                          EvRecycle 1%positive FreeList]) /\
  (exists s', Work 1 idle = Ok (true, s') /\
              trace s' = [EvPop (Local 0) None; EvPop (Global 0) None]) /\
  (exists s', WorkerThread_body 1 idle = Ok (tt, s') /\
              trace s' = [EvPop (Local 0) None; EvPop (Global 0) None;
                          EvWaitFor 1000]) /\
  (exists s', WorkerThread_body 1 housekeeping = Ok (tt, s') /\
              trace s' = [EvPop (Local 0) None; EvPop (Global 0) None;
                          EvLockAlloc; EvPoolDeallocate 5%positive;
                          EvUnlockAlloc]) /\
  ~ spec_wait_rule 1 idle /\
  ~ spec_wait_rule 1 housekeeping.
Proof.
  split; [|split; [|split; [|split; [|split]]]];
    try (eexists; (split; [vm_compute; reflexivity|]); reflexivity).
  - intros [Hwait _].
    destruct Hwait as [(j & s1 & Hsel)|Hdl].
    + eexists. split; [vm_compute; reflexivity|].
      apply list_elem_of_In. simpl. tauto.
    + vm_compute in Hsel. discriminate Hsel.
    + apply Hdl. reflexivity.
  - intros [_ Hwait].
    destruct Hwait as (s2 & Hbody & Hin); [right; discriminate|].
    vm_compute in Hbody. injection Hbody as <-.
    apply list_elem_of_In in Hin. simpl in Hin.
    repeat (destruct Hin as [Hin|Hin]; [discriminate Hin|]). exact Hin.
Qed.

Lemma wrap_size_t_small (x : Z) : 0 <= x < 2 ^ 64 -> wrap_size_t x = x.
Proof. intros H. unfold wrap_size_t. now apply Z.mod_small. Qed.

(** [DeallocateJob] on a record that is on neither list. *)
Lemma DeallocateJob_lists (s : State) (fl dl : list positive) (job : ptr) (J : Job) :
  chain (heap s) (m_freeJobList s) fl ->
  chain (heap s) (m_deleteJobList s) dl ->
  m_freeJobListCount s = Z.of_nat (length fl) ->
  heap s !! job = Some J ->
  job ∉ fl -> job ∉ dl ->
  exists s',
    DeallocateJob job s = Ok (tt, s') /\
    ((length fl < 100)%nat ->
       chain (heap s') (m_freeJobList s') (job :: fl) /\
       m_freeJobListCount s' = Z.of_nat (length (job :: fl)) /\
       chain (heap s') (m_deleteJobList s') dl /\
       trace s' = trace s ++ [EvRecycle job FreeList]) /\
    ((100 <= length fl)%nat ->
       chain (heap s') (m_deleteJobList s') (job :: dl) /\
       chain (heap s') (m_freeJobList s') fl /\
       m_freeJobListCount s' = m_freeJobListCount s /\
       trace s' = trace s ++ [EvRecycle job DeleteList]).
Proof.
  intros Hfl Hdl Hcount HJ Hnf Hnd.
  exists (recycled job J s). split; [now apply DeallocateJob_Ok|].
  unfold recycled. rewrite Hcount.
  destruct (Z.leb_spec 100 (Z.of_nat (length fl))) as [Hge|Hlt].
  - split; [intros; lia|]. intros _. proj.
    split; [now apply chain_cons_reset|].
    split; [now apply chain_insert_fresh|]. auto.
  - split; [|intros; lia]. intros _. proj.
    split; [now apply chain_cons_reset|].
    split; [|split; [now apply chain_insert_fresh | reflexivity]].
    rewrite wrap_size_t_small by lia. cbn [length]. lia.
Qed.

(** [DeleteOldJobs] with fuel for the whole delete list. *)
Lemma DeleteOldJobs_Ok (s : State) (dl : list positive) (fuel : nat) :
  chain (heap s) (m_deleteJobList s) dl ->
  (length dl <= fuel)%nat ->
  exists s',
    DeleteOldJobs fuel s = Ok (tt, s') /\
    trace s' = trace s ++ [EvLockAlloc] ++ map EvPoolDeallocate dl ++
               [EvUnlockAlloc] /\
    m_deleteJobList s' = None /\
    m_deleteJobListCount s' = 0 /\
    g_allocator s' = rev dl ++ g_allocator s.
Proof.
  intros Hc Hlen.
  destruct (DeleteOldJobs_loop_Ok dl fuel
              (with_trace (trace s ++ [EvLockAlloc]) s) Hc Hlen)
    as (s3 & Hloop & Ht3 & Hd3 & Hp3 & _).
  unfold DeleteOldJobs. mnorm.
  rewrite (bind_Ok _ _ _ _ _ Hloop). mnorm.
  eexists. split; [reflexivity|]. proj.
  rewrite Ht3, Hd3, Hp3. proj. rewrite <- !app_assoc. auto.
Qed.

(** When [Work] returns something to the pool it had found no job. *)
Lemma Work_drains_only_without_job (fuel : nat) (b : bool) (s s' : State) :
  Work fuel s = Ok (b, s') ->
  exists evs,
    trace s' = trace s ++ evs /\
    (Exists is_pool_deallocate evs ->
     b = false /\ Forall (fun e => ~ is_successful_pop e) evs).
Proof.
  intros H. apply Work_inv in H as (job & s1 & Hsel & H).
  apply Work_select_inv in Hsel as (_ & pops & Ht1 & Hpops & Hnone).
  assert (Hnp : forall e, is_pop e -> ~ is_pool_deallocate e)
    by (intros e; destruct e; simpl; tauto).
  destruct job as [j|].
  - destruct H as [-> He]. apply emits_ExecuteJob in He as (evs & Ht & Hevs).
    exists (pops ++ evs). proj. split; [now rewrite Ht, Ht1, app_assoc|].
    intros Hex. exfalso. apply Exists_app in Hex as [Hex|Hex].
    + apply Exists_exists in Hex as (e & He & Hd).
      rewrite Forall_forall in Hpops. exact (Hnp e (Hpops e He) Hd).
    + apply Exists_exists in Hex as (e & He & Hd).
      rewrite Forall_forall in Hevs. specialize (Hevs e He).
      destruct e; simpl in *; tauto.
  - destruct (m_deleteJobList s).
    + destruct H as [-> Hd]. apply emits_DeleteOldJobs in Hd as (evs & Ht & Hevs).
      exists (pops ++ evs). proj. split; [now rewrite Ht, Ht1, app_assoc|].
      intros _. split; [reflexivity|]. apply Forall_app. split; [auto|].
      eapply Forall_impl; [exact Hevs|]. intros e; destruct e; simpl; tauto.
    + destruct H as [-> ->]. exists pops. proj. split; [exact Ht1|].
      intros Hex. exfalso. apply Exists_exists in Hex as (e & He & Hd).
      rewrite Forall_forall in Hpops. exact (Hnp e (Hpops e He) Hd).
Qed.

(** C8: [DeallocateJob] resets the record and pushes it onto the free list
    when that list holds fewer than 100 records, and onto the delete list
    when the free list holds 100 or more; [DeleteOldJobs] returns the delete
    list to the pool between taking and releasing the pool mutex; and [Work]
    returns records to the pool only when it found no job to execute. *)
Theorem reclamation_policy (s : State) (fl dl : list positive) :
  chain (heap s) (m_freeJobList s) fl ->
  chain (heap s) (m_deleteJobList s) dl ->
  m_freeJobListCount s = Z.of_nat (length fl) ->
  (forall job J,
      heap s !! job = Some J -> job ∉ fl -> job ∉ dl ->
      exists s',
        DeallocateJob job s = Ok (tt, s') /\
        ((length fl < 100)%nat ->
           chain (heap s') (m_freeJobList s') (job :: fl) /\
           m_freeJobListCount s' = Z.of_nat (length (job :: fl)) /\
           chain (heap s') (m_deleteJobList s') dl /\
           trace s' = trace s ++ [EvRecycle job FreeList]) /\
        ((100 <= length fl)%nat ->
           chain (heap s') (m_deleteJobList s') (job :: dl) /\
           chain (heap s') (m_freeJobList s') fl /\
           m_freeJobListCount s' = m_freeJobListCount s /\
           trace s' = trace s ++ [EvRecycle job DeleteList])) /\
  (forall fuel,
      (length dl <= fuel)%nat ->
      exists s',
        DeleteOldJobs fuel s = Ok (tt, s') /\
        trace s' = trace s ++ [EvLockAlloc] ++ map EvPoolDeallocate dl ++
                   [EvUnlockAlloc] /\
        m_deleteJobList s' = None /\
        m_deleteJobListCount s' = 0 /\
        g_allocator s' = rev dl ++ g_allocator s) /\
  (forall fuel b s',
      Work fuel s = Ok (b, s') ->
      exists evs,
        trace s' = trace s ++ evs /\
        (Exists is_pool_deallocate evs ->
         b = false /\ Forall (fun e => ~ is_successful_pop e) evs)).
Proof.
  intros Hfl Hdl Hcount. split; [|split].
  - intros job J HJ Hnf Hnd. eapply DeallocateJob_lists; eauto.
  - intros fuel Hlen. now apply DeleteOldJobs_Ok.
  - intros fuel b s' H. now apply (Work_drains_only_without_job fuel b s s').
Qed.

Lemma reclamation_policy_witness :
  exists s',
    DeallocateJob 1%positive running_with_free_job = Ok (tt, s') /\
    chain (heap s') (m_freeJobList s') [1%positive; 5%positive] /\
    trace s' = [EvRecycle 1%positive FreeList].
Proof.
  destruct (reclamation_policy running_with_free_job [5%positive] [])
    as (Hde & _ & _).
  - simpl. split; [reflexivity|]. exists reset_job. repeat split; reflexivity.
  - reflexivity.
  - reflexivity.
  - destruct (Hde 1%positive job0) as (s' & Hrun & Hfree & _).
    + reflexivity.
    + rewrite list_elem_of_In. simpl. intros [H|[]]. discriminate H.
    + rewrite list_elem_of_In. simpl. tauto.
    + destruct Hfree as (Hc & _ & _ & Ht); [simpl; lia|].
      exists s'. split; [exact Hrun|]. split; [exact Hc | exact Ht].
Defined.

(** ** Continuations: scheduled by workers, run inline by RunJob *)

Lemma invoke_inv (fuel : nat) (j : ptr) (s s' : State) :
  invoke fuel j s = Ok (tt, s') ->
  exists body,
    trace s' = trace s ++ EvInvoke j :: body ++ [EvReturn j] /\
    Forall client_event body.
Proof.
  unfold invoke. intros H. apply bind_inv in H as (J & s0 & HJ & H).
  apply load_inv in HJ as [-> HJ].
  destruct (m_functorData J) as [f|]; [|discriminate].
  mnorm_in H. apply bind_inv in H as ([] & s1 & Hb & H).
  apply (emits_run_calls client_event) in Hb as (body & Ht & Hbody); [|auto].
  mnorm_in H. injection H as <-. proj.
  exists body. split; [|exact Hbody].
  rewrite Ht. proj. now rewrite <- !app_assoc.
Qed.

Lemma ScheduleRaw_inv (q : QueueId) (k r : ptr) (b : bool) (s s' : State) :
  ScheduleRaw q k b s = Ok (r, s') ->
  exists before,
    trace s' = trace s ++ before ++ [EvPush q k; EvNotifyAll] /\
    Forall schedule_event before /\
    m_threadIndex s' = m_threadIndex s.
Proof.
  unfold ScheduleRaw. mnorm. intros H.
  assert (Hpush : forall s1 before,
    trace s1 = trace s ++ before -> Forall schedule_event before ->
    m_threadIndex s1 = m_threadIndex s ->
    (Push q k ;; emit EvNotifyAll ;; ret k) s1 = Ok (r, s') ->
    exists before,
      trace s' = trace s ++ before ++ [EvPush q k; EvNotifyAll] /\
      Forall schedule_event before /\ m_threadIndex s' = m_threadIndex s).
  { intros s1 before Ht Hb Hi H1.
    apply bind_inv in H1 as ([] & s2 & Hp & H1).
    unfold Push in Hp. apply bind_inv in Hp as (d & s3 & Hq & Hp).
    apply queue_at_inv in Hq as [-> _].
    mnorm_in Hp. injection Hp as <-. mnorm_in H1. injection H1 as _ <-.
    exists before. destruct q; proj; rewrite Ht, <- !app_assoc; auto. }
  destruct (m_runningJob s) as [running|].
  - mnorm_in H. apply bind_inv in H as (K & s1 & HK & H).
    apply load_inv in HK as [-> HK].
    destruct (is_null (m_parent K) && negb b).
    + mnorm_in H. apply bind_inv in H as ([] & s1 & Hi & H).
      unfold increment in Hi. apply bind_inv in Hi as (R & s0 & HR & Hi).
      apply load_inv in HR as [-> HR]. injection Hi as <-.
      mnorm_in H. apply bind_inv in H as ([] & s2 & Hu & H).
      unfold update in Hu. apply bind_inv in Hu as (K1 & s0 & HK1 & Hu).
      apply load_inv in HK1 as [-> HK1]. injection Hu as <-.
      apply (Hpush _ [EvIncrement running]) in H; auto.
      repeat constructor.
    + mnorm_in H. apply (Hpush _ []) in H; auto.
      now rewrite app_nil_r.
  - mnorm_in H. apply (Hpush _ []) in H; auto.
    now rewrite app_nil_r.
Qed.

(** When the completion protocol finds the last unit of a job that has a
    continuation, it pushes the continuation to the global queue of the
    worker that runs the protocol. *)
Lemma OnJobDone_pushes_continuation
    (fuel : nat) (j k : ptr) (J : Job) (s s' : State) :
  OnJobDone fuel j s = Ok (tt, s') ->
  heap s !! j = Some J ->
  m_jobsLeft J = 1 -> m_continuation J = Some k -> k <> j ->
  exists before after,
    trace s' = trace s ++
      EvFetchSub j 1 :: before ++ EvPush (Global (m_threadIndex s)) k :: after /\
    Forall completion_event before /\ Forall completion_event after.
Proof.
  intros H HJ Hleft Hcont Hkj.
  destruct fuel as [|fuel]; [discriminate|]. cbn [OnJobDone] in H.
  rewrite (bind_Ok _ _ _ _ _ (fetch_sub_Ok _ _ _ HJ)) in H.
  rewrite Hleft in H. cbn [Z.eqb Pos.eqb] in H.
  set (s1 := after_fetch_sub j J s) in *.
  assert (Hl1 : links (heap s1) j = Some (m_parent J, Some k)).
  { unfold s1, after_fetch_sub. proj. unfold links.
    rewrite lookup_insert_eq. simpl. now rewrite Hcont. }
  assert (Ht1 : trace s1 = trace s ++ [EvFetchSub j 1])
    by (unfold s1, after_fetch_sub; proj; now rewrite Hleft).
  assert (Hi1 : m_threadIndex s1 = m_threadIndex s) by reflexivity.
  clearbody s1.
  assert (Hrest : forall s2 before,
    links (heap s2) j = Some (m_parent J, Some k) ->
    trace s2 = trace s ++ EvFetchSub j 1 :: before ->
    Forall completion_event before ->
    m_threadIndex s2 = m_threadIndex s ->
    (do J2 <- load j;
     match m_continuation J2 with
     | Some k2 => Schedule k2 ;; ret tt
     | None => undefined
     end ;;
     do J3 <- load j;
     match m_parent J3 with
     | Some p => OnJobDone fuel p
     | None => ret tt
     end ;; DeallocateJob j) s2 = Ok (tt, s') ->
    exists before after,
      trace s' = trace s ++
        EvFetchSub j 1 :: before ++ EvPush (Global (m_threadIndex s)) k :: after /\
      Forall completion_event before /\ Forall completion_event after).
  { intros s2 before Hl Ht Hb Hi H2.
    destruct (links_inv _ _ _ _ Hl) as (J2 & HJ2 & _ & Hk2).
    mnorm_in H2. rewrite (bind_Ok _ _ _ _ _ (load_Ok _ _ _ HJ2)) in H2.
    rewrite Hk2 in H2. mnorm_in H2.
    apply bind_inv in H2 as (r & s3 & Hs & H2).
    unfold Schedule in Hs. mnorm_in Hs.
    apply ScheduleRaw_inv in Hs as (b2 & Ht3 & Hb2 & _).
    assert (Hafter : emits completion_event
              (ret tt ;;
               do J3 <- load j;
               match m_parent J3 with
               | Some p => OnJobDone fuel p
               | None => ret tt
               end ;; DeallocateJob j)).
    { apply emits_bind; [apply emits_ret|]. intros _.
      apply emits_bind; [apply emits_load|]. intros J3.
      apply emits_bind; [|intros _; apply emits_DeallocateJob].
      destruct (m_parent J3); [apply emits_OnJobDone | apply emits_ret]. }
    apply Hafter in H2 as (after & Ht4 & Ha).
    exists (before ++ b2), (EvNotifyAll :: after).
    split; [|split].
    - rewrite Ht4, Ht3, Ht, Hi. rewrite <- !app_assoc. cbn [app].
      now rewrite <- ?app_assoc.
    - apply Forall_app. split; [exact Hb|].
      eapply Forall_impl; [exact Hb2|]. intros e; destruct e; simpl; tauto.
    - constructor; [exact I | exact Ha]. }
  destruct (links_inv _ _ _ _ Hl1) as (J0 & HJ0 & Hp0 & Hk0).
  mnorm_in H. rewrite (bind_Ok _ _ _ _ _ (load_Ok _ _ _ HJ0)) in H.
  rewrite Hk0, Hp0 in H.
  destruct (m_parent J) as [p|] eqn:Hp.
  - mnorm_in H. apply bind_inv in H as ([] & s2 & Hi & H).
    pose proof (increment_links _ j _ _ _ Hi) as Hl2. rewrite Hl1 in Hl2.
    assert (Ht2 : trace s2 = trace s1 ++ [EvIncrement p] /\
                  m_threadIndex s2 = m_threadIndex s1).
    { unfold increment in Hi. apply bind_inv in Hi as (R & s0 & HR & Hi).
      apply load_inv in HR as [-> HR]. injection Hi as <-. auto. }
    destruct Ht2 as [Ht2 Hi2].
    destruct (links_inv _ _ _ _ Hl2) as (J1 & HJ1 & Hp1 & Hk1).
    mnorm_in H. rewrite (bind_Ok _ _ _ _ _ (load_Ok _ _ _ HJ1)) in H.
    rewrite Hk1, Hp1 in H.
    apply bind_inv in H as ([] & s3 & Hu & H).
    pose proof (update_links _ j _ _ _ _ Hkj Hu) as Hl3. rewrite Hl2 in Hl3.
    assert (Ht3 : trace s3 = trace s2 /\ m_threadIndex s3 = m_threadIndex s2).
    { unfold update in Hu. apply bind_inv in Hu as (K1 & s0 & HK1 & Hu).
      apply load_inv in HK1 as [-> HK1]. injection Hu as <-. auto. }
    destruct Ht3 as [Ht3 Hi3].
    mnorm_in H.
    apply (Hrest s3 [EvIncrement p]);
      [ exact Hl3
      | rewrite Ht3, Ht2, Ht1; now rewrite <- app_assoc
      | repeat constructor
      | congruence
      | exact H ].
  - mnorm_in H.
    apply (Hrest s1 []); [exact Hl1 | exact Ht1 | constructor | exact Hi1 | exact H].
Qed.


(** A worker runs a job: the functor is entered and left, then the completion
    protocol runs; it calls no functor, and it queues the continuation when
    it takes the job's last unit. *)
Lemma ExecuteJob_inv (fuel : nat) (j : ptr) (s s' : State) :
  ExecuteJob fuel j s = Ok (tt, s') ->
  exists s_f body completion,
    invoke fuel j s = Ok (tt, s_f) /\
    trace s_f = trace s ++ EvInvoke j :: body ++ [EvReturn j] /\
    Forall client_event body /\
    trace s' = trace s_f ++ completion /\
    Forall completion_event completion /\
    (forall J k,
        heap s_f !! j = Some J -> m_continuation J = Some k -> k <> j ->
        (m_jobsLeft J = 1 ->
         exists before after,
           completion = EvFetchSub j 1 :: before ++
                        EvPush (Global (m_threadIndex s_f)) k :: after) /\
        (m_jobsLeft J <> 1 -> completion = [EvFetchSub j (m_jobsLeft J)])).
Proof.
  unfold ExecuteJob. intros H.
  apply bind_inv in H as ([] & s_f & Hinv & H). mnorm_in H.
  destruct (invoke_inv _ _ _ _ Hinv) as (body & Htf & Hbody).
  destruct (emits_OnJobDone _ _ _ _ _ H) as (completion & Htc & Hcompl).
  proj. exists s_f, body, completion.
  repeat (split; [assumption|]).
  intros J k HJ Hk Hkj. split.
  - intros Hleft.
    destruct (OnJobDone_pushes_continuation fuel j k J _ _ H HJ Hleft Hk Hkj)
      as (before & after & Ht & _ & _).
    proj. exists before, after.
    rewrite Htc in Ht. now apply app_inv_head in Ht.
  - intros Hne. destruct fuel as [|fuel]; [discriminate|].
    rewrite (OnJobDone_not_last fuel j J) in H by assumption.
    injection H as <-. unfold after_fetch_sub in Htc. proj.
    now apply app_inv_head in Htc.
Qed.











(** ** Executing a job *)

Lemma OnJobDone_same_thread (fuel : nat) (j : ptr) (s s' : State) :
  OnJobDone fuel j s = Ok (tt, s') ->
  m_runningJob s' = m_runningJob s /\
  m_threadIndex s' = m_threadIndex s /\
  m_threadCount s' = m_threadCount s.
Proof.
  apply (keeps_OnJobDone
           (fun s s' => m_runningJob s' = m_runningJob s /\
                        m_threadIndex s' = m_threadIndex s /\
                        m_threadCount s' = m_threadCount s)).
  - auto.
  - intros s1 s2 s3 (H1 & H2 & H3) (K1 & K2 & K3). repeat split; congruence.
  - auto.
  - auto.
  - auto.
  - auto.
  - intros q d s0. now destruct q.
Qed.



(** [ExecuteJob] on a job whose functor returns and whose completion then
    finishes a line of ancestors. *)
Lemma ExecuteJob_line (fuel : nat) (j : ptr) (l : list positive)
    (top : option ptr) (s s_f : State) :
  invoke fuel j s = Ok (tt, s_f) ->
  finishing (heap s_f) j l top ->
  NoDup (j :: l) ->
  top_waits (heap s_f) (j :: l) top ->
  (length l + 2 <= fuel)%nat ->
  exists s' body evs,
    ExecuteJob fuel j s = Ok (tt, s') /\
    trace s' = trace s ++ EvInvoke j :: body ++ [EvReturn j] ++
               map (fun x => EvFetchSub x 1) (j :: l) ++
               decrement_of (heap s_f) top ++ evs /\
    Forall client_event body /\
    Forall2 recycles (rev (j :: l)) evs /\
    (forall x, x ∉ j :: l -> top <> Some x -> heap s' !! x = heap s_f !! x) /\
    (forall t T, top = Some t -> heap s_f !! t = Some T ->
       heap s' !! t = Some (set_jobsLeft (wrap_int (m_jobsLeft T - 1)) T)) /\
    m_localQueues s' = m_localQueues s_f /\
    m_globalQueues s' = m_globalQueues s_f /\
    reset_and_recycled j s' /\
    m_runningJob s' = None.
Proof.
  intros Hinv Hfin Hnd Htop Hfuel.
  destruct (invoke_inv _ _ _ _ Hinv) as (body & Htf & Hbody).
  unfold ExecuteJob. rewrite (bind_Ok _ _ _ _ _ Hinv). mnorm.
  destruct (OnJobDone_chain fuel j l top (with_runningJob None s_f))
    as (s' & evs & Hrun & Htr & Hev & Hframe & Hreset & Hdec & Hlq & Hgq & Hhead);
    try assumption.
  destruct (OnJobDone_same_thread _ _ _ _ Hrun) as (Hr & _ & _).
  revert Htr Hframe Hdec Hlq Hgq Hr. proj. intros Htr Hframe Hdec Hlq Hgq Hr.
  exists s', body, evs. split; [exact Hrun|].
  split.
  { rewrite Htr, Htf. rewrite <- app_assoc. cbn [app].
    now rewrite <- app_assoc. }
  split; [exact Hbody|]. split; [exact Hev|]. split; [exact Hframe|].
  split; [exact Hdec|]. split; [exact Hlq|]. split; [exact Hgq|].
  split; [split; [apply Hreset; left | exact Hhead]|].
  exact Hr.
Qed.

(** [Work] on a job it has obtained, when the job's functor returns and its
    completion then finishes a line of ancestors. *)
Lemma Work_runs_line (fuel : nat) (j : ptr) (l : list positive)
    (top : option ptr) (s s1 s_f : State) :
  Work_select s = Ok (Some j, s1) ->
  invoke fuel j (with_runningJob (Some j) s1) = Ok (tt, s_f) ->
  finishing (heap s_f) j l top ->
  NoDup (j :: l) ->
  top_waits (heap s_f) (j :: l) top ->
  (length l + 2 <= fuel)%nat ->
  exists s' body evs,
    Work fuel s = Ok (true, s') /\
    trace s' = trace s1 ++ EvInvoke j :: body ++ [EvReturn j] ++
               map (fun x => EvFetchSub x 1) (j :: l) ++
               decrement_of (heap s_f) top ++ evs /\
    Forall client_event body /\
    Forall2 recycles (rev (j :: l)) evs /\
    (forall x, x ∉ j :: l -> top <> Some x -> heap s' !! x = heap s_f !! x) /\
    (forall t T, top = Some t -> heap s_f !! t = Some T ->
       heap s' !! t = Some (set_jobsLeft (wrap_int (m_jobsLeft T - 1)) T)) /\
    m_localQueues s' = m_localQueues s_f /\
    m_globalQueues s' = m_globalQueues s_f /\
    reset_and_recycled j s' /\
    m_runningJob s' = None.
Proof.
  intros Hsel Hinv Hfin Hnd Htop Hfuel.
  destruct (ExecuteJob_line fuel j l top _ s_f Hinv Hfin Hnd Htop Hfuel)
    as (s' & body & evs & Hrun & Htr & Hrest).
  exists s', body, evs. unfold Work.
  rewrite (bind_Ok _ _ _ _ _ Hsel). mnorm.
  rewrite (bind_Ok _ _ _ _ _ Hrun).
  split; [reflexivity|]. split; [exact Htr | exact Hrest].
Qed.

(** When [Work] has obtained a job and returns, it has entered the job's
    functor first thing after the pops, left it, and run the completion
    protocol; it returns true. *)
Lemma Work_enters_selected (fuel : nat) (j : ptr) (s s1 : State) (b : bool)
    (s' : State) :
  Work_select s = Ok (Some j, s1) ->
  Work fuel s = Ok (b, s') ->
  b = true /\
  exists body completion,
    trace s' = trace s1 ++ EvInvoke j :: body ++ [EvReturn j] ++ completion /\
    Forall client_event body /\ Forall completion_event completion.
Proof.
  intros Hsel H. unfold Work in H.
  rewrite (bind_Ok _ _ _ _ _ Hsel) in H. mnorm_in H.
  apply bind_inv in H as ([] & s2 & Hexec & H). injection H as <- <-.
  split; [reflexivity|].
  destruct (ExecuteJob_inv _ _ _ _ Hexec)
    as (s_f & body & completion & _ & Htf & Hbody & Htc & Hcompl & _).
  exists body, completion. split; [|auto].
  rewrite Htc, Htf. proj. rewrite <- app_assoc. cbn [app].
  now rewrite <- app_assoc.
Qed.


(** [RunJob]'s loop on a freshly allocated record whose functor submits
    nothing. *)
Lemma RunJob_loop_leaf (fuel chain : nat) (j : ptr) (size n : Z) (s : State) :
  heap s !! j = Some (allocated size (Fn n [])) ->
  exists s',
    RunJob_loop (S fuel) (S chain) j s = Ok (tt, s') /\
    trace s' = trace s ++
               [EvInvoke j; EvReturn j; EvFetchSub j 1;
                EvRecycle j (if 100 <=? m_freeJobListCount s
                             then DeleteList else FreeList)] /\
    (m_functorActive <$> heap s' !! j) = Some false /\
    m_localQueues s' = m_localQueues s /\
    m_globalQueues s' = m_globalQueues s /\
    g_allocator s' = g_allocator s /\
    m_runningJob s' = None.
Proof.
  intros Hj. cbn [RunJob_loop]. mnorm.
  unfold invoke. mnorm. mstep' load_Ok.
  unfold allocated at 1. proj. cbn [functor_body run_calls]. mnorm.
  mstep' load_Ok.
  cbn [RunJob_wait]. mnorm. mstep' load_Ok.
  unfold allocated at 1. proj. change (1 <? 1) with false. cbv iota. mnorm.
  mstep' update_Ok.
  cbn [OnJobDone]. mnorm.
  erewrite bind_Ok; [|apply fetch_sub_Ok; heap_lookup].
  unfold after_fetch_sub. mnorm.
  unfold allocated. proj. change (1 =? 1) with true. cbv iota. mnorm.
  mstep' load_Ok. mnorm. mstep' load_Ok. mnorm.
  erewrite bind_Ok; [|apply DeallocateJob_Ok; heap_lookup].
  eexists. split; [reflexivity|].
  unfold recycled. proj.
  destruct (100 <=? m_freeJobListCount s); proj;
    rewrite lookup_insert_eq, <- !app_assoc; auto 10.
Qed.











(** C6: [Work] pops the local queue of its own index first; only when that
    is empty it pops the global queues in the order [(threadIndex + i) mod N],
    [i = 0 .. N-1], which starts with its own global queue, and stops at the
    first job it finds.  It executes that job: whenever [Work] returns after
    it has obtained [j], it returns true and the first event after the pops
    is the entry into [j]'s functor, followed by what the functor does, its
    return and the completion protocol; and when [j]'s functor returns
    leaving [j] and a line of its ancestors with their last unit, [Work]
    does return true, having entered and left [j]'s functor, taken the last
    unit of each of them, and reset and recycled [j]. *)
Theorem Work_selection_order (s : State) :
  worker_ok s ->
  round_robin (m_threadIndex s) (m_threadCount s) !! 0%nat
    = Some (m_threadIndex s) /\
  (forall j d,
      queue_is (Local (m_threadIndex s)) (j :: d) s ->
      Work_select s = Ok (Some j, popped (Local (m_threadIndex s)) d j s)) /\
  (forall pre q post j d,
      queue_is (Local (m_threadIndex s)) [] s ->
      round_robin (m_threadIndex s) (m_threadCount s) = pre ++ q :: post ->
      (forall x, x ∈ pre -> queue_is (Global x) [] s) ->
      queue_is (Global q) (j :: d) s ->
      Work_select s =
        Ok (Some j,
            popped (Global q) d j
              (probed (EvPop (Local (m_threadIndex s)) None ::
                       map (fun x => EvPop (Global x) None) pre) s))) /\
  (queue_is (Local (m_threadIndex s)) [] s ->
   (forall x, x ∈ round_robin (m_threadIndex s) (m_threadCount s) ->
              queue_is (Global x) [] s) ->
   Work_select s =
     Ok (None,
         probed (EvPop (Local (m_threadIndex s)) None ::
                 map (fun x => EvPop (Global x) None)
                     (round_robin (m_threadIndex s) (m_threadCount s))) s)) /\
  (forall fuel j s1 b s',
      Work_select s = Ok (Some j, s1) ->
      Work fuel s = Ok (b, s') ->
      b = true /\
      exists body completion,
        trace s' = trace s1 ++ EvInvoke j :: body ++ [EvReturn j] ++ completion /\
        Forall client_event body /\ Forall completion_event completion) /\
  (forall fuel j s1 s_f l top,
      Work_select s = Ok (Some j, s1) ->
      invoke fuel j (with_runningJob (Some j) s1) = Ok (tt, s_f) ->
      finishing (heap s_f) j l top ->
      NoDup (j :: l) ->
      top_waits (heap s_f) (j :: l) top ->
      (length l + 2 <= fuel)%nat ->
      exists s' body evs,
        Work fuel s = Ok (true, s') /\
        trace s' = trace s1 ++ EvInvoke j :: body ++ [EvReturn j] ++
                   map (fun x => EvFetchSub x 1) (j :: l) ++
                   decrement_of (heap s_f) top ++ evs /\
        Forall client_event body /\
        Forall2 recycles (rev (j :: l)) evs /\
        reset_and_recycled j s' /\
        m_runningJob s' = None).
Proof.
  intros Hok.
  destruct (Work_select_cases s Hok) as (H0 & Hlocal & Hsteal & Hnone & _).
  split; [exact H0|]. split; [exact Hlocal|]. split; [exact Hsteal|].
  split; [exact Hnone|]. split.
  - intros fuel j s1 b s' Hsel H. exact (Work_enters_selected _ _ _ _ _ _ Hsel H).
  - intros fuel j s1 s_f l top Hsel Hinv Hfin Hnd Htop Hfuel.
    destruct (Work_runs_line fuel j l top s s1 s_f Hsel Hinv Hfin Hnd Htop Hfuel)
      as (s' & body & evs & Hrun & Htr & Hbody & Hev & _ & _ & _ & _ & Hrec & Hr).
    exists s', body, evs. auto 10.
Qed.

Lemma Work_selection_order_witness :
  exists s' body evs,
    Work 2 three_workers = Ok (true, s') /\
    trace s' =
      [EvPop (Local 1) None; EvPop (Global 1) None;
       EvPop (Global 2) (Some 8%positive)] ++
      EvInvoke 8%positive :: body ++ [EvReturn 8%positive] ++
      [EvFetchSub 8%positive 1] ++ evs /\
    Forall2 recycles [8%positive] evs /\
    reset_and_recycled 8%positive s'.
Proof.
  assert (Hok : worker_ok three_workers).
  { unfold worker_ok. simpl. repeat split; lia. }
  destruct (Work_selection_order three_workers Hok)
    as (_ & _ & Hsteal & _ & _ & Hexec).
  assert (Hsel : Work_select three_workers =
    Ok (Some 8%positive,
        popped (Global 2) [] 8%positive
          (probed [EvPop (Local 1) None; EvPop (Global 1) None] three_workers))).
  { apply (Hsteal [1] 2 [0] 8%positive []).
    - split; [simpl; lia | reflexivity].
    - reflexivity.
    - intros x Hx. apply list_elem_of_In in Hx. destruct Hx as [<-|[]].
      split; [simpl; lia | reflexivity].
    - split; [simpl; lia | reflexivity]. }
  destruct (Hexec 2%nat 8%positive _ _ [] None Hsel eq_refl)
    as (s' & body & evs & Hrun & Htr & _ & Hev & Hrec & _).
  - exists job0. repeat split; reflexivity.
  - apply NoDup_singleton.
  - exact I.
  - simpl. lia.
  - exists s', body, evs. split; [exact Hrun|].
    split; [exact Htr|]. split; [exact Hev | exact Hrec].
Defined.







(** * Further properties *)

(** ** JobQueue *)

Lemma push_all_Ok (q : QueueId) (l : list positive) :
  forall d s, queue_is q d s ->
  exists s', push_all q l s = Ok (tt, s') /\ queue_is q (d ++ l) s'.
Proof.
  induction l as [|j l IH]; intros d s Hq; cbn [push_all].
  - exists s. rewrite app_nil_r. auto.
  - rewrite (bind_Ok _ _ _ _ _ (Push_Ok _ _ _ _ Hq)).
    destruct (IH (d ++ [j]) _ (queue_is_pushed _ _ j _ Hq)) as (s' & Hrun & Hq').
    exists s'. split; [exact Hrun|]. now rewrite <- app_assoc in Hq'.
Qed.

Lemma pop_n_Ok (q : QueueId) (d : list positive) :
  forall s, queue_is q d s ->
  exists s', pop_n q (length d) s = Ok (map Some d, s') /\ queue_is q [] s'.
Proof.
  induction d as [|j d IH]; intros s Hq; cbn [pop_n length].
  - exists s. auto.
  - rewrite (bind_Ok _ _ _ _ _ (Pop_head _ _ _ _ Hq)).
    destruct (IH _ (queue_is_popped _ _ _ _ Hq)) as (s' & Hrun & Hq').
    exists s'. rewrite (bind_Ok _ _ _ _ _ Hrun). auto.
Qed.

(** X1: a queue is first in, first out.  On a queue that holds [d], pushing
    the jobs [l] and then popping as many times as the queue has entries
    returns [d] followed by [l], in this order, and leaves the queue empty,
    so that the next pop returns null. *)
Theorem JobQueue_fifo (q : QueueId) (d l : list positive) (s : State) :
  queue_is q d s ->
  exists s',
    (push_all q l ;; pop_n q (length (d ++ l))) s = Ok (map Some (d ++ l), s') /\
    queue_is q [] s' /\
    exists s'', Pop q s' = Ok (None, s'') /\ queue_is q [] s''.
Proof.
  intros Hq.
  destruct (push_all_Ok q l d s Hq) as (s1 & Hpush & Hq1).
  destruct (pop_n_Ok q (d ++ l) s1 Hq1) as (s' & Hpop & Hq').
  exists s'. rewrite (bind_Ok _ _ _ _ _ Hpush).
  split; [exact Hpop|]. split; [exact Hq'|].
  eexists. split; [apply Pop_empty; exact Hq'|].
  destruct Hq' as [H0 Hd]. split; [exact H0|]. destruct q; exact Hd.
Qed.

Lemma JobQueue_fifo_witness :
  exists s',
    (push_all (Global 0) [2%positive; 3%positive] ;; pop_n (Global 0) 3)
      affinity_state
    = Ok ([Some 7%positive; Some 2%positive; Some 3%positive], s') /\
    queue_is (Global 0) [] s'.
Proof.
  destruct (JobQueue_fifo (Global 0) [7%positive] [2%positive; 3%positive]
              affinity_state) as (s' & Hrun & Hq & _).
  - split; [simpl; lia | reflexivity].
  - exists s'. split; [exact Hrun | exact Hq].
Defined.

Lemma queue_is_other (q q' : QueueId) (d d' : list positive) (s : State) :
  q <> q' -> 0 <= queue_index q ->
  queue_is q' d' s ->
  queue_is q' d'
    (with_queues q (<[Z.to_nat (queue_index q) := d]> (queues q s)) s).
Proof.
  intros Hne H0 [H0' Hd']. split; [exact H0'|].
  destruct q as [i|i], q' as [i'|i']; proj; try exact Hd'.
  - rewrite list_lookup_insert_ne; [exact Hd'|].
    simpl in *. intros Heq. apply Hne. f_equal. lia.
  - rewrite list_lookup_insert_ne; [exact Hd'|].
    simpl in *. intros Heq. apply Hne. f_equal. lia.
Qed.

(** X2: [Push] and [Pop] touch one queue.  Whatever they return, every
    other queue, local or global, holds what it held, and so do the job
    records, the pool and the free and delete lists; a [Pop] that returns
    null leaves its own queue as it was too. *)
Theorem JobQueue_frame (q q' : QueueId) (d' : list positive) (s : State) :
  q <> q' ->
  queue_is q' d' s ->
  (forall j s', Push q j s = Ok (tt, s') ->
                queue_is q' d' s' /\ same_but_queues s s') /\
  (forall r s', Pop q s = Ok (r, s') ->
                queue_is q' d' s' /\ same_but_queues s s' /\
                (r = None -> queue_is q [] s /\ queue_is q [] s')).
Proof.
  intros Hne Hq'. split.
  - intros j s' H. unfold Push in H.
    apply bind_inv in H as (d & s1 & Hq & H).
    pose proof Hq as Hq0. apply queue_at_inv in Hq0 as [-> [H0 Hd]].
    mnorm_in H. injection H as <-. split.
    + destruct Hq' as [H0' Hd']. split; [exact H0'|].
      pose proof (queue_is_other q q' (d ++ [j]) d' s Hne H0 (conj H0' Hd')) as [_ Hk].
      destruct q, q'; exact Hk.
    + destruct q; repeat split.
  - intros r s' H. pose proof H as Hpop. apply Pop_inv in Hpop as [Hsame _].
    unfold Pop in H. apply bind_inv in H as (d & s1 & Hq & H).
    pose proof Hq as Hq0. apply queue_at_inv in Hq0 as [-> [H0 Hd]].
    destruct d as [|j d].
    + injection H as <- <-. split; [|split; [exact Hsame|]].
      * destruct Hq' as [H0' Hd']. split; [exact H0'|]. destruct q'; exact Hd'.
      * intros _. split; split; try exact H0; destruct q; exact Hd.
    + mnorm_in H. injection H as <- <-.
      split; [|split; [exact Hsame | discriminate]].
      destruct Hq' as [H0' Hd']. split; [exact H0'|].
      pose proof (queue_is_other q q' d d' s Hne H0 (conj H0' Hd')) as [_ Hk].
      destruct q, q'; exact Hk.
Qed.

Lemma JobQueue_frame_witness :
  exists s',
    Pop (Global 0) affinity_state = Ok (Some 7%positive, s') /\
    queue_is (Local 1) [8%positive] s'.
Proof.
  destruct (JobQueue_frame (Global 0) (Local 1) [8%positive] affinity_state)
    as [_ Hpop].
  - discriminate.
  - split; [simpl; lia | reflexivity].
  - eexists. split; [reflexivity|].
    exact (proj1 (Hpop (Some 7%positive) _ eq_refl)).
Defined.


(** ** Submitting a job *)

Ltac queue_unchanged :=
  eapply queue_is_same_queues; [split; reflexivity|].

(** What [ScheduleRaw] does to a live job, case by case. *)
Lemma ScheduleRaw_effects (q : QueueId) (job : ptr)
    (detached : bool) (J : Job) (d : list positive) (s : State) :
  heap s !! job = Some J ->
  queue_is q d s ->
  (forall r, m_runningJob s = Some r -> is_Some (heap s !! r)) ->
  exists s',
    ScheduleRaw q job detached s = Ok (job, s') /\
    queue_is q (d ++ [job]) s' /\
    ((exists r,
         m_runningJob s = Some r /\ m_parent J = None /\ detached = false /\
         (m_parent <$> heap s' !! job) = Some (Some r) /\
         trace s' = trace s ++ [EvIncrement r; EvPush q job; EvNotifyAll]) \/
     ((m_runningJob s = None \/ m_parent J <> None \/ detached = true) /\
      heap s' = heap s /\
      trace s' = trace s ++ [EvPush q job; EvNotifyAll])).
Proof.
  intros HJ Hq Hlive. unfold ScheduleRaw. mnorm.
  destruct (m_runningJob s) as [r|] eqn:Hr.
  - destruct (Hlive r eq_refl) as [R HR].
    mnorm. mstep load_Ok.
    destruct (m_parent J) as [p|] eqn:Hp; [|destruct detached];
      cbn [is_null negb andb]; mnorm.
    + mstep Push_Ok. eexists. split; [reflexivity|].
      split; [queue_unchanged; apply queue_is_pushed, Hq|].
      right. unfold pushed. destruct q; proj; rewrite <- app_assoc;
        (split; [right; left; discriminate | split; reflexivity]).
    + mstep Push_Ok. eexists. split; [reflexivity|].
      split; [queue_unchanged; apply queue_is_pushed, Hq|].
      right. unfold pushed. destruct q; proj; rewrite <- app_assoc;
        (split; [right; right; reflexivity | split; reflexivity]).
    + mstep increment_Ok.
      assert (Hjob : exists J',
                 (<[r := set_jobsLeft (wrap_int (m_jobsLeft R + 1)) R]> (heap s))
                   !! job = Some J').
      { destruct (decide (r = job)) as [->|Hne].
        - eexists. apply lookup_insert_eq.
        - exists J. now rewrite lookup_insert_ne by exact Hne. }
      destruct Hjob as [J' HJ'].
      erewrite bind_Ok; [|apply update_Ok; proj; exact HJ']. mnorm.
      erewrite bind_Ok; [|apply Push_Ok; queue_unchanged; exact Hq].
      mnorm. eexists. split; [reflexivity|].
      split.
      { queue_unchanged. apply queue_is_pushed. queue_unchanged. exact Hq. }
      left. exists r.
      do 3 (split; [reflexivity|]).
      unfold pushed. destruct q; proj; rewrite lookup_insert_eq, <- !app_assoc;
        split; reflexivity.
  - mnorm. mstep Push_Ok. eexists. split; [reflexivity|].
    split; [queue_unchanged; apply queue_is_pushed, Hq|].
    right. unfold pushed. destruct q; proj; rewrite <- app_assoc;
      (split; [left; reflexivity | split; reflexivity]).
Qed.

(** ** The worker's frame *)

Lemma same_frame_refl (s : State) : same_frame s s.
Proof. repeat split; auto. Qed.

Lemma same_frame_trans (s1 s2 s3 : State) :
  same_frame s1 s2 -> same_frame s2 s3 -> same_frame s1 s3.
Proof.
  intros (H1 & H2 & H3 & H4 & H5) (K1 & K2 & K3 & K4 & K5).
  repeat split; try congruence. auto.
Qed.

Lemma same_frame_queue (q : QueueId) (d : list positive) (s : State) :
  same_frame s (with_queues q (<[Z.to_nat (queue_index q) := d]> (queues q s)) s).
Proof.
  destruct q; repeat split; proj; auto; apply length_insert.
Qed.

(** Every operation keeps the worker's frame. *)
Ltac same_frame_premises :=
  first
    [ exact same_frame_refl | exact same_frame_trans | exact same_frame_queue
    | intros; repeat split; auto ].

Lemma same_frame_Work (fuel : nat) : keeps same_frame (Work fuel).
Proof. apply keeps_Work; same_frame_premises. Qed.

Lemma same_frame_RunJob (fuel : nat) (f : Functor) :
  keeps same_frame (RunJob fuel f).
Proof. apply keeps_RunJob; same_frame_premises. Qed.

Lemma same_frame_WorkerThread_loop (fuel n : nat) :
  keeps same_frame (WorkerThread_loop fuel n).
Proof. apply keeps_WorkerThread_loop; same_frame_premises. Qed.

Lemma same_frame_ScheduleFunctor (fuel : nat) (f : Functor) :
  keeps same_frame (ScheduleFunctor fuel f).
Proof. apply keeps_ScheduleFunctor; same_frame_premises. Qed.

Lemma same_frame_ScheduleDetached (fuel : nat) (f : Functor) :
  keeps same_frame (ScheduleDetached fuel f).
Proof. apply keeps_ScheduleDetached; same_frame_premises. Qed.

Lemma same_frame_ScheduleForThreadFunctor (fuel : nat) (t : Z) (f : Functor) :
  keeps same_frame (ScheduleForThreadFunctor fuel t f).
Proof. apply keeps_ScheduleForThreadFunctor; same_frame_premises. Qed.

Lemma same_frame_Continuation (fuel : nat) (f : Functor) :
  keeps same_frame (Continuation fuel f).
Proof. apply keeps_Continuation; same_frame_premises. Qed.

Lemma worker_ok_same_frame (s s' : State) :
  same_frame s s' -> worker_ok s -> worker_ok s'.
Proof.
  intros (H1 & H2 & H3 & H4 & _) (K1 & K2 & K3 & K4).
  unfold worker_ok. rewrite H1, H2, H3, H4. auto.
Qed.

(** X3: no operation of the scheduler changes the thread index, the thread
    count or the number of local and global queues, and none takes back a
    stop request; so a worker that is well formed stays well formed across
    [Work], [RunJob] and every submission. *)
Theorem scheduler_keeps_worker_frame (fuel : nat) (s : State) :
  (forall b s', Work fuel s = Ok (b, s') ->
                same_frame s s' /\ (worker_ok s -> worker_ok s')) /\
  (forall f s', RunJob fuel f s = Ok (tt, s') ->
                same_frame s s' /\ (worker_ok s -> worker_ok s')) /\
  (forall f j s', ScheduleFunctor fuel f s = Ok (j, s') ->
                  same_frame s s' /\ (worker_ok s -> worker_ok s')) /\
  (forall f j s', ScheduleDetached fuel f s = Ok (j, s') ->
                  same_frame s s' /\ (worker_ok s -> worker_ok s')) /\
  (forall t f j s', ScheduleForThreadFunctor fuel t f s = Ok (j, s') ->
                    same_frame s s' /\ (worker_ok s -> worker_ok s')) /\
  (forall f s', Continuation fuel f s = Ok (tt, s') ->
                same_frame s s' /\ (worker_ok s -> worker_ok s')).
Proof.
  assert (Hwrap : forall s', same_frame s s' ->
            same_frame s s' /\ (worker_ok s -> worker_ok s'))
    by (intros s' H; split; [exact H | now apply worker_ok_same_frame]).
  split; [|split; [|split; [|split; [|split]]]]; intros; apply Hwrap.
  - eapply same_frame_Work; eauto.
  - eapply same_frame_RunJob; eauto.
  - eapply same_frame_ScheduleFunctor; eauto.
  - eapply same_frame_ScheduleDetached; eauto.
  - eapply same_frame_ScheduleForThreadFunctor; eauto.
  - eapply same_frame_Continuation; eauto.
Qed.

Lemma scheduler_keeps_worker_frame_witness :
  exists s', Work 1 one_job_queued = Ok (true, s') /\ worker_ok s'.
Proof.
  destruct (Work 1 one_job_queued) as [[[|] s']| | |] eqn:Hrun;
    try (vm_compute in Hrun; discriminate Hrun).
  destruct (scheduler_keeps_worker_frame 1 one_job_queued) as [Hwork _].
  exists s'. split; [reflexivity|].
  apply (Hwork true s' Hrun).
  unfold worker_ok. simpl. repeat split; first [lia | reflexivity].
Defined.

(** ** Leaving the worker loop *)

Lemma WorkerThread_loop_stopped (fuel n : nat) :
  forall s s', WorkerThread_loop fuel n s = Ok (tt, s') -> m_stop s' = true.
Proof.
  induction n as [|n IH]; intros s s' H; cbn [WorkerThread_loop] in H;
    mnorm_in H; destruct (m_stop s) eqn:Hs.
  - now injection H as <-.
  - discriminate H.
  - now injection H as <-.
  - apply bind_inv in H as ([] & s1 & _ & H). eapply IH; eauto.
Qed.

(** X4: [WorkerThread] returns only with the stop flag set, and with the
    thread index it was started with; started when the flag is already set
    it takes no job and touches nothing but its thread index.
    [JoinAsWorker] is [WorkerThread] with index 0. *)
Theorem WorkerThread_returns_when_stopped (fuel : nat) (threadIndex : Z) (s : State) :
  (forall s', WorkerThread fuel threadIndex s = Ok (tt, s') ->
              m_stop s' = true /\ m_threadIndex s' = threadIndex) /\
  (m_stop s = true ->
   WorkerThread fuel threadIndex s = Ok (tt, with_threadIndex threadIndex s)) /\
  (forall s', JoinAsWorker fuel s = Ok (tt, s') ->
              m_stop s' = true /\ m_threadIndex s' = 0).
Proof.
  assert (Hexit : forall i s', WorkerThread fuel i s = Ok (tt, s') ->
                    m_stop s' = true /\ m_threadIndex s' = i).
  { intros i s' H. unfold WorkerThread in H. mnorm_in H. split.
    - eapply WorkerThread_loop_stopped; eauto.
    - apply same_frame_WorkerThread_loop in H as (Hi & _). exact Hi. }
  split; [apply Hexit|]. split; [|apply Hexit].
  intros Hstop. unfold WorkerThread. mnorm.
  destruct fuel; cbn [WorkerThread_loop]; mnorm; rewrite Hstop; reflexivity.
Qed.

Lemma WorkerThread_returns_when_stopped_witness :
  WorkerThread 0 2 (with_stop true three_workers)
    = Ok (tt, with_threadIndex 2 (with_stop true three_workers)).
Proof.
  destruct (WorkerThread_returns_when_stopped 0 2 (with_stop true three_workers))
    as (_ & Hstopped & _).
  apply Hstopped. reflexivity.
Defined.

(** ** The ambient job after Work and RunJob *)

Lemma same_runningJob_OnJobDone (fuel : nat) (j : ptr) :
  keeps same_runningJob (OnJobDone fuel j).
Proof.
  apply keeps_OnJobDone; unfold same_runningJob; intros; try reflexivity;
    try congruence. now destruct q.
Qed.

Lemma same_runningJob_DeleteOldJobs (fuel : nat) :
  keeps same_runningJob (DeleteOldJobs fuel).
Proof.
  apply keeps_DeleteOldJobs; unfold same_runningJob; intros; try reflexivity;
    congruence.
Qed.

Lemma Work_clears_runningJob (fuel : nat) (b : bool) (s s' : State) :
  Work fuel s = Ok (b, s') -> m_runningJob s' = None.
Proof.
  intros H. apply Work_inv in H as (job & s1 & Hsel & H).
  destruct job as [j|].
  - destruct H as [_ H]. unfold ExecuteJob in H.
    apply bind_inv in H as ([] & s2 & _ & H). mnorm_in H.
    apply same_runningJob_OnJobDone in H. exact H.
  - destruct (m_deleteJobList s).
    + destruct H as [_ H]. apply same_runningJob_DeleteOldJobs in H. exact H.
    + destruct H as [_ ->]. reflexivity.
Qed.

Lemma RunJob_wait_runningJob (fuel : nat) (j : ptr) (n : nat) :
  forall s s', m_runningJob s = None ->
  RunJob_wait fuel n j s = Ok (tt, s') -> m_runningJob s' = None.
Proof.
  induction n as [|n IH]; intros s s' Hs H; cbn [RunJob_wait] in H;
    apply bind_inv in H as (J & s0 & HJ & H);
    apply load_inv in HJ as [-> HJ];
    destruct (1 <? m_jobsLeft J); try discriminate H;
    try (injection H as <-; exact Hs).
  apply bind_inv in H as (b & s1 & Hw & H).
  apply Work_clears_runningJob in Hw.
  unfold WaitFor in H. mnorm_in H. eapply IH; [|exact H]. exact Hw.
Qed.

Lemma RunJob_loop_runningJob (fuel chain : nat) :
  forall j s s', RunJob_loop fuel chain j s = Ok (tt, s') ->
                 m_runningJob s' = None.
Proof.
  induction chain as [|chain IH]; intros j s s' H; cbn [RunJob_loop] in H;
    [discriminate H|].
  mnorm_in H. apply bind_inv in H as ([] & s1 & _ & H).
  mnorm_in H. apply bind_inv in H as (J & s0 & HJ & H).
  apply load_inv in HJ as [-> HJ]. mnorm_in H.
  apply bind_inv in H as ([] & s2 & Hw & H).
  apply RunJob_wait_runningJob in Hw; [|reflexivity].
  mnorm_in H. apply bind_inv in H as ([] & s3 & Hu & H).
  assert (H3 : m_runningJob s3 = None).
  { unfold update in Hu. apply bind_inv in Hu as (K & s0 & HK & Hu).
    apply load_inv in HK as [-> HK]. injection Hu as <-. exact Hw. }
  mnorm_in H. apply bind_inv in H as ([] & s4 & Hd & H).
  apply same_runningJob_OnJobDone in Hd. unfold same_runningJob in Hd.
  destruct (m_continuation J) as [k|].
  - eapply IH; eauto.
  - injection H as <-. congruence.
Qed.

(** X5: [Work] and [RunJob] leave no ambient job behind: when they return,
    [m_runningJob] is null, whatever it was before [Work]; [RunJob] returns
    only if it was null on entry. *)
Theorem no_ambient_job_left (fuel : nat) (s : State) :
  (forall b s', Work fuel s = Ok (b, s') -> m_runningJob s' = None) /\
  (forall f s', RunJob fuel f s = Ok (tt, s') ->
                m_runningJob s = None /\ m_runningJob s' = None).
Proof.
  split.
  - intros b s' H. eapply Work_clears_runningJob; eauto.
  - intros f s' H. unfold RunJob in H. mnorm_in H.
    destruct (m_runningJob s) as [r|] eqn:Hr.
    + discriminate H.
    + unfold ASSERT in H. cbn [is_null] in H. unfold bind at 1 in H.
      apply bind_inv in H as (j & s1 & _ & H).
      split; [reflexivity|]. eapply RunJob_loop_runningJob; eauto.
Qed.

(** ** Thread affinity *)

Lemma Push_inv (q : QueueId) (j : ptr) (s s' : State) :
  Push q j s = Ok (tt, s') ->
  exists d, queue_is q d s /\ s' = pushed q d j s.
Proof.
  unfold Push. intros H. apply bind_inv in H as (d & s1 & Hq & H).
  apply queue_at_inv in Hq as [-> Hq]. mnorm_in H. injection H as <-.
  exists d. split; [exact Hq|]. destruct q; reflexivity.
Qed.

Lemma same_queues_refl (s : State) : same_queues s s.
Proof. split; reflexivity. Qed.

Lemma same_queues_trans (s1 s2 s3 : State) :
  same_queues s1 s2 -> same_queues s2 s3 -> same_queues s1 s3.
Proof. intros [H1 H2] [K1 K2]. split; congruence. Qed.

Ltac same_queues_premises :=
  first
    [ exact same_queues_refl | exact same_queues_trans
    | intros; split; reflexivity ].

Lemma same_queues_AllocateJob (fuel : nat) (f : Functor) :
  keeps same_queues (AllocateJob fuel f).
Proof. apply keeps_AllocateJob; same_queues_premises. Qed.

(** [ScheduleRaw] appends the job to its queue and leaves the others. *)
Lemma ScheduleRaw_queues (q : QueueId) (j r : ptr) (b : bool)
    (d : list positive) (s s' : State) :
  queue_is q d s ->
  ScheduleRaw q j b s = Ok (r, s') ->
  r = j /\ queue_is q (d ++ [j]) s' /\
  forall q' d', q' <> q -> queue_is q' d' s -> queue_is q' d' s'.
Proof.
  intros Hq H. unfold ScheduleRaw in H. mnorm_in H.
  apply bind_inv in H as ([] & s1 & Hpar & H).
  assert (Hsame : same_queues s s1).
  { destruct (m_runningJob s) as [running|].
    - apply bind_inv in Hpar as (J & s0 & HJ & Hpar).
      apply load_inv in HJ as [-> HJ].
      destruct (is_null (m_parent J) && negb b).
      + apply bind_inv in Hpar as ([] & s2 & Hi & Hu).
        eapply same_queues_trans.
        * eapply (keeps_increment same_queues); [..|exact Hi]; same_queues_premises.
        * eapply (keeps_update same_queues); [..|exact Hu]; same_queues_premises.
      + injection Hpar as <-. apply same_queues_refl.
    - injection Hpar as <-. apply same_queues_refl. }
  mnorm_in H. apply bind_inv in H as ([] & s2 & Hp & H).
  mnorm_in H. injection H as <- <-. split; [reflexivity|].
  apply Push_inv in Hp as (d1 & Hq1 & ->).
  pose proof (queue_is_same_queues _ _ _ _ Hsame Hq) as Hq1'.
  assert (d1 = d) as ->.
  { destruct Hq1 as [_ H1], Hq1' as [_ H2]. congruence. }
  split.
  - destruct (queue_is_pushed q d j s1 Hq1) as [H0 Hd].
    split; [exact H0|]. destruct q; exact Hd.
  - intros q' d' Hne Hq'.
    pose proof (queue_is_same_queues _ _ _ _ Hsame Hq') as Hq2.
    destruct Hq1 as [H0 _].
    assert (Hne' : q <> q') by congruence.
    destruct (queue_is_other q q' (d ++ [j]) d' s1 Hne' H0 Hq2) as [K0 Kd].
    split; [exact K0|]. destruct q, q'; exact Kd.
Qed.

Lemma emits_steal_global (P : Event -> Prop) (remaining : nat) :
  (forall i r, P (EvPop (Global i) r)) -> forall i, emits P (steal remaining i).
Proof.
  intros H. induction remaining as [|n IH]; intros i; cbn [steal].
  - apply emits_ret.
  - apply emits_bind; [apply emits_get|]. intros s.
    apply emits_bind; [apply emits_Pop; intros r; apply H|]. intros [j|].
    + apply emits_ret.
    + apply IH.
Qed.

Lemma Work_select_own_pops (r : option ptr) (s s' : State) :
  Work_select s = Ok (r, s') ->
  exists pops, trace s' = trace s ++ pops /\
               Forall (own_local_pop (m_threadIndex s)) pops.
Proof.
  unfold Work_select. mnorm. intros H.
  apply bind_inv in H as (loc & s1 & Hp & H).
  apply Pop_inv in Hp as [_ Ht].
  destruct loc as [j|].
  - injection H as <- <-. eexists. split; [exact Ht|].
    constructor; [reflexivity | constructor].
  - apply (emits_steal_global (own_local_pop (m_threadIndex s))) in H
      as (pops & Ht2 & Hpops); [|intros; exact I].
    exists (EvPop (Local (m_threadIndex s)) None :: pops). split.
    + rewrite Ht2, Ht, <- app_assoc. reflexivity.
    + constructor; [reflexivity | exact Hpops].
Qed.

(** X6: thread affinity.  [ScheduleForThread] on a live job, with the
    running job (if any) live, returns the job, having appended it to the
    local queue of the thread it names and to no other queue; the overload
    that takes a functor fitting the storage of a block does so with the
    job it allocates, when the pool has a free block.  Whenever either
    returns, that is what it has done.  [Work] pops no local queue but the
    one of its own thread index: a job submitted for thread [t] is taken by
    worker [t] only. *)
Theorem thread_affinity (s : State) :
  (forall t job J d,
      heap s !! job = Some J ->
      queue_is (Local t) d s ->
      (forall r, m_runningJob s = Some r -> is_Some (heap s !! r)) ->
      exists s',
        ScheduleForThread t job s = Ok (job, s') /\
        queue_is (Local t) (d ++ [job]) s' /\
        forall q' d', q' <> Local t -> queue_is q' d' s -> queue_is q' d' s') /\
  (forall fuel t f d l,
      queue_is (Local t) d s ->
      chain (heap s) (m_freeJobList s) l ->
      (length l <= fuel)%nat ->
      g_allocator s <> [] ->
      sizeof_JobFunctor f <= blockSize - sizeof_Job ->
      (forall r, m_runningJob s = Some r ->
                 (r ∉ l) /\ (r ∉ g_allocator s) /\ is_Some (heap s !! r)) ->
      exists job s',
        ScheduleForThreadFunctor fuel t f s = Ok (job, s') /\
        (job ∈ l \/ exists rest, g_allocator s = job :: rest) /\
        queue_is (Local t) (d ++ [job]) s' /\
        forall q' d', q' <> Local t -> queue_is q' d' s -> queue_is q' d' s') /\
  (forall t job r s' d,
      queue_is (Local t) d s ->
      ScheduleForThread t job s = Ok (r, s') ->
      r = job /\ queue_is (Local t) (d ++ [job]) s' /\
      forall q' d', q' <> Local t -> queue_is q' d' s -> queue_is q' d' s') /\
  (forall fuel t f job s' d,
      queue_is (Local t) d s ->
      ScheduleForThreadFunctor fuel t f s = Ok (job, s') ->
      queue_is (Local t) (d ++ [job]) s' /\
      forall q' d', q' <> Local t -> queue_is q' d' s -> queue_is q' d' s') /\
  (forall fuel b s',
      Work fuel s = Ok (b, s') ->
      exists evs,
        trace s' = trace s ++ evs /\
        forall t r, EvPop (Local t) r ∈ evs -> t = m_threadIndex s).
Proof.
  split; [|split; [|split; [|split]]].
  - intros t job J d HJ Hq Hlive. unfold ScheduleForThread.
    destruct (ScheduleRaw_effects (Local t) job false J d s HJ Hq Hlive)
      as (s' & Hrun & Hq' & _).
    exists s'. split; [exact Hrun|]. split; [exact Hq'|].
    exact (proj2 (proj2 (ScheduleRaw_queues _ _ _ _ _ _ _ Hq Hrun))).
  - intros fuel t f d l Hq Hc Hlen Hpool Hfit Hlive.
    destruct (AllocateJob_total fuel f s l Hc Hlen Hpool) as (job & s1 & Hal).
    destruct (AllocateJob_inv fuel f s s1 job l Hc Hal)
      as ((size & Hjob) & Hwhere & Hframe & _ & Hr & _ & Hlq & Hgq & _).
    assert (Hsame : same_queues s s1) by (split; assumption).
    assert (Hq1 : queue_is (Local t) d s1)
      by exact (queue_is_same_queues _ _ _ _ Hsame Hq).
    assert (Hlive1 : forall r, m_runningJob s1 = Some r -> is_Some (heap s1 !! r)).
    { intros r Hrun. rewrite Hr in Hrun.
      destruct (Hlive r Hrun) as (Hrl & Hrp & [R HR]).
      destruct (Hframe Hfit r R) as (R' & HR' & _); [|exact Hrl|exact HR|eauto].
      intros ->. destruct Hwhere as [Hin|[rest Hrest]]; [contradiction|].
      apply Hrp. rewrite Hrest. apply list_elem_of_here. }
    destruct (ScheduleRaw_effects (Local t) job false _ d s1 Hjob Hq1 Hlive1)
      as (s' & Hrun & Hq' & _).
    exists job, s'. split.
    { unfold ScheduleForThreadFunctor. rewrite (bind_Ok _ _ _ _ _ Hal).
      exact Hrun. }
    split; [exact Hwhere|]. split; [exact Hq'|].
    intros q' d' Hne Hq0.
    apply (proj2 (proj2 (ScheduleRaw_queues _ _ _ _ _ _ _ Hq1 Hrun))); [exact Hne|].
    exact (queue_is_same_queues _ _ _ _ Hsame Hq0).
  - intros t job r s' d Hq H. unfold ScheduleForThread in H.
    eapply ScheduleRaw_queues; eauto.
  - intros fuel t f job s' d Hq H. unfold ScheduleForThreadFunctor in H.
    apply bind_inv in H as (j & s1 & Hal & H).
    pose proof (same_queues_AllocateJob _ _ _ _ _ Hal) as Hsame.
    unfold ScheduleForThread in H.
    destruct (ScheduleRaw_queues _ _ _ _ d _ _
                (queue_is_same_queues _ _ _ _ Hsame Hq) H) as (-> & Hq' & Hother).
    split; [exact Hq'|]. intros q' d' Hne Hq0. apply Hother; [exact Hne|].
    eapply queue_is_same_queues; eauto.
  - intros fuel b s' H. apply Work_inv in H as (job & s1 & Hsel & H).
    pose proof (Work_select_own_pops _ _ _ Hsel) as (pops & Ht1 & Hpops).
    assert (Hfin : forall rest, Forall (fun e => ~ is_pop e) rest ->
              trace s' = trace s1 ++ rest ->
              exists evs, trace s' = trace s ++ evs /\
                forall t r, EvPop (Local t) r ∈ evs -> t = m_threadIndex s).
    { intros rest Hrest Ht. exists (pops ++ rest).
      split; [now rewrite Ht, Ht1, app_assoc|].
      intros t r Hin. apply elem_of_app in Hin as [Hin|Hin].
      - rewrite Forall_forall in Hpops. exact (Hpops _ Hin).
      - rewrite Forall_forall in Hrest. destruct (Hrest _ Hin). exact I. }
    destruct job as [j|].
    + destruct H as [_ He]. apply emits_ExecuteJob in He as (evs & Ht & Hevs).
      apply (Hfin evs); [|exact Ht].
      eapply Forall_impl; [exact Hevs|]. intros e; destruct e; simpl; tauto.
    + destruct (m_deleteJobList s).
      * destruct H as [_ Hd]. apply emits_DeleteOldJobs in Hd as (evs & Ht & Hevs).
        apply (Hfin evs); [|exact Ht].
        eapply Forall_impl; [exact Hevs|]. intros e; destruct e; simpl; tauto.
      * destruct H as [_ ->]. apply (Hfin []); [constructor|].
        proj. now rewrite app_nil_r.
Qed.

Lemma thread_affinity_witness :
  exists s',
    ScheduleForThread 1 7%positive affinity_state = Ok (7%positive, s') /\
    queue_is (Local 1) [8%positive; 7%positive] s' /\
    queue_is (Global 0) [7%positive] s'.
Proof.
  destruct (thread_affinity affinity_state) as [Hpush _].
  destruct (Hpush 1 7%positive job0 [8%positive]) as (s' & Hrun & Hq & Hother).
  - reflexivity.
  - split; [simpl; lia | reflexivity].
  - intros r Hr. discriminate Hr.
  - exists s'. split; [exact Hrun|]. split; [exact Hq|].
    apply Hother; [discriminate|]. split; [simpl; lia | reflexivity].
Defined.

(** ** AllocateJob and the free list *)

Lemma find_fit_found (n : Z) (s : State) (fuel : nat) :
  forall (l : list positive) (head prev p : option ptr) (j : ptr) (s' : State),
  chain (heap s) head l ->
  find_fit fuel n prev head s = Ok ((p, Some j), s') ->
  exists a b J,
    l = a ++ j :: b /\
    p = match last a with Some x => Some x | None => prev end /\
    Forall (too_small (heap s) n) a /\
    heap s !! j = Some J /\ n <= m_functorSize J.
Proof.
  induction fuel as [|fuel IH]; intros l head prev p j s' Hc Hf.
  - destruct l as [|x l]; simpl in Hc.
    + subst head. discriminate Hf.
    + destruct Hc as (-> & J & HJ & _). simpl in Hf.
      rewrite (bind_Ok _ _ _ _ _ (load_Ok _ _ _ HJ)) in Hf.
      destruct (Z.ltb_spec (m_functorSize J) n); [discriminate|].
      injection Hf as <- <- <-. exists [], l, J. simpl. auto.
  - destruct l as [|x l]; simpl in Hc.
    + subst head. discriminate Hf.
    + destruct Hc as (-> & J & HJ & _ & _ & _ & Hrest). simpl in Hf.
      rewrite (bind_Ok _ _ _ _ _ (load_Ok _ _ _ HJ)) in Hf.
      destruct (Z.ltb_spec (m_functorSize J) n) as [Hlt|Hge].
      * destruct (IH l _ _ _ _ _ Hrest Hf) as (a & b & Jj & -> & Hp & Ha & HJj & Hfit).
        exists (x :: a), b, Jj. split; [reflexivity|]. split.
        -- rewrite Hp. destruct a as [|y a]; [reflexivity|].
           rewrite last_cons_cons.
           destruct (last (y :: a)) eqn:Hl; [reflexivity|].
           apply last_None in Hl. discriminate Hl.
        -- split; [|auto]. constructor; [|exact Ha]. exists J. auto.
      * injection Hf as <- <- <-. exists [], l, J. simpl. auto.
Qed.

Lemma find_fit_nothing (n : Z) (s : State) (fuel : nat) :
  forall (l : list positive) (head prev p : option ptr) (s' : State),
  chain (heap s) head l ->
  find_fit fuel n prev head s = Ok ((p, None), s') ->
  Forall (too_small (heap s) n) l.
Proof.
  induction fuel as [|fuel IH]; intros l head prev p s' Hc Hf.
  - destruct l as [|x l]; [constructor|]. simpl in Hc.
    destruct Hc as (-> & J & HJ & _). simpl in Hf.
    rewrite (bind_Ok _ _ _ _ _ (load_Ok _ _ _ HJ)) in Hf.
    destruct (m_functorSize J <? n); discriminate.
  - destruct l as [|x l]; [constructor|]. simpl in Hc.
    destruct Hc as (-> & J & HJ & _ & _ & _ & Hrest). simpl in Hf.
    rewrite (bind_Ok _ _ _ _ _ (load_Ok _ _ _ HJ)) in Hf.
    destruct (Z.ltb_spec (m_functorSize J) n) as [Hlt|Hge]; [|discriminate].
    constructor; [exists J; auto|]. eapply IH; eauto.
Qed.

Lemma first_fit_found (h : gmap positive Job) (n : Z) (a b : list positive)
    (j : ptr) (J : Job) :
  Forall (too_small h n) a -> h !! j = Some J -> n <= m_functorSize J ->
  first_fit h n (a ++ j :: b) = Some j.
Proof.
  intros Ha HJ Hfit. induction Ha as [|x a (X & HX & Hlt) _ IH]; cbn [first_fit app].
  - rewrite HJ. destruct (Z.ltb_spec (m_functorSize J) n); [lia | reflexivity].
  - rewrite HX. destruct (Z.ltb_spec (m_functorSize X) n); [exact IH | lia].
Qed.

Lemma first_fit_nothing (h : gmap positive Job) (n : Z) (l : list positive) :
  Forall (too_small h n) l -> first_fit h n l = None.
Proof.
  intros Hl. induction Hl as [|x l (X & HX & Hlt) _ IH]; cbn [first_fit].
  - reflexivity.
  - rewrite HX. destruct (Z.ltb_spec (m_functorSize X) n); [exact IH | lia].
Qed.

Lemma remove_first_middle (a b : list positive) (j : ptr) :
  j ∉ a -> remove_first j (a ++ j :: b) = a ++ b.
Proof.
  induction a as [|x a IH]; intros Hn; cbn [remove_first app].
  - now rewrite Pos.eqb_refl.
  - apply not_elem_of_cons in Hn as [Hne Hn].
    destruct (Pos.eqb_spec x j) as [->|_]; [contradiction|].
    now rewrite IH.
Qed.

Lemma chain_head_lookup (h : gmap positive Job) (j : ptr) (b : list positive)
    (J : Job) :
  chain h (Some j) (j :: b) -> h !! j = Some J -> chain h (m_parent J) b.
Proof.
  simpl. intros (_ & J' & HJ' & _ & _ & _ & Hr) HJ. congruence.
Qed.

(** Unlinking a record from the list: the records before it and after it
    stay linked, in order. *)
Lemma chain_unlink (h : gmap positive Job) (j : ptr) (J Xj : Job)
    (b : list positive) (a : list positive) :
  forall head,
  chain h head (a ++ j :: b) ->
  h !! j = Some J ->
  NoDup (a ++ j :: b) ->
  chain (<[j := Xj]> (unlinked h (last a) (m_parent J)))
        (match a with [] => m_parent J | _ => head end) (a ++ b).
Proof.
  induction a as [|x a IH]; intros head Hc HJ Hnd.
  - cbn [app last unlinked] in *. apply NoDup_cons in Hnd as [Hjb _].
    apply chain_insert_fresh; [exact Hjb|].
    destruct Hc as (-> & Hc'). eapply chain_head_lookup; [|exact HJ].
    simpl. split; [reflexivity | exact Hc'].
  - cbn [app] in *. apply NoDup_cons in Hnd as [Hx Hnd].
    simpl in Hc. destruct Hc as (-> & X & HX & Hk & Hn & Ha & Hrest).
    assert (Hxj : x <> j).
    { intros ->. apply Hx. apply elem_of_app. right. left. }
    destruct a as [|y a].
    + (* [x] is the record before [j] *)
      cbn [app last unlinked] in *. rewrite HX.
      apply NoDup_cons in Hnd as [Hjb _].
      assert (Hxb : x ∉ b).
      { intros Hin. apply Hx. now right. }
      simpl. split; [reflexivity|].
      exists (set_parent (m_parent J) X).
      rewrite lookup_insert_ne by congruence. rewrite lookup_insert_eq.
      split; [reflexivity|]. proj. repeat (split; [assumption|]).
      apply chain_insert_fresh; [exact Hjb|].
      apply chain_insert_fresh; [exact Hxb|].
      destruct Hrest as (_ & Hrest'). eapply chain_head_lookup; [|exact HJ].
      simpl. split; [reflexivity | exact Hrest'].
    + specialize (IH (m_parent X) Hrest HJ Hnd).
      rewrite last_cons_cons.
      cbn [app] in IH |- *.
      simpl. split; [reflexivity|]. exists X.
      assert (Hlast : exists p, last (y :: a) = Some p /\ p ∈ y :: a).
      { destruct (last (y :: a)) as [p|] eqn:Hl.
        - exists p. split; [reflexivity|]. apply last_Some in Hl as (l' & Hl).
          rewrite Hl. apply elem_of_app. right. left.
        - apply last_None in Hl. discriminate Hl. }
      destruct Hlast as (p & Hl & Hp). rewrite Hl in IH |- *.
      assert (Hxp : x <> p).
      { intros ->. apply Hx. apply elem_of_app. now left. }
      split.
      * rewrite lookup_insert_ne by congruence.
        unfold unlinked. destruct (h !! p) as [P|];
          [rewrite lookup_insert_ne by congruence|]; exact HX.
      * repeat (split; [assumption|]). exact IH.
Qed.

Lemma chain_small_lookup (h : gmap positive Job) (l : list positive)
    (head : option ptr) (p : ptr) :
  chain h head l -> p ∈ l -> exists P, h !! p = Some P.
Proof.
  intros Hc Hin. destruct (chain_lookup _ _ _ _ Hc Hin) as (P & HP & _). eauto.
Qed.

Lemma Job_SetFunctor_reset (f : Functor) (J : Job) :
  m_continuation J = None -> m_jobsLeft J = 1 ->
  Job_SetFunctor f (set_parent None J) = allocated (m_functorSize J) f.
Proof. intros Hk Hn. unfold Job_SetFunctor, allocated. proj. now rewrite Hk, Hn. Qed.

(** [AllocateJob] when the search finds the record [j] behind the records
    [a], all too small. *)
Lemma AllocateJob_reuses (fuel : nat) (f : Functor) (s : State)
    (a b : list positive) (j : ptr) (J : Job) (p : option ptr) :
  free_list_is (a ++ j :: b) s ->
  find_fit fuel (Z.max (sizeof_JobFunctor f) 24) None (m_freeJobList s) s
    = Ok ((p, Some j), s) ->
  p = last a ->
  heap s !! j = Some J ->
  exists s',
    AllocateJob fuel f s = Ok (j, s') /\
    free_list_is (a ++ b) s' /\
    g_allocator s' = g_allocator s /\ trace s' = trace s /\
    heap s' !! j = Some (allocated (m_functorSize J) f).
Proof.
  intros (Hc & Hcount & Hmax) Hf -> HJ.
  pose proof (chain_NoDup _ _ _ Hc) as Hnd.
  assert (Hjl : j ∈ a ++ j :: b) by (apply elem_of_app; right; left).
  destruct (chain_lookup _ _ _ _ Hc Hjl) as (J' & HJ' & Hk & Hn & _).
  assert (J' = J) as -> by congruence.
  assert (Hlen : wrap_size_t (m_freeJobListCount s - 1) = Z.of_nat (length (a ++ b))).
  { rewrite wrap_size_t_small; rewrite Hcount in *;
      rewrite !length_app in *; cbn [length] in *; lia. }
  assert (Hmax' : wrap_size_t (m_freeJobListCount s - 1) < 2 ^ 64).
  { unfold wrap_size_t. apply Z.mod_pos_bound. lia. }
  pose proof (chain_unlink (heap s) j J (allocated (m_functorSize J) f) b a
                (m_freeJobList s) Hc HJ Hnd) as Hchain.
  assert (Hfits : sizeof_JobFunctor f <= m_functorSize J).
  { destruct (find_fit_fits _ _ _ _ _ _ _ _ _ Hc Hf) as (J' & HJ2 & Hsize).
    assert (J' = J) as -> by congruence. lia. }
  unfold AllocateJob. mnorm. rewrite (bind_Ok _ _ _ _ _ Hf). mnorm.
  mstep load_Ok.
  destruct (last a) as [x|] eqn:Hlast.
  - assert (Hxa : x ∈ a).
    { apply last_Some in Hlast as (a' & ->). apply elem_of_app. right. left. }
    assert (Hxl : x ∈ a ++ j :: b) by (apply elem_of_app; now left).
    destruct (chain_small_lookup _ _ _ _ Hc Hxl) as (X & HX).
    assert (Hxj : x <> j).
    { intros ->. apply NoDup_app in Hnd as (_ & Hdis & _).
      apply (Hdis j Hxa). left. }
    cbn [unlinked] in Hchain. rewrite HX in Hchain.
    mstep update_Ok. mstep' update_Ok.
    erewrite bind_Ok; [|apply SetFunctor_fits; [heap_lookup | exact Hfits]].
    mnorm.
    eexists. split; [reflexivity|]. proj.
    rewrite insert_insert_eq, Job_SetFunctor_reset by assumption.
    split; [|split; [reflexivity | split; [reflexivity | apply lookup_insert_eq]]].
    split; [|split; [exact Hlen | exact Hmax']]. proj.
    destruct a as [|y a]; [discriminate Hlast | exact Hchain].
  - apply last_None in Hlast. subst a. cbn [unlinked app] in *.
    mnorm. mstep update_Ok.
    erewrite bind_Ok; [|apply SetFunctor_fits; [heap_lookup | exact Hfits]].
    mnorm.
    eexists. split; [reflexivity|]. proj.
    rewrite insert_insert_eq, Job_SetFunctor_reset by assumption.
    split; [|split; [reflexivity | split; [reflexivity | apply lookup_insert_eq]]].
    split; [exact Hchain | split; [exact Hlen | exact Hmax']].
Qed.

Lemma chain_overwrite_block (b : ptr) (h : gmap positive Job)
    (l : list positive) :
  forall (head : option ptr),
  chain h head l -> chain (overwrite_block b h) head l.
Proof.
  induction l as [|x l IH]; intros head Hc; simpl in *.
  - exact Hc.
  - destruct Hc as (-> & J & HJ & Hk & Hn & Ha & Hrest).
    split; [reflexivity|].
    destruct (overwrite_block_header b x h J HJ)
      as (J' & HJ' & H1 & H2 & H3 & H4 & _).
    exists J'. split; [exact HJ'|].
    rewrite H1, H2, H3, H4. repeat (split; [assumption|]).
    now apply IH.
Qed.

(** [AllocateJob] when the search finds nothing: the pool is asked, under
    the lock; the free list stays when the functor fits the block. *)
Lemma AllocateJob_takes_block (fuel : nat) (f : Functor) (s : State)
    (l : list positive) (p : option ptr) :
  free_list_is l s ->
  find_fit fuel (Z.max (sizeof_JobFunctor f) 24) None (m_freeJobList s) s
    = Ok ((p, None), s) ->
  (forall b rest,
      g_allocator s = b :: rest -> b ∉ l ->
      sizeof_JobFunctor f <= blockSize - sizeof_Job ->
      exists s',
        AllocateJob fuel f s = Ok (b, s') /\
        free_list_is l s' /\ g_allocator s' = rest /\
        heap s' !! b = Some (allocated (blockSize - sizeof_Job) f)) /\
  (g_allocator s = [] -> AllocateJob fuel f s = AssertFailed).
Proof.
  intros (Hc & Hcount & Hmax) Hf. split.
  - intros b rest Hpool Hbl Hfit.
    unfold AllocateJob. mnorm. rewrite (bind_Ok _ _ _ _ _ Hf). mnorm.
    erewrite bind_Ok; [|apply Pool_Allocate_cons; proj; exact Hpool].
    mnorm. unfold ASSERT at 1. unfold bind at 1. simpl bool_decide.
    cbv iota beta. unfold store. mnorm.
    erewrite bind_Ok;
      [|apply SetFunctor_fits; [proj; apply lookup_insert_eq | exact Hfit]].
    mnorm.
    eexists. split; [reflexivity|]. proj. rewrite insert_insert_eq.
    split; [|split; [reflexivity | apply lookup_insert_eq]].
    split; [|split; [exact Hcount | exact Hmax]]. proj.
    apply chain_insert_fresh; [exact Hbl|]. now apply chain_overwrite_block.
  - intros Hpool.
    unfold AllocateJob. mnorm. rewrite (bind_Ok _ _ _ _ _ Hf). mnorm.
    erewrite bind_Ok; [|apply Pool_Allocate_nil; proj; exact Hpool].
    reflexivity.
Qed.

(** X7: [AllocateJob] is first fit on the free list.  It reuses the first
    record whose capacity is at least the size of the functor, or 24 if the
    functor is smaller, unlinks exactly that record, keeps the others
    linked in their order and the counter equal to the length of the list,
    and takes no block and no lock.  When no record fits it takes the first
    free block of the pool, and for a functor that fits the storage of a
    block it leaves the free list alone; with an empty pool it fails the
    assertion. *)
Theorem AllocateJob_first_fit (fuel : nat) (f : Functor) (s : State)
    (l : list positive) :
  free_list_is l s ->
  (length l <= fuel)%nat ->
  (forall j,
      first_fit (heap s) (Z.max (sizeof_JobFunctor f) 24) l = Some j ->
      exists s' size,
        AllocateJob fuel f s = Ok (j, s') /\
        free_list_is (remove_first j l) s' /\
        g_allocator s' = g_allocator s /\ trace s' = trace s /\
        heap s' !! j = Some (allocated size f) /\
        Z.max (sizeof_JobFunctor f) 24 <= size) /\
  (first_fit (heap s) (Z.max (sizeof_JobFunctor f) 24) l = None ->
   (forall b rest,
       g_allocator s = b :: rest -> b ∉ l ->
       sizeof_JobFunctor f <= blockSize - sizeof_Job ->
       exists s',
         AllocateJob fuel f s = Ok (b, s') /\
         free_list_is l s' /\ g_allocator s' = rest /\
         heap s' !! b = Some (allocated (blockSize - sizeof_Job) f)) /\
   (g_allocator s = [] -> AllocateJob fuel f s = AssertFailed)).
Proof.
  intros Hfl Hlen. pose proof Hfl as (Hc & Hcount & Hmax).
  set (n := Z.max (sizeof_JobFunctor f) 24).
  destruct (find_fit_total n s l fuel (m_freeJobList s) None Hc Hlen)
    as [[p jo] Hf].
  destruct jo as [j'|].
  - destruct (find_fit_found n s fuel l _ _ _ _ _ Hc Hf)
      as (a & b & J & -> & Hp & Ha & HJ & Hfit).
    rewrite (first_fit_found _ _ _ _ _ _ Ha HJ Hfit).
    split; [|discriminate].
    intros j [= <-].
    assert (Hp' : p = last a) by (rewrite Hp; now destruct (last a)).
    destruct (AllocateJob_reuses fuel f s a b j' J p Hfl Hf Hp' HJ)
      as (s' & Hrun & Hfl' & Hpool & Htr & Hheap).
    exists s', (m_functorSize J).
    split; [exact Hrun|].
    rewrite remove_first_middle.
    + repeat (split; [assumption|]). exact Hfit.
    + pose proof (chain_NoDup _ _ _ Hc) as Hnd.
      apply NoDup_app in Hnd as (_ & Hdis & _).
      intros Hin. apply (Hdis _ Hin). left.
  - rewrite (first_fit_nothing _ _ _ (find_fit_nothing n s fuel l _ _ _ _ Hc Hf)).
    split; [discriminate|]. intros _.
    exact (AllocateJob_takes_block fuel f s l p Hfl Hf).
Qed.

Lemma AllocateJob_first_fit_witness :
  exists s',
    AllocateJob 3 (Fn 64 []) three_free_jobs = Ok (6%positive, s') /\
    free_list_is [5%positive; 7%positive] s'.
Proof.
  assert (Hfl : free_list_is [5%positive; 6%positive; 7%positive] three_free_jobs).
  { split; [|split; reflexivity]. simpl.
    repeat (first [reflexivity | split; [reflexivity|] | eexists]). }
  destruct (AllocateJob_first_fit 3 (Fn 64 []) three_free_jobs _ Hfl) as [Hfit _];
    [simpl; lia|].
  destruct (Hfit 6%positive) as (s' & size & Hrun & Hfl' & _); [reflexivity|].
  exists s'. split; [exact Hrun | exact Hfl'].
Defined.

(** X8: a record given back by [DeallocateJob] while the free list is below
    its limit is the record the next [AllocateJob] hands out, whenever its
    capacity is enough for the functor: the pool is not asked, no lock is
    taken, the free list and its counter are as they were before the
    record was given back, and no other record is written. *)
Theorem recycled_record_is_reused (fuel : nat) (f : Functor) (s : State)
    (fl : list positive) (job : ptr) (J : Job) :
  free_list_is fl s ->
  (length fl < 100)%nat ->
  heap s !! job = Some J ->
  job ∉ fl ->
  Z.max (sizeof_JobFunctor f) 24 <= m_functorSize J ->
  exists s',
    (DeallocateJob job ;; AllocateJob fuel f) s = Ok (job, s') /\
    heap s' = <[job := allocated (m_functorSize J) f]> (heap s) /\
    free_list_is fl s' /\
    m_freeJobList s' = m_freeJobList s /\
    g_allocator s' = g_allocator s /\
    trace s' = trace s ++ [EvRecycle job FreeList].
Proof.
  intros (Hc & Hcount & Hmax) Hlen HJ Hnl Hfit.
  rewrite (bind_Ok _ _ _ _ _ (DeallocateJob_Ok job J s HJ)).
  unfold recycled.
  destruct (Z.leb_spec 100 (m_freeJobListCount s)) as [Hge|Hlt]; [lia|].
  assert (Hback : wrap_size_t (wrap_size_t (m_freeJobListCount s + 1) - 1)
                  = m_freeJobListCount s).
  { rewrite (wrap_size_t_small (m_freeJobListCount s + 1)) by lia.
    rewrite wrap_size_t_small by lia. lia. }
  unfold AllocateJob. mnorm.
  assert (Hfind : forall s1,
             heap s1 = <[job := set_parent (m_freeJobList s) (Job_Reset J)]> (heap s) ->
             find_fit fuel (Z.max (sizeof_JobFunctor f) 24) None (Some job) s1
             = Ok ((None, Some job), s1)).
  { intros s1 Hh.
    assert (Hl : load job s1
                 = Ok (set_parent (m_freeJobList s) (Job_Reset J), s1)).
    { apply load_Ok. rewrite Hh. apply lookup_insert_eq. }
    destruct fuel; cbn [find_fit]; rewrite (bind_Ok _ _ _ _ _ Hl);
      unfold Job_Reset; proj;
      destruct (Z.ltb_spec (m_functorSize J) (Z.max (sizeof_JobFunctor f) 24));
      solve [lia | reflexivity]. }
  erewrite bind_Ok; [|apply Hfind; reflexivity].
  mnorm. mnorm. mstep' load_Ok.
  mnorm. mstep' update_Ok.
  erewrite bind_Ok;
    [|apply SetFunctor_fits; [heap_lookup | unfold Job_Reset; proj; lia]].
  mnorm.
  eexists. split; [reflexivity|]. proj.
  rewrite !insert_insert_eq, Hback.
  split; [reflexivity|].
  split; [|auto].
  split; [|split; assumption]. proj.
  now apply chain_insert_fresh.
Qed.

Lemma recycled_record_is_reused_witness :
  exists s',
    (DeallocateJob 1%positive ;; AllocateJob 0 (Fn 50 [])) running_with_free_job
      = Ok (1%positive, s') /\
    free_list_is [5%positive] s'.
Proof.
  destruct (recycled_record_is_reused 0 (Fn 50 []) running_with_free_job
              [5%positive] 1%positive job0) as (s' & Hrun & _ & Hfl & _).
  - split; [|split; reflexivity]. simpl.
    repeat (first [reflexivity | split; [reflexivity|] | eexists]).
  - simpl. lia.
  - reflexivity.
  - intros Hin. apply list_elem_of_singleton in Hin. discriminate Hin.
  - vm_compute. discriminate.
  - exists s'. split; [exact Hrun | exact Hfl].
Defined.

(** X9: [Continuation] allocates a record for the functor and stores it in
    the continuation field of the running job.  For a functor that fits the
    storage of a block, with every functor already in memory fitting its
    record, the new record is not the running job, has no parent and a
    counter of 1; the running job's record is otherwise as it was, no queue
    is changed, and nothing is pushed or notified: the trace grows by the
    pool allocation at most.  Called with no running job, the store goes
    through a null pointer, after the allocation has been made. *)
Theorem Continuation_attaches_unqueued (fuel : nat) (f : Functor) (s : State)
    (l : list positive) :
  chain (heap s) (m_freeJobList s) l ->
  (length l <= fuel)%nat ->
  g_allocator s <> [] ->
  (forall r R,
      m_runningJob s = Some r -> heap s !! r = Some R ->
      r ∉ l -> r ∉ g_allocator s ->
      sizeof_JobFunctor f <= blockSize - sizeof_Job ->
      functors_fit (heap s) ->
      exists k size s',
        Continuation fuel f s = Ok (tt, s') /\
        k <> r /\
        heap s' !! r = Some (set_continuation (Some k) R) /\
        heap s' !! k = Some (allocated size f) /\
        (k ∈ l \/ exists rest, g_allocator s = k :: rest) /\
        m_localQueues s' = m_localQueues s /\
        m_globalQueues s' = m_globalQueues s /\
        m_runningJob s' = Some r /\
        (trace s' = trace s \/
         trace s' = trace s ++
                    [EvLockAlloc; EvPoolAllocate (Some k); EvUnlockAlloc])) /\
  (m_runningJob s = None -> Continuation fuel f s = Undefined).
Proof.
  intros Hc Hlen Hpool.
  destruct (AllocateJob_total fuel f s l Hc Hlen Hpool) as (k & s1 & Hrun).
  destruct (AllocateJob_inv fuel f s s1 k l Hc Hrun)
    as ((size & Hk) & Hfrom & Hframe & Htr & Hr & _ & Hlq & Hgq & _).
  split.
  - intros r R Hrunning HR Hrl Hrp Hfit Hall.
    assert (Hne : r <> k).
    { intros ->. destruct Hfrom as [Hin | (rest & Hp)]; [contradiction|].
      apply Hrp. rewrite Hp. left. }
    destruct (Hframe Hfit r R Hne Hrl HR) as (R1 & HR1 & _ & HReq).
    rewrite (HReq Hall) in HR1.
    exists k, size. unfold Continuation.
    rewrite (bind_Ok _ _ _ _ _ Hrun). mnorm. rewrite Hr, Hrunning.
    erewrite update_Ok; [|exact HR1].
    eexists. split; [reflexivity|]. proj.
    split; [congruence|].
    split; [apply lookup_insert_eq|].
    split; [rewrite lookup_insert_ne by exact Hne; exact Hk|].
    split; [exact Hfrom|].
    split; [exact Hlq|]. split; [exact Hgq|].
    split; [congruence | exact Htr].
  - intros Hnone. unfold Continuation.
    rewrite (bind_Ok _ _ _ _ _ Hrun). mnorm. rewrite Hr, Hnone. reflexivity.
Qed.

Lemma Continuation_attaches_unqueued_witness :
  exists k s',
    Continuation 1 (Fn 24 []) running_with_free_job = Ok (tt, s') /\
    (m_continuation <$> heap s' !! 1%positive) = Some (Some k) /\
    m_globalQueues s' = [[]].
Proof.
  destruct (Continuation_attaches_unqueued 1 (Fn 24 []) running_with_free_job
              [5%positive]) as [Hsome _].
  - simpl. repeat (first [reflexivity | split; [reflexivity|] | eexists]).
  - simpl. lia.
  - discriminate.
  - destruct (Hsome 1%positive job0) as (k & size & s' & Hrun & _ & Hr & _ & _ & _ & Hgq & _).
    + reflexivity.
    + reflexivity.
    + intros Hin. apply list_elem_of_singleton in Hin. discriminate Hin.
    + intros Hin. apply elem_of_cons in Hin as [Hin|Hin]; [discriminate Hin|].
      apply list_elem_of_singleton in Hin. discriminate Hin.
    + vm_compute. discriminate.
    + intros x X f HX Hf. cbn [heap running_with_free_job] in HX.
      apply lookup_insert_Some in HX as [[<- <-] | [_ HX]].
      * injection Hf as <-. vm_compute. discriminate.
      * apply lookup_singleton_Some in HX as [<- <-]. discriminate Hf.
    + exists k, s'. split; [exact Hrun|]. split; [|exact Hgq].
      rewrite Hr. reflexivity.
Defined.

Lemma wrap_uint_small (x : Z) : 0 <= x < 2 ^ 32 -> wrap_uint x = x.
Proof. intros H. unfold wrap_uint. now apply Z.mod_small. Qed.

Lemma Init_worker_indices (n : Z) :
  0 <= n < 2 ^ 31 ->
  map (fun i => wrap_uint (wrap_int (wrap_uint (i + 1)))) (seqZ 0 n) = seqZ 1 n.
Proof.
  intros Hn.
  replace (seqZ 1 n) with (Z.add 1 <$> seqZ 0 n)
    by (rewrite fmap_add_seqZ; reflexivity).
  apply map_ext_in. intros i Hi.
  apply list_elem_of_In, elem_of_seqZ in Hi.
  rewrite (wrap_uint_small (i + 1)) by lia.
  rewrite wrap_int_small by lia.
  rewrite wrap_uint_small by lia. lia.
Qed.

Lemma grow_queues_nil (capacity n : Z) :
  grow_queues capacity [] n = replicate (Z.to_nat n) [].
Proof. unfold grow_queues. cbn [length replicate]. now destruct (_ <=? _). Qed.

Lemma grow_queues_none (capacity : Z) (qs : list (list positive)) :
  grow_queues capacity qs 0 = qs.
Proof.
  unfold grow_queues.
  destruct (Z.leb_spec (Z.of_nat (length qs) + 0)
                       (Z.max capacity (Z.of_nat (length qs)))) as [_|H]; [|lia].
  apply app_nil_r.
Qed.

(** X10: [Init] on a scheduler without queues, when the hardware reports
    between 1 and 2^31 threads and storage for that many is available: it
    makes one empty local and one empty
    global queue per thread, keeps index 0 for the calling thread and starts
    one worker for each index from 1 to the thread count minus 1, in this
    order.  The calling thread and every started worker then see a thread
    index below the thread count and a queue of each kind at every index,
    which is what [Work] relies on.  Jobs and lists are not touched. *)
Theorem Init_starts_workers (hardware_concurrency : Z)
    (capacity_local capacity_global : Z) (memory : Z) (s : State) :
  m_localQueues s = [] -> m_globalQueues s = [] ->
  1 <= hardware_concurrency <= 2 ^ 31 ->
  hardware_concurrency <= memory ->
  exists s',
    Init hardware_concurrency capacity_local capacity_global memory s
      = Started (seqZ 1 (hardware_concurrency - 1)) s' /\
    m_threadIndex s' = 0 /\
    m_threadCount s' = hardware_concurrency /\
    m_localQueues s' = replicate (Z.to_nat hardware_concurrency) [] /\
    m_globalQueues s' = replicate (Z.to_nat hardware_concurrency) [] /\
    worker_ok s' /\
    (forall t, t ∈ seqZ 1 (hardware_concurrency - 1) ->
               worker_ok (with_threadIndex t s')) /\
    heap s' = heap s /\ g_allocator s' = g_allocator s /\
    m_runningJob s' = m_runningJob s /\ m_stop s' = m_stop s /\
    trace s' = trace s.
Proof.
  intros Hl Hg Hhw Hmem. unfold Init.
  rewrite (wrap_uint_small hardware_concurrency) by lia.
  destruct (Z.ltb_spec memory hardware_concurrency) as [Hlow|_]; [lia|].
  rewrite andb_false_r.
  rewrite (wrap_uint_small (hardware_concurrency - 1)) by lia.
  rewrite wrap_int_small by lia.
  destruct (Z.ltb_spec (hardware_concurrency - 1) 0) as [Hneg|_]; [lia|].
  rewrite Init_worker_indices by lia.
  eexists. split; [reflexivity|]. proj. rewrite Hl, Hg.
  rewrite !grow_queues_nil.
  split; [reflexivity|]. split; [reflexivity|].
  split; [reflexivity|]. split; [reflexivity|].
  split.
  { unfold worker_ok. proj. rewrite !length_replicate. lia. }
  split.
  { intros t Ht. apply elem_of_seqZ in Ht.
    unfold worker_ok. proj. rewrite !length_replicate. lia. }
  auto 10.
Qed.

Lemma Init_starts_workers_witness :
  exists s',
    Init 4 0 0 4 (init_state 0 [9%positive]) = Started [1; 2; 3] s' /\
    worker_ok (with_threadIndex 3 s').
Proof.
  destruct (Init_starts_workers 4 0 0 4 (init_state 0 [9%positive]))
    as (s' & Hrun & _ & _ & _ & _ & _ & Hworkers & _).
  - reflexivity.
  - reflexivity.
  - lia.
  - lia.
  - exists s'. split; [exact Hrun|]. apply Hworkers.
    apply elem_of_seqZ. lia.
Defined.

(** X11: when the hardware reports 0 threads, [Init] creates no queue,
    starts no worker and ends in the [std::length_error] of
    [m_workers.resize], because the count minus 1 is negative as an [int];
    the queue vectors are as they were, and no storage is needed.  When
    [Init] ends in that error, the count is 0 or above 2^31: for a count
    from 1 to 2^31 it does not. *)
Theorem Init_fails_on_zero_threads (hardware_concurrency : Z)
    (capacity_local capacity_global : Z) (memory : Z) (s : State) :
  (wrap_uint hardware_concurrency = 0 ->
   exists s',
     Init hardware_concurrency capacity_local capacity_global memory s
       = LengthError s' /\
     m_threadCount s' = 0 /\
     m_localQueues s' = m_localQueues s /\
     m_globalQueues s' = m_globalQueues s) /\
  (forall s',
      Init hardware_concurrency capacity_local capacity_global memory s
        = LengthError s' ->
      wrap_uint hardware_concurrency = 0 \/
      2 ^ 31 < wrap_uint hardware_concurrency).
Proof.
  assert (Hrange : 0 <= wrap_uint hardware_concurrency < 2 ^ 32).
  { unfold wrap_uint. apply Z.mod_pos_bound. lia. }
  split.
  - intros Hz. unfold Init. rewrite Hz.
    change (0 <? 0) with false. cbn [andb].
    assert (Hm : wrap_int (wrap_uint (0 - 1)) = -1) by (vm_compute; reflexivity).
    rewrite Hm.
    destruct (Z.ltb_spec (-1) 0) as [_|Hpos]; [|lia].
    eexists. split; [reflexivity|]. proj.
    rewrite !grow_queues_none. auto.
  - unfold Init. intros s' Hrun.
    destruct ((0 <? wrap_uint hardware_concurrency) &&
              (memory <? wrap_uint hardware_concurrency));
      [discriminate Hrun|].
    destruct (Z.ltb_spec
                (wrap_int (wrap_uint (wrap_uint hardware_concurrency - 1))) 0)
      as [Hneg|Hpos]; [|discriminate Hrun].
    destruct (Z.eq_dec (wrap_uint hardware_concurrency) 0) as [|Hnz];
      [now left|right].
    rewrite (wrap_uint_small (wrap_uint hardware_concurrency - 1)) in Hneg
      by lia.
    destruct (Z.le_gt_cases (wrap_uint hardware_concurrency) (2 ^ 31))
      as [Hle|Hgt]; [|lia].
    rewrite wrap_int_small in Hneg by lia. lia.
Qed.

(** X12: [RunJob] of a functor that submits nothing, called outside any job
    with the pool not empty.  The functor runs on the calling thread in a
    record [AllocateJob] provides; [Work] and [WaitFor] are not called, no
    queue is touched and nothing is notified; the record's counter is
    decremented from 1 and the record is reset and recycled before [RunJob]
    returns, with no job left running.  Called while a job runs on the
    thread, [RunJob] fails its assertion instead. *)
Theorem RunJob_leaf_functor (fuel : nat) (n : Z) (s : State)
    (l : list positive) :
  chain (heap s) (m_freeJobList s) l ->
  (length l <= S fuel)%nat ->
  g_allocator s <> [] ->
  (m_runningJob s = None ->
   exists j c s',
     RunJob (S fuel) (Fn n []) s = Ok (tt, s') /\
     (j ∈ l \/ exists rest, g_allocator s = j :: rest) /\
     (trace s' = trace s ++
                 [EvInvoke j; EvReturn j; EvFetchSub j 1; EvRecycle j c] \/
      trace s' = trace s ++
                 [EvLockAlloc; EvPoolAllocate (Some j); EvUnlockAlloc] ++
                 [EvInvoke j; EvReturn j; EvFetchSub j 1; EvRecycle j c]) /\
     (m_functorActive <$> heap s' !! j) = Some false /\
     m_localQueues s' = m_localQueues s /\
     m_globalQueues s' = m_globalQueues s /\
     m_runningJob s' = None) /\
  (m_runningJob s <> None -> RunJob (S fuel) (Fn n []) s = AssertFailed).
Proof.
  intros Hc Hlen Hpool. split.
  - intros Hnone.
    destruct (AllocateJob_total (S fuel) (Fn n []) s l Hc Hlen Hpool)
      as (j & s1 & Hrun).
    destruct (AllocateJob_inv (S fuel) (Fn n []) s s1 j l Hc Hrun)
      as ((size & Hj) & Hfrom & _ & Htr & _ & _ & Hlq & Hgq & _).
    exists j,
      (if 100 <=? m_freeJobListCount s1 then DeleteList else FreeList).
    unfold RunJob. mnorm. rewrite Hnone. cbn [is_null].
    unfold ASSERT at 1. unfold bind at 1.
    rewrite (bind_Ok _ _ _ _ _ Hrun).
    destruct (RunJob_loop_leaf fuel fuel j size n s1 Hj)
      as (s' & Hloop & Htr' & Hact & Hlq' & Hgq' & _ & Hr').
    exists s'. split; [exact Hloop|].
    split; [exact Hfrom|].
    split.
    { rewrite Htr'. destruct Htr as [-> | ->]; [left|right];
        rewrite <- ?app_assoc; reflexivity. }
    split; [exact Hact|].
    split; [congruence|]. split; [congruence | exact Hr'].
  - intros Hsome. unfold RunJob. mnorm.
    destruct (m_runningJob s); [reflexivity | contradiction].
Qed.

Lemma RunJob_leaf_functor_witness :
  exists s',
    RunJob 1 (Fn 24 []) one_free_job = Ok (tt, s') /\
    m_globalQueues s' = [[]] /\ m_runningJob s' = None.
Proof.
  destruct (RunJob_leaf_functor 0 24 one_free_job [5%positive]) as [Hrun _].
  - simpl. repeat (first [reflexivity | split; [reflexivity|] | eexists]).
  - simpl. lia.
  - discriminate.
  - destruct (Hrun eq_refl) as (j & c & s' & H & _ & _ & _ & _ & Hgq & Hr).
    exists s'. split; [exact H|]. split; [exact Hgq | exact Hr].
Defined.
(** X13: the completion of a job bubbles up.  When the job and a line of
    its ancestors each have a counter of 1 and no continuation, one call
    of [OnJobDone] decrements them all from the job upwards, decrements
    once more the first ancestor that waits for other work, and stops
    there; then it resets and recycles the finished records from the
    topmost down to the job itself.  The waiting ancestor keeps its record
    with the counter one lower, every finished record ends with its functor
    destroyed and a counter of 1, no other record and no queue is
    changed. *)
Theorem OnJobDone_bubbles_up (fuel : nat) (j : ptr) (l : list positive)
    (top : option ptr) (s : State) :
  finishing (heap s) j l top ->
  NoDup (j :: l) ->
  top_waits (heap s) (j :: l) top ->
  (length l + 2 <= fuel)%nat ->
  exists s' evs,
    OnJobDone fuel j s = Ok (tt, s') /\
    trace s' = trace s ++ map (fun x => EvFetchSub x 1) (j :: l) ++
               decrement_of (heap s) top ++ evs /\
    Forall2 recycles (rev (j :: l)) evs /\
    (forall x, x ∉ j :: l -> top <> Some x -> heap s' !! x = heap s !! x) /\
    (forall x, x ∈ j :: l ->
       exists X, heap s' !! x = Some X /\ m_functorActive X = false /\
                 m_jobsLeft X = 1 /\ m_continuation X = None) /\
    (forall t T, top = Some t -> heap s !! t = Some T ->
       heap s' !! t = Some (set_jobsLeft (wrap_int (m_jobsLeft T - 1)) T)) /\
    m_localQueues s' = m_localQueues s /\
    m_globalQueues s' = m_globalQueues s.
Proof.
  intros Hfin Hnd Htop Hfuel.
  destruct (OnJobDone_chain fuel j l top s Hfin Hnd Htop Hfuel)
    as (s' & evs & Hrun & Htr & Hev & Hframe & Hreset & Hdec & Hlq & Hgq & _).
  exists s', evs. auto 10.
Qed.


Lemma OnJobDone_bubbles_up_witness :
  exists s' c2 c3,
    OnJobDone 3 3%positive three_generations = Ok (tt, s') /\
    trace s' = [EvFetchSub 3%positive 1; EvFetchSub 2%positive 1;
                EvFetchSub 1%positive 3;
                EvRecycle 2%positive c2; EvRecycle 3%positive c3] /\
    (m_jobsLeft <$> heap s' !! 1%positive) = Some 2.
Proof.
  destruct (OnJobDone_bubbles_up 3 3%positive [2%positive] (Some 1%positive)
              three_generations)
    as (s' & evs & Hrun & Htr & Hev & _ & _ & Htop & _).
  - simpl. repeat (first [reflexivity | split; [reflexivity|] | eexists]).
  - apply NoDup_cons. split.
    + intros Hin. apply list_elem_of_singleton in Hin. discriminate Hin.
    + apply NoDup_singleton.
  - split.
    + intros Hin. apply elem_of_cons in Hin as [Hin|Hin]; [discriminate Hin|].
      apply list_elem_of_singleton in Hin. discriminate Hin.
    + eexists. split; [reflexivity|]. simpl. discriminate.
  - simpl. lia.
  - cbn [rev app] in Hev.
    apply Forall2_cons_inv_l in Hev as (e2 & evs' & (c2 & ->) & Hev & ->).
    apply Forall2_cons_inv_l in Hev as (e3 & evs'' & (c3 & ->) & Hev & ->).
    apply Forall2_nil_inv_l in Hev as ->.
    exists s', c2, c3. split; [exact Hrun|]. split; [exact Htr|].
    rewrite (Htop 1%positive _ eq_refl eq_refl). reflexivity.
Defined.

(** X14: [Audio::Play] starts the clip on the first source that is not
    reported as playing, and on that one only: it queries the sources before
    it, in order, sets the clip's buffer on it, plays it, and neither
    queries nor touches any later source.  When every source is playing it
    queries them all, logs, and starts nothing. *)
Theorem Audio_Play_first_idle_source (AL_PLAYING : Z) (source_state : Z -> Z)
    (buffer : Z) :
  (forall busy source rest,
      Forall (fun x => source_state x = AL_PLAYING) busy ->
      source_state source <> AL_PLAYING ->
      Audio_Play AL_PLAYING source_state (busy ++ source :: rest) buffer
      = map AlGetSourceState busy ++
        [AlGetSourceState source; AlSourceBuffer source buffer;
         AlSourcePlay source]) /\
  (forall m_sources,
      Forall (fun x => source_state x = AL_PLAYING) m_sources ->
      Audio_Play AL_PLAYING source_state m_sources buffer
      = map AlGetSourceState m_sources ++ [LogNoSource]).
Proof.
  split.
  - intros busy source rest Hbusy Hidle.
    induction Hbusy as [|x busy Hx _ IH]; cbn [Audio_Play app map].
    + destruct (Z.eqb_spec (source_state source) AL_PLAYING);
        [contradiction | reflexivity].
    + rewrite Hx, Z.eqb_refl, IH. reflexivity.
  - intros m_sources Hall.
    induction Hall as [|x l Hx _ IH]; cbn [Audio_Play app map].
    + reflexivity.
    + rewrite Hx, Z.eqb_refl, IH. reflexivity.
Qed.

(** X15: [ScheduleRaw] makes the submitted job a child of the running job
    exactly when there is a running job, the submitted job has no parent
    yet and the submission is not detached.  In every other case it writes
    no job record at all.  In both cases the job is appended to the queue
    it was given, the condition variable is notified once after the push,
    and the job is returned. *)
Theorem ScheduleRaw_parents_exactly_when (q : QueueId) (job : ptr)
    (detached : bool) (J : Job) (d : list positive) (s : State) :
  heap s !! job = Some J ->
  queue_is q d s ->
  (forall r, m_runningJob s = Some r -> is_Some (heap s !! r)) ->
  exists s',
    ScheduleRaw q job detached s = Ok (job, s') /\
    queue_is q (d ++ [job]) s' /\
    ((exists r,
         m_runningJob s = Some r /\ m_parent J = None /\ detached = false /\
         (m_parent <$> heap s' !! job) = Some (Some r) /\
         trace s' = trace s ++ [EvIncrement r; EvPush q job; EvNotifyAll]) \/
     ((m_runningJob s = None \/ m_parent J <> None \/ detached = true) /\
      heap s' = heap s /\
      trace s' = trace s ++ [EvPush q job; EvNotifyAll])).
Proof.
  intros HJ Hq Hlive.
  destruct (ScheduleRaw_effects q job detached J d s HJ Hq Hlive)
    as (s' & Hrun & Hq' & Hcases).
  exists s'. split; [exact Hrun|]. split; [exact Hq' | exact Hcases].
Qed.

Lemma ScheduleRaw_parents_exactly_when_witness :
  exists s',
    ScheduleRaw (Local 0) 2%positive false two_jobs_running
      = Ok (2%positive, s') /\
    queue_is (Local 0) [2%positive] s'.
Proof.
  destruct (ScheduleRaw_parents_exactly_when (Local 0) 2%positive false job0 []
              two_jobs_running) as (s' & Hrun & Hq & _).
  - reflexivity.
  - split; [simpl; lia | reflexivity].
  - intros r [= <-]. eexists. reflexivity.
  - exists s'. split; [exact Hrun | exact Hq].
Defined.

(** [ExecuteJob] on a record without parent or continuation whose functor
    submits nothing. *)
Lemma ExecuteJob_leaf (fuel : nat) (j : ptr) (size n : Z) (s : State) :
  heap s !! j = Some (allocated size (Fn n [])) ->
  exists s',
    ExecuteJob (S fuel) j s = Ok (tt, s') /\
    trace s' = trace s ++
               [EvInvoke j; EvReturn j; EvFetchSub j 1;
                EvRecycle j (if 100 <=? m_freeJobListCount s
                             then DeleteList else FreeList)] /\
    (m_functorActive <$> heap s' !! j) = Some false /\
    same_queues s s' /\
    m_runningJob s' = None.
Proof.
  intros Hj. unfold ExecuteJob, invoke. mnorm. mstep' load_Ok.
  unfold allocated at 1. proj. cbn [functor_body run_calls]. mnorm.
  erewrite (OnJobDone_finished fuel j (allocated size (Fn n [])));
    [| heap_lookup | reflexivity | reflexivity | reflexivity
     | unfold after_fetch_sub; proj; apply lookup_insert_eq].
  eexists. split; [reflexivity|].
  rewrite trace_recycled, heap_recycled. unfold after_fetch_sub. proj.
  rewrite lookup_insert_eq, <- !app_assoc.
  split; [reflexivity|]. split; [reflexivity|].
  split.
  - unfold same_queues.
    rewrite (proj1 (queues_recycled _ _ _)), (proj2 (queues_recycled _ _ _)).
    split; reflexivity.
  - unfold recycled.
    match goal with |- context [if ?b then _ else _] => destruct b end;
      reflexivity.
Qed.

(** X16: a submission and the next [Work] of the same thread.  On a well
    formed worker with its local and its own global queue empty and no job
    running, a functor that submits nothing, given to [Schedule], is
    allocated, pushed on the thread's own global queue and notified; the
    next [Work] of this thread finds its local queue empty, pops this job
    first from its own global queue, runs it, completes and recycles it and
    returns true.  Both queues are empty again and no job is left
    running. *)
Theorem scheduled_job_runs_on_next_Work (fuel : nat) (n : Z) (s : State)
    (l : list positive) :
  worker_ok s ->
  m_runningJob s = None ->
  queue_is (Local (m_threadIndex s)) [] s ->
  queue_is (Global (m_threadIndex s)) [] s ->
  chain (heap s) (m_freeJobList s) l ->
  (length l <= S fuel)%nat ->
  g_allocator s <> [] ->
  exists j c alloc s',
    (ScheduleFunctor (S fuel) (Fn n []) ;; Work (S fuel)) s = Ok (true, s') /\
    (alloc = [] \/
     alloc = [EvLockAlloc; EvPoolAllocate (Some j); EvUnlockAlloc]) /\
    trace s' = trace s ++ alloc ++
               [EvPush (Global (m_threadIndex s)) j; EvNotifyAll;
                EvPop (Local (m_threadIndex s)) None;
                EvPop (Global (m_threadIndex s)) (Some j);
                EvInvoke j; EvReturn j; EvFetchSub j 1; EvRecycle j c] /\
    queue_is (Local (m_threadIndex s)) [] s' /\
    queue_is (Global (m_threadIndex s)) [] s' /\
    (m_functorActive <$> heap s' !! j) = Some false /\
    m_runningJob s' = None.
Proof.
  intros Hok Hnone Hlocal Hglobal Hc Hlen Hpool.
  destruct (AllocateJob_total (S fuel) (Fn n []) s l Hc Hlen Hpool)
    as (j & s1 & Hrun).
  destruct (AllocateJob_inv (S fuel) (Fn n []) s s1 j l Hc Hrun)
    as ((size & Hj) & _ & _ & Htr & Hr & Hti & Hlq & Hgq & Htc & _).
  assert (Hsame : same_queues s s1) by (split; assumption).
  pose proof (queue_is_same_queues _ _ _ _ Hsame Hlocal) as Hlocal1.
  pose proof (queue_is_same_queues _ _ _ _ Hsame Hglobal) as Hglobal1.
  rewrite <- Hti in Hlocal1, Hglobal1 |- *.
  set (s2 := with_trace
               (trace (pushed (Global (m_threadIndex s1)) [] j s1) ++ [EvNotifyAll])
               (pushed (Global (m_threadIndex s1)) [] j s1)).
  assert (Hsched : ScheduleFunctor (S fuel) (Fn n []) s = Ok (j, s2)).
  { unfold ScheduleFunctor. rewrite (bind_Ok _ _ _ _ _ Hrun).
    unfold Schedule, ScheduleRaw. mnorm. rewrite Hr, Hnone. mnorm.
    mstep Push_Ok. reflexivity. }
  assert (Hok2 : worker_ok s2).
  { destruct Hok as (H1 & H2 & H3 & H4). unfold worker_ok, s2, pushed. proj.
    rewrite length_insert, Hti, Htc, Hlq, Hgq. auto. }
  assert (Hlocal2 : queue_is (Local (m_threadIndex s2)) [] s2).
  { destruct Hlocal1 as [H0 Hd]. split; [exact H0 | exact Hd]. }
  assert (Hglobal2 : queue_is (Global (m_threadIndex s2)) [j] s2).
  { eapply queue_is_same_queues; [|apply (queue_is_pushed _ _ j _ Hglobal1)].
    split; reflexivity. }
  destruct (Work_select_cases s2 Hok2) as (Hfirst & _ & Hsteal & _ & Hwork).
  destruct (round_robin (m_threadIndex s2) (m_threadCount s2))
    as [|x post] eqn:Hrr; [discriminate Hfirst|].
  injection Hfirst as ->.
  pose proof (Hsteal [] (m_threadIndex s2) post j [] Hlocal2 eq_refl
                (fun x Hx => False_ind _ (not_elem_of_nil x Hx)) Hglobal2)
    as Hselect.
  pose proof (Hwork (S fuel) j _ Hselect) as HWork.
  match type of HWork with _ = _ ?st =>
    destruct (ExecuteJob_leaf fuel j size n st) as
      (s' & Hexec & Htr' & Hact & Hq' & Hr')
  end.
  { exact Hj. }
  assert (Hall : (ScheduleFunctor (S fuel) (Fn n []) ;; Work (S fuel)) s
                 = Ok (true, s')).
  { rewrite (bind_Ok _ _ _ _ _ Hsched), HWork.
    rewrite (bind_Ok _ _ _ _ _ Hexec). reflexivity. }
  assert (Hlocal' : queue_is (Local (m_threadIndex s1)) [] s').
  { eapply queue_is_same_queues; [exact Hq'|].
    destruct Hlocal2 as [H0 Hd]. split; [exact H0 | exact Hd]. }
  assert (Hglobal' : queue_is (Global (m_threadIndex s1)) [] s').
  { eapply queue_is_same_queues; [exact Hq'|].
    eapply queue_is_same_queues;
      [|apply (queue_is_popped (Global (m_threadIndex s2)) [] j)].
    - split; reflexivity.
    - eapply queue_is_same_queues; [|exact Hglobal2]. split; reflexivity. }
  unfold popped, probed, s2, pushed in Htr'. proj.
  exists j,
    (if 100 <=? m_freeJobListCount s1 then DeleteList else FreeList).
  destruct Htr as [Htr | Htr];
    [exists [] | exists [EvLockAlloc; EvPoolAllocate (Some j); EvUnlockAlloc]];
    exists s';
    (split; [exact Hall|]);
    (split; [auto|]);
    (split; [rewrite Htr', Htr, <- !app_assoc; reflexivity|]);
    auto.
Qed.

Lemma scheduled_job_runs_on_next_Work_witness :
  exists s',
    (ScheduleFunctor 1 (Fn 24 []) ;; Work 1) (init_state 1 [9%positive])
      = Ok (true, s') /\
    m_runningJob s' = None.
Proof.
  destruct (scheduled_job_runs_on_next_Work 0 24 (init_state 1 [9%positive]) [])
    as (j & c & alloc & s' & Hrun & _ & _ & _ & _ & _ & Hr).
  - unfold worker_ok. simpl. lia.
  - reflexivity.
  - split; [simpl; lia | reflexivity].
  - split; [simpl; lia | reflexivity].
  - reflexivity.
  - simpl. lia.
  - discriminate.
  - exists s'. split; [exact Hrun | exact Hr].
Defined.

Lemma round_robin_covers (t N g : Z) :
  0 <= g < N -> g ∈ round_robin t N.
Proof.
  intros Hg. unfold round_robin.
  apply list_elem_of_fmap. exists ((g - t) mod N). split.
  - rewrite Z.add_mod_idemp_r by lia.
    replace (t + (g - t)) with g by lia.
    symmetry. apply Z.mod_small. exact Hg.
  - apply elem_of_seqZ. pose proof (Z.mod_pos_bound (g - t) N). lia.
Qed.

Lemma round_robin_in_range (t N x : Z) :
  x ∈ round_robin t N -> 0 <= x < N.
Proof.
  unfold round_robin. intros Hx.
  apply list_elem_of_fmap in Hx as (i & -> & Hi).
  apply elem_of_seqZ in Hi. apply Z.mod_pos_bound. lia.
Qed.

(** The first queue of [l] that holds a job. *)
Lemma first_nonempty_queue (s : State) (l : list Z) :
  (forall x, x ∈ l -> exists d, queue_is (Global x) d s) ->
  forall g j d,
  g ∈ l -> queue_is (Global g) (j :: d) s ->
  exists pre q post j' d',
    l = pre ++ q :: post /\
    (forall x, x ∈ pre -> queue_is (Global x) [] s) /\
    queue_is (Global q) (j' :: d') s.
Proof.
  induction l as [|x l IH]; intros Hall g j d Hg Hq.
  - apply elem_of_nil in Hg. contradiction.
  - destruct (Hall x) as [[|jx dx] Hx]; [left| |].
    + assert (Hgl : g ∈ l).
      { apply elem_of_cons in Hg as [-> | Hg]; [|exact Hg].
        destruct Hx as [_ Hx], Hq as [_ Hq]. congruence. }
      destruct (IH (fun y Hy => Hall y (list_elem_of_further _ _ _ Hy))
                   g j d Hgl Hq)
        as (pre & q & post & j' & d' & -> & Hpre & Hq').
      exists (x :: pre), q, post, j', d'. split; [reflexivity|].
      split; [|exact Hq'].
      intros y Hy. apply elem_of_cons in Hy as [-> | Hy]; auto.
    + exists [], x, l, jx, dx. split; [reflexivity|].
      split; [|exact Hx]. intros y Hy. apply elem_of_nil in Hy. contradiction.
Qed.

(** X17: work stealing misses no queued job.  The indices
    [(i + m_threadIndex) % m_threadCount] for [i] from 0 below the thread
    count reach every global queue; so on a well formed worker whose local
    queue is empty, if any global queue holds a job, [Work] obtains a job:
    the head of the first non-empty global queue in its probing order,
    which it removes from that queue and executes.  Whenever [Work] then
    returns, it returns true and the first event after the pops is the
    entry into that job's functor, followed by what the functor does, its
    return and the completion protocol; and when the functor returns
    leaving the job and a line of its ancestors with their last unit,
    [Work] does return true, having taken the last unit of each of them and
    reset and recycled the job. *)
Theorem work_stealing_finds_queued_job (s : State) (g : Z) (j : ptr)
    (d : list positive) :
  worker_ok s ->
  queue_is (Local (m_threadIndex s)) [] s ->
  queue_is (Global g) (j :: d) s ->
  exists pre q post j' d' s',
    round_robin (m_threadIndex s) (m_threadCount s) = pre ++ q :: post /\
    (forall x, x ∈ pre -> queue_is (Global x) [] s) /\
    queue_is (Global q) (j' :: d') s /\
    Work_select s = Ok (Some j', s') /\
    trace s' = trace s ++
      EvPop (Local (m_threadIndex s)) None ::
      map (fun x => EvPop (Global x) None) pre ++ [EvPop (Global q) (Some j')] /\
    queue_is (Global q) d' s' /\
    (forall fuel b s2,
        Work fuel s = Ok (b, s2) ->
        b = true /\
        exists body completion,
          trace s2 = trace s' ++
                     EvInvoke j' :: body ++ [EvReturn j'] ++ completion /\
          Forall client_event body /\ Forall completion_event completion) /\
    (forall fuel s_f l top,
        invoke fuel j' (with_runningJob (Some j') s') = Ok (tt, s_f) ->
        finishing (heap s_f) j' l top ->
        NoDup (j' :: l) ->
        top_waits (heap s_f) (j' :: l) top ->
        (length l + 2 <= fuel)%nat ->
        exists s2 body evs,
          Work fuel s = Ok (true, s2) /\
          trace s2 = trace s' ++
                     EvInvoke j' :: body ++ [EvReturn j'] ++
                     map (fun x => EvFetchSub x 1) (j' :: l) ++
                     decrement_of (heap s_f) top ++ evs /\
          Forall client_event body /\
          Forall2 recycles (rev (j' :: l)) evs /\
          reset_and_recycled j' s2).
Proof.
  intros Hok Hlocal Hq.
  pose proof Hok as (Ht & HN & Hll & Hlg).
  destruct (Work_select_cases s Hok) as (_ & _ & Hsteal & _).
  assert (Hg : 0 <= g < m_threadCount s).
  { destruct Hq as [H0 Hd]. cbn [queue_index queues] in *.
    apply lookup_lt_Some in Hd. lia. }
  assert (Hall : forall x,
             x ∈ round_robin (m_threadIndex s) (m_threadCount s) ->
             exists dx, queue_is (Global x) dx s).
  { intros x Hx. apply round_robin_in_range in Hx.
    destruct (lookup_lt_is_Some_2 (m_globalQueues s) (Z.to_nat x)) as [dx Hdx];
      [lia|].
    exists dx. split; [cbn [queue_index]; lia | exact Hdx]. }
  destruct (first_nonempty_queue s _ Hall g j d
              (round_robin_covers _ _ _ Hg) Hq)
    as (pre & q & post & j' & d' & Hrr & Hpre & Hq').
  pose proof (Hsteal pre q post j' d' Hlocal Hrr Hpre Hq') as Hsel.
  exists pre, q, post, j', d'. eexists.
  split; [exact Hrr|]. split; [exact Hpre|]. split; [exact Hq'|].
  split; [exact Hsel|].
  split.
  { unfold popped, probed. proj. rewrite <- app_assoc. reflexivity. }
  split.
  { apply queue_is_popped.
    eapply queue_is_same_queues; [|exact Hq']. split; reflexivity. }
  split.
  - intros fuel b s2 H. exact (Work_enters_selected _ _ _ _ _ _ Hsel H).
  - intros fuel s_f l top Hinv Hfin Hnd Htop Hfuel.
    destruct (Work_runs_line fuel j' l top s _ s_f Hsel Hinv Hfin Hnd Htop Hfuel)
      as (s2 & body & evs & Hrun & Htr & Hbody & Hev & _ & _ & _ & _ & Hrec & _).
    exists s2, body, evs. auto 10.
Qed.

Lemma work_stealing_finds_queued_job_witness :
  exists s2 body evs,
    Work 2 three_workers = Ok (true, s2) /\
    trace s2 =
      [EvPop (Local 1) None; EvPop (Global 1) None;
       EvPop (Global 2) (Some 8%positive)] ++
      EvInvoke 8%positive :: body ++ [EvReturn 8%positive] ++
      [EvFetchSub 8%positive 1] ++ evs /\
    Forall2 recycles [8%positive] evs.
Proof.
  destruct (work_stealing_finds_queued_job three_workers 0 7%positive [])
    as (pre & q & post & j' & d' & s' & _ & _ & _ & Hsel & _ & _ & _ & Hexec).
  - unfold worker_ok. simpl. lia.
  - split; [simpl; lia | reflexivity].
  - split; [simpl; lia | reflexivity].
  - vm_compute in Hsel. injection Hsel as <- <-.
    destruct (Hexec 2%nat _ [] None eq_refl)
      as (s2 & body & evs & Hrun & Htr & _ & Hev & _).
    + exists job0. repeat split; reflexivity.
    + apply NoDup_singleton.
    + exact I.
    + simpl. lia.
    + exists s2, body, evs. split; [exact Hrun|].
      split; [exact Htr | exact Hev].
Defined.

(** X18: the free list never grows beyond 100 records.  On a well formed
    free list of at most 100 records, [DeallocateJob] adds the record at
    the head when the list has fewer than 100 and leaves the list as it is
    when it has 100, and [AllocateJob], for a functor that fits the storage
    of a block, either leaves the list or takes one record out; after
    either the list is well formed, its counter is its length, and it holds
    at most 100 records. *)
Theorem free_list_never_exceeds_100 (fuel : nat) (s : State)
    (fl : list positive) :
  free_list_is fl s ->
  (length fl <= 100)%nat ->
  (length fl <= fuel)%nat ->
  (forall b, b ∈ g_allocator s -> b ∉ fl) ->
  (forall job J,
      heap s !! job = Some J -> job ∉ fl ->
      exists s' fl',
        DeallocateJob job s = Ok (tt, s') /\
        free_list_is fl' s' /\ (length fl' <= 100)%nat /\
        fl' = if decide (length fl = 100%nat) then fl else job :: fl) /\
  (forall f j s',
      sizeof_JobFunctor f <= blockSize - sizeof_Job ->
      AllocateJob fuel f s = Ok (j, s') ->
      exists fl',
        free_list_is fl' s' /\ (length fl' <= length fl)%nat /\
        (fl' = fl \/ fl' = remove_first j fl)).
Proof.
  intros Hfl Hmax Hfuel Hdisj. pose proof Hfl as (Hc & Hcount & Hsz). split.
  - intros job J HJ Hnl.
    exists (recycled job J s),
      (if decide (length fl = 100%nat) then fl else job :: fl).
    split; [now apply DeallocateJob_Ok|].
    unfold recycled. rewrite Hcount.
    destruct (decide (length fl = 100%nat)) as [Heq|Hne].
    + destruct (Z.leb_spec 100 (Z.of_nat (length fl))) as [_|Hlt]; [|lia].
      split; [|split; [exact Hmax | reflexivity]].
      split; [|split; [exact Hcount | exact Hsz]]. proj.
      now apply chain_insert_fresh.
    + destruct (Z.leb_spec 100 (Z.of_nat (length fl))) as [Hge|_]; [lia|].
      split; [|split; [cbn [length]; lia | reflexivity]].
      split; [proj; now apply chain_cons_reset|]. proj.
      rewrite wrap_size_t_small by lia. cbn [length]. lia.
  - intros f j s' Hfits Hrun.
    destruct (find_fit_total (Z.max (sizeof_JobFunctor f) 24) s fl fuel
                (m_freeJobList s) None Hc Hfuel) as [[p jo] Hf].
    destruct jo as [j0|].
    + destruct (find_fit_found _ s fuel fl _ _ _ _ _ Hc Hf)
        as (a & b & J & -> & Hp & Ha & HJ & Hfit).
      assert (Hp' : p = last a) by (rewrite Hp; now destruct (last a)).
      destruct (AllocateJob_reuses fuel f s a b j0 J p Hfl Hf Hp' HJ)
        as (s0 & Hrun0 & Hfl0 & _).
      rewrite Hrun0 in Hrun. injection Hrun as <- <-.
      exists (a ++ b). split; [exact Hfl0|].
      split; [rewrite !length_app; cbn [length]; lia|].
      right. symmetry. apply remove_first_middle.
      pose proof (chain_NoDup _ _ _ Hc) as Hnd.
      apply NoDup_app in Hnd as (_ & Hdis & _).
      intros Hin. apply (Hdis _ Hin). left.
    + destruct (AllocateJob_takes_block fuel f s fl p Hfl Hf) as [Hblock Hnone].
      destruct (g_allocator s) as [|b rest] eqn:Hpool.
      * rewrite (Hnone eq_refl) in Hrun. discriminate Hrun.
      * destruct (Hblock b rest eq_refl) as (s0 & Hrun0 & Hfl0 & _).
        { apply Hdisj. left. }
        { exact Hfits. }
        rewrite Hrun0 in Hrun. injection Hrun as <- <-.
        exists fl. split; [exact Hfl0|]. split; [lia | now left].
Qed.

Lemma free_list_never_exceeds_100_witness :
  exists s',
    DeallocateJob 1%positive running_with_free_job = Ok (tt, s') /\
    free_list_is [1%positive; 5%positive] s'.
Proof.
  destruct (free_list_never_exceeds_100 1 running_with_free_job [5%positive])
    as [Hdealloc _].
  - split; [|split; reflexivity]. simpl.
    repeat (first [reflexivity | split; [reflexivity|] | eexists]).
  - simpl. lia.
  - simpl. lia.
  - intros b Hb Hin. apply list_elem_of_singleton in Hin. subst b.
    apply elem_of_cons in Hb as [Hb|Hb]; [discriminate Hb|].
    apply list_elem_of_singleton in Hb. discriminate Hb.
  - destruct (Hdealloc 1%positive job0) as (s' & fl' & Hrun & Hfl & _ & ->).
    + reflexivity.
    + intros Hin. apply list_elem_of_singleton in Hin. discriminate Hin.
    + exists s'. split; [exact Hrun | exact Hfl].
Defined.

Lemma chain_agree (h h' : gmap positive Job) (l : list positive) :
  forall (head : option ptr),
  (forall x, x ∈ l -> h' !! x = h !! x) ->
  chain h head l -> chain h' head l.
Proof.
  induction l as [|x l IH]; intros head Hag Hc; simpl in *.
  - exact Hc.
  - destruct Hc as (-> & J & HJ & Hk & Hn & Ha & Hrest).
    split; [reflexivity|]. exists J.
    split; [rewrite Hag by left; exact HJ|].
    repeat (split; [assumption|]).
    apply IH; [|exact Hrest]. intros y Hy. apply Hag. now right.
Qed.

(** X19: [DeleteOldJobs] ends the life of exactly the records on the delete
    list: none of them is in memory afterwards, every other record is
    untouched, the delete list is empty with its counter at 0, and a free
    list that shares no record with the delete list is still well formed
    with the same records and counter. *)
Theorem DeleteOldJobs_frees_only_delete_list (fuel : nat) (s : State)
    (dl fl : list positive) :
  chain (heap s) (m_deleteJobList s) dl ->
  (length dl <= fuel)%nat ->
  free_list_is fl s ->
  (forall x, x ∈ fl -> x ∉ dl) ->
  exists s',
    DeleteOldJobs fuel s = Ok (tt, s') /\
    (forall j, j ∈ dl -> heap s' !! j = None) /\
    (forall j, j ∉ dl -> heap s' !! j = heap s !! j) /\
    m_deleteJobList s' = None /\
    m_deleteJobListCount s' = 0 /\
    free_list_is fl s'.
Proof.
  intros Hc Hlen (Hfl & Hcount & Hsz) Hdisj.
  destruct (DeleteOldJobs_loop_Ok dl fuel
              (with_trace (trace s ++ [EvLockAlloc]) s) Hc Hlen)
    as (s3 & Hloop & _ & Hd3 & _ & Hgone & Hkept & Hf3 & Hn3).
  unfold DeleteOldJobs. mnorm.
  rewrite (bind_Ok _ _ _ _ _ Hloop). mnorm.
  eexists. split; [reflexivity|]. proj.
  split; [exact Hgone|]. split; [exact Hkept|].
  split; [exact Hd3|]. split; [reflexivity|].
  unfold free_list_is. proj. rewrite Hf3, Hn3. proj.
  split; [|split; assumption].
  apply (chain_agree (heap s)); [|exact Hfl].
  intros x Hx. apply Hkept, Hdisj, Hx.
Qed.

Lemma DeleteOldJobs_frees_only_delete_list_witness :
  exists s',
    DeleteOldJobs 1 delete_pending = Ok (tt, s') /\
    heap s' !! 5%positive = None /\
    free_list_is [6%positive] s'.
Proof.
  destruct (DeleteOldJobs_frees_only_delete_list 1 delete_pending
              [5%positive] [6%positive])
    as (s' & Hrun & Hgone & _ & _ & _ & Hfl).
  - simpl. repeat (first [reflexivity | split; [reflexivity|] | eexists]).
  - simpl. lia.
  - split; [|split; reflexivity]. simpl.
    repeat (first [reflexivity | split; [reflexivity|] | eexists]).
  - intros x Hx Hin. apply list_elem_of_singleton in Hx, Hin.
    subst x. discriminate Hin.
  - exists s'. split; [exact Hrun|]. split; [apply Hgone; left | exact Hfl].
Defined.

(** ** A functor larger than the storage of its block *)

Lemma overrun_next (j : ptr) (capacity size : Z) :
  capacity < size -> (j + 1)%positive ∈ overrun j capacity size.
Proof.
  intros H. unfold overrun. apply list_elem_of_fmap. exists 1. split.
  - reflexivity.
  - apply elem_of_seqZ.
    assert (1 <= (size - capacity + (blockSize - 1)) / blockSize); [|lia].
    unfold blockSize. apply Z.div_le_lower_bound; lia.
Qed.

(** X20: what the missing size check costs.  With an empty free list,
    [AllocateJob] of a functor larger than the storage a block leaves after
    the [Job] header takes the first free block of the pool all the same,
    records the block's capacity, not the functor's size, and constructs
    the functor there: the construction runs on into the next block, so a
    job record that lived in the next block is no more, and executing that
    job afterwards is undefined. *)
Theorem oversize_functor_overruns_next_block (fuel : nat) (f : Functor)
    (b : ptr) (rest : list positive) (s : State) :
  m_freeJobList s = None ->
  g_allocator s = b :: rest ->
  blockSize - sizeof_Job < sizeof_JobFunctor f ->
  exists s',
    AllocateJob fuel f s = Ok (b, s') /\
    heap s' !! b = Some (allocated (blockSize - sizeof_Job) f) /\
    heap s' !! (b + 1)%positive = None /\
    (forall fuel', invoke fuel' (b + 1)%positive s' = Undefined) /\
    (forall fuel', ExecuteJob fuel' (b + 1)%positive s' = Undefined) /\
    (forall fuel', OnJobDone (S fuel') (b + 1)%positive s' = Undefined).
Proof.
  intros Hfree Hpool Hbig.
  unfold AllocateJob. mnorm. rewrite Hfree.
  assert (Hfind : forall n, find_fit fuel n None None s = Ok ((None, None), s))
    by (intros n; destruct fuel; reflexivity).
  rewrite (bind_Ok _ _ _ _ _ (Hfind _)). mnorm.
  erewrite bind_Ok; [|apply Pool_Allocate_cons; proj; exact Hpool].
  mnorm. unfold ASSERT at 1. unfold bind at 1. simpl bool_decide.
  cbv iota beta. unfold store. mnorm.
  erewrite bind_Ok; [|apply SetFunctor_Ok; proj; apply lookup_insert_eq].
  mnorm. eexists. split; [reflexivity|]. proj.
  assert (Hnext : forall h : gmap positive Job,
             (<[b := Job_SetFunctor f (Job_new (wrap_size_t (blockSize - sizeof_Job)))]>
                (drop_blocks
                   (overrun b (m_functorSize (Job_new (wrap_size_t (blockSize - sizeof_Job))))
                            (sizeof_JobFunctor f)) h))
               !! (b + 1)%positive = None).
  { intros h. rewrite lookup_insert_ne by lia. rewrite lookup_drop_blocks.
    rewrite bool_decide_eq_true_2; [reflexivity|].
    apply overrun_next. exact Hbig. }
  split; [apply lookup_insert_eq|].
  split; [apply Hnext|].
  split; [|split]; intros fuel'.
  - unfold invoke, bind, load. proj. now rewrite Hnext.
  - unfold ExecuteJob, invoke, bind, load. proj. now rewrite Hnext.
  - cbn [OnJobDone]. unfold fetch_sub, bind, load. proj. now rewrite Hnext.
Qed.

Lemma oversize_functor_overruns_next_block_witness :
  exists s',
    AllocateJob 0 (Fn 200 []) two_blocks_one_job = Ok (1%positive, s') /\
    heap s' !! 2%positive = None /\
    ExecuteJob 1 2%positive s' = Undefined.
Proof.
  destruct (oversize_functor_overruns_next_block 0 (Fn 200 []) 1%positive
              [3%positive] two_blocks_one_job)
    as (s' & Hrun & _ & Hnext & _ & Hexec & _).
  - reflexivity.
  - reflexivity.
  - vm_compute. reflexivity.
  - exists s'. split; [exact Hrun|]. split; [exact Hnext | apply Hexec].
Defined.
